(** * Reverse-mode differentiation pass (Derivative.cpp) and Scope.h

  A shallow embedding of the parts of the Halide autoscheduler branch that
  the specification talks about: the scoped symbol table [Scope<T>], the
  expression-level reverse accumulation of [ReverseAccumulationVisitor],
  its forward overwrite detection, pieces of the scatter canonicalisation
  of the visitor's handler for [Call] nodes, and the entry point [propagate_adjoints]. *)

From stdpp Require Import gmap strings list fin_maps sorting.
From Stdlib Require Import ZArith QArith Qabs Bool Lia DecimalString.

Local Open Scope Z_scope.

(** ** Errors

  [assert], [internal_assert], [internal_error] and
  [user_error]/[user_assert] all abort the current request; a fallible
  operation returns [result]. *)

Inductive error : Type :=
| AssertFailed
| InternalAssert
| InternalError (msg : string)
| UserError (msg : string).

Definition result (A : Type) : Type := (error + A)%type.

Definition ok {A : Type} (a : A) : result A := inr a.
Definition fail {A : Type} (e : error) : result A := inl e.

Definition bind {A B : Type} (r : result A) (k : A -> result B) : result B :=
match r with
| inl e => inl e
| inr a => k a
end.

Notation "'let*' x ':=' r 'in' k" := (bind r (fun x => k))
(at level 10, x name, r at level 100, k at level 200).

(** ** Scope.h *)

Module ScopeH.
Section WithT.

Variable T : Type.
(** [T()], the value-initialised element. *)
Variable T_default : T.

(** [SmallStack<T>]: the top element is stored inline, the others in a
    vector whose back is the end of the list. *)
Record SmallStack : Type := {
  _top : T;
  _rest : list T;
  _empty : bool
}.

Definition SmallStack_new : SmallStack :=
  {| _top := T_default; _rest := []; _empty := true |}.

Definition SmallStack_pop (s : SmallStack) : SmallStack :=
  match _rest s with
  | [] => {| _top := T_default; _rest := _rest s; _empty := true |}
  | _ :: _ =>
      {| _top := List.last (_rest s) T_default;
         _rest := List.removelast (_rest s);
         _empty := _empty s |}
  end.

Definition SmallStack_push (s : SmallStack) (t : T) : SmallStack :=
  if _empty s
  then {| _top := t; _rest := _rest s; _empty := false |}
  else {| _top := t; _rest := _rest s ++ [_top s]; _empty := _empty s |}.

Definition SmallStack_top (s : SmallStack) : T := _top s.

(** [top_ref() = value] *)
Definition SmallStack_set_top (s : SmallStack) (value : T) : SmallStack :=
  {| _top := value; _rest := _rest s; _empty := _empty s |}.

Definition SmallStack_empty (s : SmallStack) : bool := _empty s.

(** [Scope<T>]: the same bindings are kept in a [std::map] and in a
    [std::unordered_map]; [containing_scope] is the parent. *)
#[warnings="-register-all"]
Inductive Scope : Type := Build_Scope {
  m_table : gmap string SmallStack;
  o_table : gmap string SmallStack;
  containing_scope : option Scope
}.

Definition Scope_new : Scope :=
  {| m_table := ∅; o_table := ∅; containing_scope := None |}.

Definition set_containing_scope (s : Scope) (p : option Scope) : Scope :=
  {| m_table := m_table s; o_table := o_table s; containing_scope := p |}.

(** [(m_iter == m_table.end()) == (o_iter == o_table.end())] *)
Definition same_end (m_iter o_iter : option SmallStack) : bool :=
  Bool.eqb (bool_decide (m_iter = None)) (bool_decide (o_iter = None)).

Definition not_in_scope (name : string) : error :=
  InternalError ("Name not in Scope: " +:+ name).

Fixpoint get (s : Scope) (name : string) : result T :=
  let m_iter := m_table s !! name in
  let o_iter := o_table s !! name in
  if negb (same_end m_iter o_iter) then fail InternalAssert
  else
    match o_iter with
    | Some st =>
        if SmallStack_empty st then
          match containing_scope s with
          | Some p => get p name
          | None => fail (not_in_scope name)
          end
        else ok (SmallStack_top st)
    | None =>
        match containing_scope s with
        | Some p => get p name
        | None => fail (not_in_scope name)
        end
    end.

Fixpoint contains (s : Scope) (name : string) : result bool :=
  let m_iter := m_table s !! name in
  let o_iter := o_table s !! name in
  if negb (same_end m_iter o_iter) then fail InternalAssert
  else
    match o_iter with
    | Some st =>
        if SmallStack_empty st then
          match containing_scope s with
          | Some p => contains p name
          | None => ok false
          end
        else ok true
    | None =>
        match containing_scope s with
        | Some p => contains p name
        | None => ok false
        end
    end.

Definition replace (s : Scope) (name : string) (value : T) : result Scope :=
  let m_iter := m_table s !! name in
  let o_iter := o_table s !! name in
  if negb (same_end m_iter o_iter) then fail InternalAssert
  else
    match m_iter, o_iter with
    | Some ms, Some os =>
        if SmallStack_empty os then fail (not_in_scope name)
        else
          ok {| m_table := <[name := SmallStack_set_top ms value]> (m_table s);
                o_table := <[name := SmallStack_set_top os value]> (o_table s);
                containing_scope := containing_scope s |}
    | _, _ => fail (not_in_scope name)
    end.

(** [table[name]]: [operator[]] default-constructs a missing entry. *)
Definition index (t : gmap string SmallStack) (name : string) : SmallStack :=
  default SmallStack_new (t !! name).

Definition push (s : Scope) (name : string) (value : T) : Scope :=
  {| m_table := <[name := SmallStack_push (index (m_table s) name) value]> (m_table s);
     o_table := <[name := SmallStack_push (index (o_table s) name) value]> (o_table s);
     containing_scope := containing_scope s |}.

(** [erase] the entry when the popped stack is empty, otherwise the popped
    stack stays in place. *)
Definition pop_entry (t : gmap string SmallStack) (name : string)
    (st : SmallStack) : gmap string SmallStack :=
  let st' := SmallStack_pop st in
  if SmallStack_empty st' then delete name t else <[name := st']> t.

Definition pop (s : Scope) (name : string) : result Scope :=
  let m_iter := m_table s !! name in
  let o_iter := o_table s !! name in
  if negb (same_end m_iter o_iter) then fail InternalAssert
  else
    match m_iter, o_iter with
    | Some ms, Some os =>
        ok {| m_table := pop_entry (m_table s) name ms;
              o_table := pop_entry (o_table s) name os;
              containing_scope := containing_scope s |}
    | _, _ => fail InternalAssert
    end.

(** [swap] exchanges the whole contents of two scopes. *)
Definition swap (s other : Scope) : Scope * Scope := (other, s).

(** The iterator of the [#if 0] branch walks [m_table], the one that is
    compiled walks [o_table]; the order of an unordered map is not
    specified, so an iteration is taken as the set of its
    (name, stack) pairs. *)
Definition iterate_ordered (s : Scope) : gset string := dom (m_table s).
Definition iterate_unordered (s : Scope) : gset string := dom (o_table s).

(** A sequence of calls on one scope; the first failing call aborts. *)
Inductive scope_op : Type :=
| OpPush (name : string) (value : T)
| OpPop (name : string)
| OpReplace (name : string) (value : T).

Definition step (s : Scope) (o : scope_op) : result Scope :=
  match o with
  | OpPush name value => ok (push s name value)
  | OpPop name => pop s name
  | OpReplace name value => replace s name value
  end.

Fixpoint run (ops : list scope_op) (s : Scope) : result Scope :=
  match ops with
  | [] => ok s
  | o :: ops' => let* s' := step s o in run ops' s'
  end.

(** The invariant: both tables hold the same stacks under the same names
    and no stored stack is empty. *)
Definition tables_agree (s : Scope) : Prop :=
  m_table s = o_table s /\
  forall name st, o_table s !! name = Some st -> SmallStack_empty st = false.

(** The scope with the roles of the two tables exchanged: what an
    operation does on it is what the operation would do if it consulted the
    other table. *)
Definition exchanged (s : Scope) : Scope :=
  {| m_table := o_table s; o_table := m_table s;
     containing_scope := containing_scope s |}.

(** The elements of a stack, from the bottom to the top. *)
Definition SmallStack_contents (s : SmallStack) : list T :=
  if _empty s then [] else _rest s ++ [_top s].

(** An empty stack keeps nothing in [_rest]. *)
Definition SmallStack_wf (s : SmallStack) : Prop :=
  _empty s = true -> _rest s = [].

(** [ScopedBinding<T>].  The helper keeps a pointer to the scope it pushed
    on, or [nullptr] when its condition did not hold; the scope itself is
    threaded through the calls, so what is kept of the pointer is whether
    it is set. *)
Record ScopedBinding : Type := {
  sb_scope : bool;
  sb_name : string
}.

(** [ScopedBinding(s, n, value)] *)
Definition ScopedBinding_new (s : Scope) (n : string) (value : T)
    : ScopedBinding * Scope :=
  ({| sb_scope := true; sb_name := n |}, push s n value).

(** [ScopedBinding(condition, s, n, value)] *)
Definition ScopedBinding_new_if (condition : bool) (s : Scope) (n : string)
    (value : T) : ScopedBinding * Scope :=
  ({| sb_scope := condition; sb_name := n |},
   if condition then push s n value else s).

(** [~ScopedBinding()] *)
Definition ScopedBinding_destroy (b : ScopedBinding) (s : Scope) : result Scope :=
  if sb_scope b then pop s (sb_name b) else ok s.

End WithT.

Arguments _top {T} _.
Arguments _rest {T} _.
Arguments _empty {T} _.
Arguments m_table {T} _.
Arguments o_table {T} _.
Arguments containing_scope {T} _.
Arguments OpPush {T} _ _.
Arguments OpPop {T} _.
Arguments OpReplace {T} _ _.

(** Induction along the chain of containing scopes. *)
Section ScopeChain.
Variable T : Type.
Variable P : Scope T -> Prop.
Hypothesis Houtermost : forall m o, P (Build_Scope T m o None).
Hypothesis Hnested : forall m o p, P p -> P (Build_Scope T m o (Some p)).

Fixpoint Scope_chain_ind (s : Scope T) : P s :=
  match s with
  | Build_Scope _ m o None => Houtermost m o
  | Build_Scope _ m o (Some p) => Hnested m o p (Scope_chain_ind p)
  end.

End ScopeChain.

(** [SmallStack<void>]: a stack of voids is the number of voids in it, an
    [int]; [wrap_int] is the arithmetic of a 32-bit two's complement
    [int]. *)
Definition wrap_int (z : Z) : Z := (z + 2 ^ 31) mod 2 ^ 32 - 2 ^ 31.

Record SmallStack_void : Type := { counter : Z }.

Definition SmallStack_void_new : SmallStack_void := {| counter := 0 |}.

Definition SmallStack_void_pop (s : SmallStack_void) : SmallStack_void :=
  {| counter := wrap_int (counter s - 1) |}.

Definition SmallStack_void_push (s : SmallStack_void) : SmallStack_void :=
  {| counter := wrap_int (counter s + 1) |}.

Definition SmallStack_void_empty (s : SmallStack_void) : bool :=
  Z.eqb (counter s) 0.

(** A sequence of calls on one [SmallStack<void>], and how many more
    pushes than pops it holds. *)
Inductive stack_void_op : Type :=
| StackPush
| StackPop.

Definition SmallStack_void_step (s : SmallStack_void) (o : stack_void_op)
    : SmallStack_void :=
  match o with
  | StackPush => SmallStack_void_push s
  | StackPop => SmallStack_void_pop s
  end.

Definition SmallStack_void_run (ops : list stack_void_op) (s : SmallStack_void)
    : SmallStack_void :=
  fold_left SmallStack_void_step ops s.

Definition balance (ops : list stack_void_op) : Z :=
  fold_left (fun z o => match o with StackPush => z + 1 | StackPop => z - 1 end) ops 0.

(** [Scope<void>], the scope that binds names to nothing.  It has [push],
    [pop] and [contains]; [get] and [replace] are disabled for it. *)
#[warnings="-register-all"]
Inductive Scope_void : Type := Build_Scope_void {
  v_m_table : gmap string SmallStack_void;
  v_o_table : gmap string SmallStack_void;
  v_containing_scope : option Scope_void
}.

Definition Scope_void_new : Scope_void :=
  {| v_m_table := ∅; v_o_table := ∅; v_containing_scope := None |}.

Definition same_end_void (m_iter o_iter : option SmallStack_void) : bool :=
  Bool.eqb (bool_decide (m_iter = None)) (bool_decide (o_iter = None)).

Fixpoint contains_void (s : Scope_void) (name : string) : result bool :=
  let m_iter := v_m_table s !! name in
  let o_iter := v_o_table s !! name in
  if negb (same_end_void m_iter o_iter) then fail InternalAssert
  else
    match o_iter with
    | Some st =>
        if SmallStack_void_empty st then
          match v_containing_scope s with
          | Some p => contains_void p name
          | None => ok false
          end
        else ok true
    | None =>
        match v_containing_scope s with
        | Some p => contains_void p name
        | None => ok false
        end
    end.

Definition index_void (t : gmap string SmallStack_void) (name : string)
    : SmallStack_void :=
  default SmallStack_void_new (t !! name).

(** [push(name)] *)
Definition push_void (s : Scope_void) (name : string) : Scope_void :=
  {| v_m_table :=
       <[name := SmallStack_void_push (index_void (v_m_table s) name)]> (v_m_table s);
     v_o_table :=
       <[name := SmallStack_void_push (index_void (v_o_table s) name)]> (v_o_table s);
     v_containing_scope := v_containing_scope s |}.

Definition pop_entry_void (t : gmap string SmallStack_void) (name : string)
    (st : SmallStack_void) : gmap string SmallStack_void :=
  let st' := SmallStack_void_pop st in
  if SmallStack_void_empty st' then delete name t else <[name := st']> t.

Definition pop_void (s : Scope_void) (name : string) : result Scope_void :=
  let m_iter := v_m_table s !! name in
  let o_iter := v_o_table s !! name in
  if negb (same_end_void m_iter o_iter) then fail InternalAssert
  else
    match m_iter, o_iter with
    | Some ms, Some os =>
        ok {| v_m_table := pop_entry_void (v_m_table s) name ms;
              v_o_table := pop_entry_void (v_o_table s) name os;
              v_containing_scope := v_containing_scope s |}
    | _, _ => fail InternalAssert
    end.

(** A sequence of calls on one [Scope<void>]. *)
Inductive scope_void_op : Type :=
| OpPushVoid (name : string)
| OpPopVoid (name : string).

Definition step_void (s : Scope_void) (o : scope_void_op) : result Scope_void :=
  match o with
  | OpPushVoid name => ok (push_void s name)
  | OpPopVoid name => pop_void s name
  end.

Fixpoint run_void (ops : list scope_void_op) (s : Scope_void) : result Scope_void :=
  match ops with
  | [] => ok s
  | o :: ops' => let* s' := step_void s o in run_void ops' s'
  end.

(** How many more times a run pushes a name than it pops it. *)
Fixpoint depth (ops : list scope_void_op) (name : string) : Z :=
  match ops with
  | [] => 0
  | OpPushVoid n :: ops' => (if String.eqb n name then 1 else 0) + depth ops' name
  | OpPopVoid n :: ops' => (if String.eqb n name then -1 else 0) + depth ops' name
  end.

(** The tables of an outermost [Scope<void>] hold, for every name, the
    count [d] gives when it is positive and nothing otherwise. *)
Definition holds_counts (s : Scope_void) (d : string -> Z) : Prop :=
  v_containing_scope s = None /\
  v_m_table s = v_o_table s /\
  forall name,
    v_o_table s !! name
    = if 0 <? d name then Some {| counter := d name |} else None.

(** What one call adds to the depth of a name. *)
Definition delta (o : scope_void_op) (name : string) : Z :=
  match o with
  | OpPushVoid n => if String.eqb n name then 1 else 0
  | OpPopVoid n => if String.eqb n name then -1 else 0
  end.

End ScopeH.

(** ** The expression language (IR.h, Expr.h, Reduction.h)

  Expressions are immutable trees.  The identity of a node (its address)
  matters only to the adjoint map of the visitor and is kept in the
  handles of [Module Derivative]; everything else works on the tree. *)

Module IR.

(** Addresses: of IR nodes, of function contents and of reduction-domain
    contents. *)
Definition ptr : Type := positive.

Inductive Type_ : Type :=
| Int (bits : nat)
| UInt (bits : nat)
| Float (bits : nat)
| Handle.

Definition is_float (t : Type_) : bool :=
  match t with Float _ => true | _ => false end.

Definition Bool_ : Type_ := UInt 1.

Inductive CallType : Type :=
| Image | Extern | ExternCPlusPlus | PureExtern | Halide | Intrinsic | PureIntrinsic.

Inductive BinaryOp : Type :=
| Add | Sub | Mul | Div | Mod | Min | Max
| EQ | NE | LT | LE | GT | GE | And | Or.

(** [ReductionVariable] and the contents a [ReductionDomain] points to. *)
Record ReductionVariable_ (E : Type) : Type := {
  var : string;
  min : E;
  extent : E
}.

Record ReductionDomain_ (E : Type) : Type := {
  contents : ptr;
  domain : list (ReductionVariable_ E);
  predicate : E
}.

Arguments var {E} _.
Arguments min {E} _.
Arguments extent {E} _.
Arguments contents {E} _.
Arguments domain {E} _.
Arguments predicate {E} _.

#[warnings="-register-all"]
Inductive Expr : Type :=
| IntImm (type : Type_) (value : Z)
| UIntImm (type : Type_) (value : Z)
| FloatImm (type : Type_) (value : Q)
| Cast (type : Type_) (value : Expr)
| Variable_ (type : Type_) (name : string)
    (reduction_domain : option (ReductionDomain_ Expr))
| Binary (op : BinaryOp) (a b : Expr)
| Not (a : Expr)
| Select (condition true_value false_value : Expr)
| Let_ (name : string) (value body : Expr)
| Call (type : Type_) (name : string) (args : list Expr)
    (call_type : CallType) (func : option ptr) (value_index : nat).

Definition ReductionVariable : Type := ReductionVariable_ Expr.
Definition ReductionDomain : Type := ReductionDomain_ Expr.

Definition is_comparison (op : BinaryOp) : bool :=
  match op with
  | EQ | NE | LT | LE | GT | GE | And | Or => true
  | _ => false
  end.

(** [e.type()] *)
Fixpoint type_of (e : Expr) : Type_ :=
  match e with
  | IntImm t _ | UIntImm t _ | FloatImm t _ => t
  | Cast t _ => t
  | Variable_ t _ _ => t
  | Binary op a _ => if is_comparison op then Bool_ else type_of a
  | Not _ => Bool_
  | Select _ t _ => type_of t
  | Let_ _ _ body => type_of body
  | Call t _ _ _ _ _ => t
  end.

(** [(int64_t) val] *)
Definition Qtruncate (q : Q) : Z := Z.quot (Qnum q) (Zpos (Qden q)).

(** [make_const(t, val)] *)
Definition make_const (t : Type_) (val : Q) : Expr :=
  match t with
  | Int _ => IntImm t (Qtruncate val)
  | UInt _ => UIntImm t (Qtruncate val)
  | Float _ => FloatImm t val
  | Handle => IntImm t (Qtruncate val)
  end.

Definition make_zero (t : Type_) : Expr := make_const t 0%Q.

(** [const_false()], [const_true()] *)
Definition const_false : Expr := UIntImm Bool_ 0.
Definition const_true : Expr := UIntImm Bool_ 1.

(** The operators of IROperator.h build the node; their implicit
    conversions of mismatched operand types are not part of the model. *)
Definition select (c t f : Expr) : Expr := Select c t f.
Definition neg (a : Expr) : Expr := Binary Sub (make_zero (type_of a)) a.
Definition cast (t : Type_) (e : Expr) : Expr := Cast t e.

(** [a += b] on expressions. *)
Definition plus_assign (a b : Expr) : Expr := Binary Add a b.

(** [Call::is_extern], [Call::is_intrinsic] *)
Definition is_extern (ct : CallType) : bool :=
  match ct with Extern | ExternCPlusPlus | PureExtern => true | _ => false end.

Definition is_intrinsic (ct : CallType) : bool :=
  match ct with Intrinsic | PureIntrinsic => true | _ => false end.

(** [Interval] and [Box] of Interval.h and Bounds.h. *)
Record Interval : Type := { i_min : Expr; i_max : Expr }.
Definition Box : Type := list Interval.

(** *** Substitution

    Modelled from the spec: [substitute(name, replacement, expr)] of
    Substitute.h is an external collaborator (section 6, the substitution
    primitive).  Every free occurrence of the variable is replaced; a
    [Let] that binds the same name hides it in its body. *)
Fixpoint substitute (name : string) (replacement : Expr) (e : Expr) : Expr :=
  match e with
  | IntImm _ _ | UIntImm _ _ | FloatImm _ _ => e
  | Cast t v => Cast t (substitute name replacement v)
  | Variable_ _ n _ => if String.eqb n name then replacement else e
  | Binary op a b =>
      Binary op (substitute name replacement a) (substitute name replacement b)
  | Not a => Not (substitute name replacement a)
  | Select c t f =>
      Select (substitute name replacement c) (substitute name replacement t)
             (substitute name replacement f)
  | Let_ n v body =>
      Let_ n (substitute name replacement v)
          (if String.eqb n name then body else substitute name replacement body)
  | Call t n args ct fn vi =>
      Call t n (List.map (substitute name replacement) args) ct fn vi
  end.

(** Simultaneous replacement of variables, used to state what a chain of
    [substitute] calls amounts to. *)
Fixpoint substitute_all (sigma : string -> option Expr) (e : Expr) : Expr :=
  match e with
  | IntImm _ _ | UIntImm _ _ | FloatImm _ _ => e
  | Cast t v => Cast t (substitute_all sigma v)
  | Variable_ _ n _ => match sigma n with Some r => r | None => e end
  | Binary op a b => Binary op (substitute_all sigma a) (substitute_all sigma b)
  | Not a => Not (substitute_all sigma a)
  | Select c t f =>
      Select (substitute_all sigma c) (substitute_all sigma t) (substitute_all sigma f)
  | Let_ n v body =>
      Let_ n (substitute_all sigma v)
          (substitute_all (fun x => if String.eqb n x then None else sigma x) body)
  | Call t n args ct fn vi => Call t n (List.map (substitute_all sigma) args) ct fn vi
  end.

(** The names of the variables that occur free in an expression. *)
Fixpoint free_vars (e : Expr) : list string :=
  match e with
  | IntImm _ _ | UIntImm _ _ | FloatImm _ _ => []
  | Cast _ v => free_vars v
  | Variable_ _ n _ => [n]
  | Binary _ a b => free_vars a ++ free_vars b
  | Not a => free_vars a
  | Select c t f => free_vars c ++ free_vars t ++ free_vars f
  | Let_ n v body =>
      free_vars v ++ List.filter (fun x => negb (String.eqb n x)) (free_vars body)
  | Call _ _ args _ _ _ => List.concat (List.map free_vars args)
  end.

(** The names bound by a [Let] somewhere in an expression. *)
Fixpoint let_names (e : Expr) : list string :=
  match e with
  | IntImm _ _ | UIntImm _ _ | FloatImm _ _ | Variable_ _ _ _ => []
  | Cast _ v => let_names v
  | Binary _ a b => let_names a ++ let_names b
  | Not a => let_names a
  | Select c t f => let_names c ++ let_names t ++ let_names f
  | Let_ n v body => n :: let_names v ++ let_names body
  | Call _ _ args _ _ _ => List.concat (List.map let_names args)
  end.

(** *** Values

    The value of an expression at a point, over the rationals: the rounding
    of floating point numbers, integer overflow and the conversions of
    [Cast] are not modelled.  Booleans are 0 and 1.  Calls are looked up in
    the environment. *)
Record Env : Type := {
  var_value : string -> Q;
  call_value : string -> list Q -> nat -> Q
}.

Definition bind_var (env : Env) (name : string) (q : Q) : Env :=
  {| var_value := fun x => if String.eqb x name then q else var_value env x;
     call_value := call_value env |}.

Definition of_bool (b : bool) : Q := if b then 1%Q else 0%Q.
Definition to_bool (q : Q) : bool := negb (Qeq_bool q 0%Q).

Definition eval_binary (op : BinaryOp) (x y : Q) : Q :=
  match op with
  | Add => (x + y)%Q
  | Sub => (x - y)%Q
  | Mul => (x * y)%Q
  | Div => (x / y)%Q
  | Mod => 0%Q
  | Min => if Qle_bool x y then x else y
  | Max => if Qle_bool y x then x else y
  | EQ => of_bool (Qeq_bool x y)
  | NE => of_bool (negb (Qeq_bool x y))
  | LT => of_bool (negb (Qle_bool y x))
  | LE => of_bool (Qle_bool x y)
  | GT => of_bool (negb (Qle_bool x y))
  | GE => of_bool (Qle_bool y x)
  | And => of_bool (to_bool x && to_bool y)
  | Or => of_bool (to_bool x || to_bool y)
  end.

Fixpoint eval (env : Env) (e : Expr) : Q :=
  match e with
  | IntImm _ v | UIntImm _ v => inject_Z v
  | FloatImm _ q => q
  | Cast _ v => eval env v
  | Variable_ _ n _ => var_value env n
  | Binary op a b => eval_binary op (eval env a) (eval env b)
  | Not a => of_bool (negb (to_bool (eval env a)))
  | Select c t f => if to_bool (eval env c) then eval env t else eval env f
  | Let_ n v body => eval (bind_var env n (eval env v)) body
  | Call _ n args _ _ vi => call_value env n (List.map (eval env) args) vi
  end.

End IR.

(** Induction over expressions with the arguments of a call as a list. *)

Section ExprInduction.
Import IR.
Variable P : Expr -> Prop.
Hypothesis HInt : forall t v, P (IntImm t v).
Hypothesis HUInt : forall t v, P (UIntImm t v).
Hypothesis HFloat : forall t v, P (FloatImm t v).
Hypothesis HCast : forall t v, P v -> P (Cast t v).
Hypothesis HVar : forall t n rd, P (Variable_ t n rd).
Hypothesis HBinary : forall op a b, P a -> P b -> P (Binary op a b).
Hypothesis HNot : forall a, P a -> P (Not a).
Hypothesis HSelect : forall c t f, P c -> P t -> P f -> P (Select c t f).
Hypothesis HLet : forall n v b, P v -> P b -> P (Let_ n v b).
Hypothesis HCall : forall t n args ct fn vi,
  Forall P args -> P (Call t n args ct fn vi).

Fixpoint Expr_nested_ind (e : Expr) : P e :=
  match e with
  | IntImm t v => HInt t v
  | UIntImm t v => HUInt t v
  | FloatImm t v => HFloat t v
  | Cast t v => HCast t v (Expr_nested_ind v)
  | Variable_ t n rd => HVar t n rd
  | Binary op a b => HBinary op a b (Expr_nested_ind a) (Expr_nested_ind b)
  | Not a => HNot a (Expr_nested_ind a)
  | Select c t f =>
      HSelect c t f (Expr_nested_ind c) (Expr_nested_ind t) (Expr_nested_ind f)
  | Let_ n v b => HLet n v b (Expr_nested_ind v) (Expr_nested_ind b)
  | Call t n args ct fn vi =>
      HCall t n args ct fn vi
        ((fix go (l : list Expr) : Forall P l :=
            match l with
            | [] => @List.Forall_nil Expr P
            | x :: r => @List.Forall_cons Expr P x r (Expr_nested_ind x) (go r)
            end) args)
  end.

End ExprInduction.

(** ** Derivative.cpp: the reverse accumulation visitor *)

Module Derivative.
Import IR.

(** [FuncKey] is [std::pair<std::string, int>]; index [-1] is the pure
    definition. *)
Definition FuncKey : Type := (string * Z)%type.

(** An [Expr] value of the C++ code is a pointer to a node: its address
    and the expression that hangs below it. *)
Record ExprRef : Type := { addr : ptr; tree : Expr }.

(** The node a handle points to, as a visitor sees it: its own fields,
    the operands being handles again. *)
Inductive IRNode : Type :=
| NImm (e : Expr)
| NCast (type : Type_) (value : ExprRef)
| NVariable (type : Type_) (name : string)
    (reduction_domain : option ReductionDomain)
| NBinary (op : BinaryOp) (a b : ExprRef)
| NNot (a : ExprRef)
| NSelect (condition true_value false_value : ExprRef)
| NLet (name : string) (value body : ExprRef)
| NCall (type : Type_) (name : string) (args : list ExprRef)
    (call_type : CallType) (func : option ptr) (value_index : nat).

Definition tree_of_node (n : IRNode) : Expr :=
  match n with
  | NImm e => e
  | NCast t v => Cast t (tree v)
  | NVariable t n rd => Variable_ t n rd
  | NBinary op a b => Binary op (tree a) (tree b)
  | NNot a => Not (tree a)
  | NSelect c t f => Select (tree c) (tree t) (tree f)
  | NLet n v b => Let_ n (tree v) (tree b)
  | NCall t n args ct fn vi => Call t n (List.map tree args) ct fn vi
  end.

(** An element of [expr_list]. *)
Record Node : Type := { n_addr : ptr; n_node : IRNode }.

Definition handle_of (n : Node) : ExprRef :=
  {| addr := n_addr n; tree := tree_of_node (n_node n) |}.

(** What the pass reads of a [Func]: the pure definition and the update
    definitions in order. *)
Record UpdateDefinition : Type := {
  u_args : list Expr;
  u_values : list ExprRef;
  u_rvars : list ReductionVariable
}.

Record Func : Type := {
  f_contents : ptr;
  f_name : string;
  f_args : list string;
  f_values : list Expr;
  f_updates : list UpdateDefinition
}.

Definition num_update_definitions (f : Func) : nat := length (f_updates f).

(** The fields of [ReverseAccumulationVisitor] that the expression-level
    visit and the forward overwrite detection read and write. *)
Record visitor : Type := {
  expr_adjoints : gmap ptr Expr;
  let_var_mapping : gmap string ExprRef;
  let_variables : list string;
  current_func : ptr;
  is_forward_overwrite_detection_phase : bool;
  self_reference_adjoint : list Expr;
  self_reference_args : list (list Expr)
}.

Definition set_expr_adjoints (v : visitor) (ea : gmap ptr Expr) : visitor :=
  {| expr_adjoints := ea;
     let_var_mapping := let_var_mapping v;
     let_variables := let_variables v;
     current_func := current_func v;
     is_forward_overwrite_detection_phase := is_forward_overwrite_detection_phase v;
     self_reference_adjoint := self_reference_adjoint v;
     self_reference_args := self_reference_args v |}.

Definition set_self_reference (v : visitor) (adj : list Expr)
    (args : list (list Expr)) : visitor :=
  {| expr_adjoints := expr_adjoints v;
     let_var_mapping := let_var_mapping v;
     let_variables := let_variables v;
     current_func := current_func v;
     is_forward_overwrite_detection_phase := is_forward_overwrite_detection_phase v;
     self_reference_adjoint := adj;
     self_reference_args := args |}.

Definition set_lets (v : visitor) (m : gmap string ExprRef) (l : list string) : visitor :=
  {| expr_adjoints := expr_adjoints v;
     let_var_mapping := m;
     let_variables := l;
     current_func := current_func v;
     is_forward_overwrite_detection_phase := is_forward_overwrite_detection_phase v;
     self_reference_adjoint := self_reference_adjoint v;
     self_reference_args := self_reference_args v |}.

Definition set_current_func (v : visitor) (f : ptr) : visitor :=
  {| expr_adjoints := expr_adjoints v;
     let_var_mapping := let_var_mapping v;
     let_variables := let_variables v;
     current_func := f;
     is_forward_overwrite_detection_phase := is_forward_overwrite_detection_phase v;
     self_reference_adjoint := self_reference_adjoint v;
     self_reference_args := self_reference_args v |}.

Definition set_detection_phase (v : visitor) (b : bool) : visitor :=
  {| expr_adjoints := expr_adjoints v;
     let_var_mapping := let_var_mapping v;
     let_variables := let_variables v;
     current_func := current_func v;
     is_forward_overwrite_detection_phase := b;
     self_reference_adjoint := self_reference_adjoint v;
     self_reference_args := self_reference_args v |}.

(** A freshly constructed visitor. *)
Definition visitor_new : visitor :=
  {| expr_adjoints := ∅;
     let_var_mapping := ∅;
     let_variables := [];
     current_func := 1%positive;
     is_forward_overwrite_detection_phase := false;
     self_reference_adjoint := [];
     self_reference_args := [] |}.

(** [Scope<Interval>] and the value-initialised [Interval]. *)
Definition Interval_everything : Interval :=
  {| i_min := Variable_ Handle "neg_inf" None;
     i_max := Variable_ Handle "pos_inf" None |}.

(** [ReductionVariableInfo] of DerivativeUtils.h: what [gather_rvariables]
    records of a reduction variable met in an expression. *)
Record ReductionVariableInfo : Type := {
  info_min : Expr;
  info_extent : Expr;
  info_index : nat;
  info_domain : ReductionDomain;
  info_name : string
}.

(** The collaborators of the pass that live in other files of the
    library or in the C++ runtime: the simplifier and prover, the helpers of
    DerivativeUtils.h, the bounds machinery, the inherited handlers of
    [IRVisitor], the dereference of a node address, [std::sort], the
    topological order of the functions ([find_transitive_calls] and
    [realization_order]), and the two parts of the pass that are not
    modelled: the scattering of the [Call] handler to another function
    outside the detection phase, and everything that follows the detection
    phase in [ReverseAccumulationVisitor::propagate_adjoints]. *)
Class Externals : Type := {
  simplify : Expr -> Expr;
  can_prove : Expr -> bool;
  is_const : Expr -> Z -> bool;
  extract_rdom : Expr -> option ReductionDomain;
  and_condition_over_domain : Expr -> ScopeH.Scope Interval -> Expr;
  is_calling_function_named : string -> Expr -> gmap string ExprRef -> bool;
  is_calling_function : Expr -> gmap string ExprRef -> bool;
  boxes_overlap : Box -> Box -> bool;
  bounds_of_expr_in_scope : Expr -> ScopeH.Scope Interval -> Interval;
  sort_expressions : ExprRef -> list Node;
  add_let_expression : Expr -> gmap string ExprRef -> list string -> Expr;
  math : string -> list Expr -> Expr;
  deref : ptr -> Expr;
  IRVisitor_visit : Node -> visitor -> result visitor;
  scatter_to_func : Node -> Expr -> visitor -> result visitor;
  substitute_in_all_lets : Expr -> Expr;
  substitute_expr : Expr -> Expr -> Expr -> Expr;
  split_predicate : ReductionDomain -> list Expr;
  equal : Expr -> Expr -> bool;
  std_sort : forall A : Type, (A -> A -> bool) -> list A -> list A;
  gather_rvariables : Expr -> gmap string ReductionVariableInfo;
  realization_order : Func -> list Func;
  reverse_accumulation :
    Func -> Func -> list (Expr * Expr) -> list Func -> gset FuncKey ->
    visitor -> result (gmap FuncKey Func)
}.

Section Visit.
Context `{Ext : Externals}.

(** [accumulate(stub, adjoint)] on the adjoint map. *)
Definition accumulate_map (stub : ExprRef) (adjoint : Expr)
    (ea : gmap ptr Expr) : gmap ptr Expr :=
  match ea !! addr stub with
  | None => <[addr stub := adjoint]> ea
  | Some old => <[addr stub := plus_assign old adjoint]> ea
  end.

Definition accumulate (stub : ExprRef) (adjoint : Expr) (v : visitor) : visitor :=
  set_expr_adjoints v (accumulate_map stub adjoint (expr_adjoints v)).

(** A run of [accumulate] calls, in order, and the contributions among
    them that go to the node at address [p]. *)
Definition accumulate_all (pushes : list (ExprRef * Expr))
    (ea : gmap ptr Expr) : gmap ptr Expr :=
  fold_left (fun ea c => accumulate_map c.1 c.2 ea) pushes ea.

Definition contributions_to (p : ptr) (pushes : list (ExprRef * Expr)) : list Expr :=
  List.map snd (List.filter (fun c => Pos.eqb (addr c.1) p) pushes).

(** The sum, by [+=] from left to right, of contributions onto an entry
    that may not exist yet. *)
Definition sum_onto (entry : option Expr) (cs : list Expr) : option Expr :=
  match entry, cs with
  | Some e, _ => Some (fold_left plus_assign cs e)
  | None, [] => None
  | None, c :: cs' => Some (fold_left plus_assign cs' c)
  end.

(** The value, at a point, of an entry and of the contributions added to
    it. *)
Definition sum_values (env : Env) (entry : option Expr) (cs : list Expr) : Q :=
  fold_left Qplus (List.map (eval env) cs)
    (match entry with Some e => eval env e | None => 0%Q end).

(** [assert(expr_adjoints.find(op) != expr_adjoints.end());
     Expr adjoint = expr_adjoints[op];] *)
Definition adjoint_of (p : ptr) (v : visitor) : result Expr :=
  match expr_adjoints v !! p with
  | Some adjoint => ok adjoint
  | None => fail AssertFailed
  end.

Definition visit_Cast (type : Type_) (value : ExprRef) (adjoint : Expr)
    (v : visitor) : visitor :=
  if is_float type
  then accumulate value (cast (type_of (tree value)) adjoint) v
  else accumulate value (make_const (type_of (tree value)) 0%Q) v.

Definition visit_Variable (name : string) (adjoint : Expr) (v : visitor) : visitor :=
  match let_var_mapping v !! name with
  | Some value => accumulate value (Let_ name (tree value) adjoint) v
  | None => v
  end.

Definition visit_Add (a b : ExprRef) (adjoint : Expr) (v : visitor) : visitor :=
  accumulate b adjoint (accumulate a adjoint v).

Definition visit_Sub (a b : ExprRef) (adjoint : Expr) (v : visitor) : visitor :=
  accumulate b (neg adjoint) (accumulate a adjoint v).

Definition visit_Mul (a b : ExprRef) (adjoint : Expr) (v : visitor) : visitor :=
  accumulate b (Binary Mul adjoint (tree a))
    (accumulate a (Binary Mul adjoint (tree b)) v).

Definition visit_Div (a b : ExprRef) (adjoint : Expr) (v : visitor) : visitor :=
  accumulate b
    (Binary Div (Binary Mul (neg adjoint) (tree a))
                (Binary Mul (tree b) (tree b)))
    (accumulate a (Binary Div adjoint (tree b)) v).

(** The two contributions of a [Min] node, to [a] and to [b]. *)
Definition Min_adjoint_a (a b adjoint : Expr) : Expr :=
  select (Binary LE a b) adjoint (make_const (type_of adjoint) 0%Q).
Definition Min_adjoint_b (a b adjoint : Expr) : Expr :=
  select (Binary LE b a) adjoint (make_const (type_of adjoint) 0%Q).

Definition visit_Min (a b : ExprRef) (adjoint : Expr) (v : visitor) : visitor :=
  accumulate b (Min_adjoint_b (tree a) (tree b) adjoint)
    (accumulate a (Min_adjoint_a (tree a) (tree b) adjoint) v).

Definition Max_adjoint_a (a b adjoint : Expr) : Expr :=
  select (Binary GE a b) adjoint (make_const (type_of adjoint) 0%Q).
Definition Max_adjoint_b (a b adjoint : Expr) : Expr :=
  select (Binary GE b a) adjoint (make_const (type_of adjoint) 0%Q).

Definition visit_Max (a b : ExprRef) (adjoint : Expr) (v : visitor) : visitor :=
  accumulate b (Max_adjoint_b (tree a) (tree b) adjoint)
    (accumulate a (Max_adjoint_a (tree a) (tree b) adjoint) v).

Definition visit_Let (body : ExprRef) (adjoint : Expr) (v : visitor) : visitor :=
  accumulate body adjoint v.

Definition visit_Select (condition true_value false_value : ExprRef)
    (adjoint : Expr) (v : visitor) : visitor :=
  accumulate false_value
    (select (tree condition) (make_const (type_of adjoint) 0%Q) adjoint)
    (accumulate true_value
       (select (tree condition) adjoint (make_const (type_of adjoint) 0%Q)) v).

(** [is_float_extern(op_name, func_name)] *)
Definition is_float_extern (op_name func_name : string) : bool :=
  String.eqb op_name (func_name +:+ "_f16") ||
  String.eqb op_name (func_name +:+ "_f32") ||
  String.eqb op_name (func_name +:+ "_f64").

(** [op->args[i]] *)
Definition arg (args : list ExprRef) (i : nat) : result ExprRef :=
  match args !! i with
  | Some a => ok a
  | None => fail InternalAssert
  end.

Definition not_implemented (name : string) : error :=
  InternalError ("The derivative of " +:+ name +:+ " is not implemented.").

(** The extern branch of the [Call] handler: the table of math
    functions. *)
Definition visit_Call_extern (type : Type_) (name : string)
    (args : list ExprRef) (adjoint : Expr) (v : visitor) : result visitor :=
  let one := make_const type 1%Q in
  let zero := make_const type 0%Q in
  let ext (f : string) := is_float_extern name f in
  let unary (d : Expr -> Expr) : result visitor :=
    let* a0 := arg args 0 in ok (accumulate a0 (d (tree a0)) v) in
  let sq (x : Expr) := Binary Mul x x in
  if ext "exp" then
    unary (fun x => Binary Mul adjoint (math "exp" [x]))
  else if ext "log" then
    unary (fun x => Binary Div adjoint x)
  else if ext "sin" then
    unary (fun x => Binary Mul adjoint (math "cos" [x]))
  else if ext "asin" then
    unary (fun x => Binary Div adjoint (math "sqrt" [Binary Sub one (sq x)]))
  else if ext "cos" then
    unary (fun x => Binary Mul (neg adjoint) (math "sin" [x]))
  else if ext "acos" then
    unary (fun x => Binary Div (neg adjoint) (math "sqrt" [Binary Sub one (sq x)]))
  else if ext "tan" then
    unary (fun x => Binary Div adjoint (sq (math "cos" [x])))
  else if ext "atan" then
    unary (fun x => Binary Div adjoint (Binary Add one (sq x)))
  else if ext "atan2" then
    let* a0 := arg args 0 in
    let* a1 := arg args 1 in
    let x2y2 := Binary Add (sq (tree a0)) (sq (tree a1)) in
    ok (accumulate a1 (Binary Div (Binary Mul (neg adjoint) (tree a0)) x2y2)
          (accumulate a0 (Binary Div (Binary Mul adjoint (tree a1)) x2y2) v))
  else if ext "sinh" then
    unary (fun x => Binary Mul adjoint (math "cosh" [x]))
  else if ext "asinh" then
    unary (fun x => Binary Div adjoint (math "sqrt" [Binary Add one (sq x)]))
  else if ext "cosh" then
    unary (fun x => Binary Mul adjoint (math "sinh" [x]))
  else if ext "acosh" then
    unary (fun x =>
      Binary Div adjoint
        (Binary Mul (math "sqrt" [Binary Sub x one]) (math "sqrt" [Binary Add x one])))
  else if ext "tanh" then
    unary (fun x => Binary Div adjoint (sq (math "cosh" [x])))
  else if ext "atanh" then
    unary (fun x => Binary Div adjoint (Binary Sub one (sq x)))
  else if ext "ceil" then unary (fun _ => zero)
  else if ext "floor" then unary (fun _ => zero)
  else if ext "round" then unary (fun _ => zero)
  else if ext "trunc" then unary (fun _ => zero)
  else if ext "sqrt" then
    let half := make_const type (1 # 2)%Q in
    unary (fun x => Binary Div (Binary Mul adjoint half) (math "sqrt" [x]))
  else if ext "pow" then
    let* a0 := arg args 0 in
    let* a1 := arg args 1 in
    ok (accumulate a1
          (Binary Mul (Binary Mul adjoint (math "pow" [tree a0; tree a1]))
                      (math "log" [tree a0]))
          (accumulate a0
             (Binary Mul (Binary Mul adjoint (tree a1))
                         (math "pow" [tree a0; Binary Sub (tree a1) one])) v))
  else if ext "fast_inverse" then
    unary (fun x =>
      let inv_x := math "fast_inverse" [x] in
      Binary Mul (Binary Mul (neg adjoint) inv_x) inv_x)
  else if ext "fast_inverse_sqrt" then
    unary (fun x =>
      let inv_sqrt_x := math "fast_inverse_sqrt" [x] in
      let neg_half := make_const type (- 1 # 2)%Q in
      Binary Mul (Binary Mul (Binary Mul (Binary Mul neg_half adjoint) inv_sqrt_x)
                             inv_sqrt_x) inv_sqrt_x)
  else if String.eqb name "halide_print" then unary (fun _ => zero)
  else fail (not_implemented name).

(** The names of the intrinsics the handler knows ([Call::abs], ...). *)
Definition Call_abs : string := "abs".
Definition Call_lerp : string := "lerp".
Definition Call_likely : string := "likely".
Definition Call_return_second : string := "return_second".
Definition Call_undef : string := "undef".

(** The intrinsic branch of the [Call] handler. *)
Definition visit_Call_intrinsic (type : Type_) (name : string)
    (args : list ExprRef) (adjoint : Expr) (v : visitor) : result visitor :=
  if String.eqb name Call_abs then
    let* a0 := arg args 0 in
    ok (accumulate a0
          (Binary Mul adjoint
             (select (Binary GT (tree a0) (make_const (type_of (tree a0)) 0%Q))
                     (make_const type 1%Q) (make_const type (-1)%Q))) v)
  else if String.eqb name Call_lerp then
    let* a0 := arg args 0 in
    let* a1 := arg args 1 in
    let* a2 := arg args 2 in
    ok (accumulate a2 (Binary Mul adjoint (Binary Sub (tree a1) (tree a0)))
          (accumulate a1 (Binary Mul adjoint (tree a2))
             (accumulate a0
                (Binary Mul adjoint (Binary Sub (make_const type 1%Q) (tree a2))) v)))
  else if String.eqb name Call_likely then
    let* a0 := arg args 0 in ok (accumulate a0 adjoint v)
  else if String.eqb name Call_return_second then
    let* a0 := arg args 0 in
    let* a1 := arg args 1 in
    ok (accumulate a1 adjoint (accumulate a0 (make_const type 0%Q) v))
  else if String.eqb name Call_undef then ok v
  else
    ok (fold_left (fun v a => accumulate a (make_const type 0%Q) v) args v).

(** [self_reference_adjoint[i] = e] on the tuple. *)
Definition tuple_set (t : list Expr) (i : nat) (e : Expr) : result (list Expr) :=
  if decide (i < length t)%nat then ok (<[i := e]> t) else fail InternalAssert.

Definition tuple_get (t : list Expr) (i : nat) : result Expr :=
  match t !! i with
  | Some e => ok e
  | None => fail InternalAssert
  end.

(** The branch for calls to a Halide function or an image while
    [is_forward_overwrite_detection_phase] holds: nothing is propagated;
    a call of the current function to itself adds to the self-reference
    adjoint and records its arguments. *)
Definition visit_Call_detect (args : list ExprRef) (func : option ptr)
    (value_index : nat) (adjoint : Expr) (v : visitor) : result visitor :=
  let adjoint := add_let_expression adjoint (let_var_mapping v) (let_variables v) in
  if bool_decide (func = Some (current_func v)) then
    let* old := tuple_get (self_reference_adjoint v) value_index in
    let* t := tuple_set (self_reference_adjoint v) value_index
                (simplify (Binary Add old adjoint)) in
    let args' :=
      List.map (fun a => add_let_expression (tree a) (let_var_mapping v)
                           (let_variables v)) args in
    ok (set_self_reference v t (self_reference_args v ++ [args']))
  else ok v.

Definition unknown_call_type (name : string) : error :=
  InternalError ("Unknown call type of operation: " +:+ name).

Definition visit_Call (n : Node) (type : Type_) (name : string)
    (args : list ExprRef) (call_type : CallType) (func : option ptr)
    (value_index : nat) (adjoint : Expr) (v : visitor) : result visitor :=
  if is_extern call_type then visit_Call_extern type name args adjoint v
  else if is_intrinsic call_type then visit_Call_intrinsic type name args adjoint v
  else
    match call_type with
    | Halide | Image =>
        if is_forward_overwrite_detection_phase v
        then visit_Call_detect args func value_index adjoint v
        else scatter_to_func n adjoint v
    | _ => fail (unknown_call_type name)
    end.

(** [e.accept(this)]: the handler of the node's type.  Constants have no
    operands; the node types the class does not override go to the
    handler inherited from [IRVisitor]. *)
Definition visit (n : Node) (v : visitor) : result visitor :=
  match n_node n with
  | NImm _ => ok v
  | NCast type value =>
      let* adjoint := adjoint_of (n_addr n) v in
      ok (visit_Cast type value adjoint v)
  | NVariable _ name _ =>
      let* adjoint := adjoint_of (n_addr n) v in
      ok (visit_Variable name adjoint v)
  | NBinary op a b =>
      match op with
      | Add => let* adjoint := adjoint_of (n_addr n) v in ok (visit_Add a b adjoint v)
      | Sub => let* adjoint := adjoint_of (n_addr n) v in ok (visit_Sub a b adjoint v)
      | Mul => let* adjoint := adjoint_of (n_addr n) v in ok (visit_Mul a b adjoint v)
      | Div => let* adjoint := adjoint_of (n_addr n) v in ok (visit_Div a b adjoint v)
      | Min => let* adjoint := adjoint_of (n_addr n) v in ok (visit_Min a b adjoint v)
      | Max => let* adjoint := adjoint_of (n_addr n) v in ok (visit_Max a b adjoint v)
      | _ => IRVisitor_visit n v
      end
  | NNot _ => IRVisitor_visit n v
  | NSelect c t f =>
      let* adjoint := adjoint_of (n_addr n) v in
      ok (visit_Select c t f adjoint v)
  | NLet _ _ body =>
      let* adjoint := adjoint_of (n_addr n) v in
      ok (visit_Let body adjoint v)
  | NCall type name args call_type func value_index =>
      let* adjoint := adjoint_of (n_addr n) v in
      visit_Call n type name args call_type func value_index adjoint v
  end.

(** [for (it = expr_list.rbegin(); it != expr_list.rend(); it++)
       it->accept(this);] *)
Fixpoint accept_all (l : list Node) (v : visitor) : result visitor :=
  match l with
  | [] => ok v
  | n :: l' => let* v' := visit n v in accept_all l' v'
  end.

Definition traverse (expr_list : list Node) (v : visitor) : result visitor :=
  accept_all (rev expr_list) v.

(** The addresses of the nodes a node consumes: its operands, and for a
    variable bound by a [Let] the value of the binding. *)
Definition operands (lets : gmap string ExprRef) (n : IRNode) : list ptr :=
  match n with
  | NImm _ => []
  | NCast _ value => [addr value]
  | NVariable _ name _ =>
      match lets !! name with
      | Some value => [addr value]
      | None => []
      end
  | NBinary _ a b => [addr a; addr b]
  | NNot a => [addr a]
  | NSelect c t f => [addr c; addr t; addr f]
  | NLet _ value body => [addr value; addr body]
  | NCall _ _ args _ _ _ => List.map addr args
  end.

(** The nodes that are handled by the code of Derivative.cpp modelled
    here when the visitor is in state [v]: not by a handler inherited from
    [IRVisitor] and not by the scattering to another function. *)
Definition own_handler (v : visitor) (n : Node) : bool :=
  match n_node n with
  | NBinary op _ _ =>
      match op with
      | Add | Sub | Mul | Div | Min | Max => true
      | _ => false
      end
  | NNot _ => false
  | NCall _ _ _ call_type _ _ =>
      is_extern call_type || is_intrinsic call_type ||
      is_forward_overwrite_detection_phase v
  | _ => true
  end.

End Visit.

Section ForwardOverwriteDetection.
Context `{Ext : Externals}.

(** The left-hand-side box of one update: every argument is bounded in a
    fresh [Scope<Interval>] that binds the variables of the argument's
    reduction domain. *)
Definition rvar_interval (r : ReductionVariable) : Interval :=
  {| i_min := min r;
     i_max := simplify (Binary Add (Binary Add (min r) (extent r))
                                   (IntImm (Int 32) 1)) |}.

Definition arg_scope (a : Expr) : ScopeH.Scope Interval :=
  match extract_rdom a with
  | Some rdom =>
      fold_left
        (fun scope r =>
           ScopeH.push Interval Interval_everything scope (var r) (rvar_interval r))
        (domain rdom) (ScopeH.Scope_new Interval)
  | None => ScopeH.Scope_new Interval
  end.

Definition update_box (upd : UpdateDefinition) : Box :=
  List.map (fun a => bounds_of_expr_in_scope a (arg_scope a)) (u_args upd).

Definition compute_boxes (func : Func) : list Box :=
  List.map update_box (f_updates func).

(** [expr_list] and [output_exprs]: the sorted expressions of every value
    of the tuple, one after the other, and after each the address of
    [expr_list.back()]. *)
Fixpoint gather_expr_list (values : list ExprRef) (expr_list : list Node)
    (output_exprs : list ptr) : result (list Node * list ptr) :=
  match values with
  | [] => ok (expr_list, output_exprs)
  | expr :: values' =>
      let expr_list' := expr_list ++ sort_expressions expr in
      match List.last (List.map Some expr_list') None with
      | Some back =>
          gather_expr_list values' expr_list' (output_exprs ++ [n_addr back])
      | None => fail AssertFailed
      end
  end.

(** Gather the let variables of [expr_list]; they are assumed unique. *)
Fixpoint gather_lets (expr_list : list Node) (m : gmap string ExprRef)
    (l : list string) : result (gmap string ExprRef * list string) :=
  match expr_list with
  | [] => ok (m, l)
  | n :: rest =>
      match n_node n with
      | NLet name value _ =>
          match m !! name with
          | Some _ => fail AssertFailed
          | None => gather_lets rest (<[name := value]> m) (l ++ [name])
          end
      | _ => gather_lets rest m l
      end
  end.

(** [expr_adjoints[output_exprs[i]] = 1.f] *)
Definition seed_outputs (output_exprs : list ptr) (ea : gmap ptr Expr) : gmap ptr Expr :=
  fold_left (fun ea p => <[p := FloatImm (Float 32) 1%Q]> ea) output_exprs ea.

(** The [error] lambda. *)
Definition unsafe_overwrite (func : Func) : error :=
  UserError ("Can't take the gradients of " +:+ f_name func +:+
             ", which depend on intermediate values. " +:+
             "Use a scan (which saves intermediate results) instead.").

Definition is_target_func_or_buffer (target_expr : Expr) : bool :=
  match target_expr with
  | Call _ _ _ call_type _ _ =>
      match call_type with Image | Halide => true | _ => false end
  | _ => false
  end.

Definition call_name (e : Expr) : string :=
  match e with Call _ name _ _ _ _ => name | _ => "" end.

(** The loop over the previous updates: an overlap of the boxes is an
    error. *)
Fixpoint check_previous_boxes (func : Func) (current_box : Box)
    (prev_boxes : list Box) : result unit :=
  match prev_boxes with
  | [] => ok tt
  | prev_box :: rest =>
      if negb (Nat.eqb (length current_box) (length prev_box)) then fail InternalAssert
      else if boxes_overlap current_box prev_box then fail (unsafe_overwrite func)
      else check_previous_boxes func current_box rest
  end.

Fixpoint check_pure_definition (func : Func) (rhs_tuple : list Expr)
    (lets : gmap string ExprRef) : result unit :=
  match rhs_tuple with
  | [] => ok tt
  | rhs :: rest =>
      if is_calling_function rhs lets then fail (unsafe_overwrite func)
      else check_pure_definition func rest lets
  end.

(** The adjoint of the entry deposits to a function or an image and it
    calls the current function. *)
Definition self_referencing_entry (func : Func) (lets : gmap string ExprRef)
    (entry : ptr * Expr) : bool :=
  is_target_func_or_buffer (deref entry.1) &&
  is_calling_function_named (f_name func) entry.2 lets.

Definition used_by_others_entry (func : Func) (entry : ptr * Expr) : bool :=
  is_target_func_or_buffer (deref entry.1) &&
  negb (String.eqb (call_name (deref entry.1)) (f_name func)).

(** One iteration of the loop over [expr_adjoints]. *)
Definition check_entry (func : Func) (boxes : list Box) (update_id : nat)
    (lets : gmap string ExprRef) (entry : ptr * Expr) : result bool :=
  let* _ :=
    if self_referencing_entry func lets entry then
      let* _ := check_pure_definition func (f_values func) lets in
      match boxes !! update_id with
      | Some current_box =>
          check_previous_boxes func current_box (take update_id boxes)
      | None => fail InternalAssert
      end
    else ok tt in
  ok (used_by_others_entry func entry).

Fixpoint check_entries (func : Func) (boxes : list Box) (update_id : nat)
    (lets : gmap string ExprRef) (entries : list (ptr * Expr))
    (adjoints_used_by_others : bool) : result bool :=
  match entries with
  | [] => ok adjoints_used_by_others
  | entry :: rest =>
      let* used := check_entry func boxes update_id lets entry in
      check_entries func boxes update_id lets rest
        (if used then true else adjoints_used_by_others)
  end.

(** A [std::map] keyed by node address is walked in the order of the
    addresses. *)
Definition entry_le (x y : ptr * Expr) : Prop := (x.1 <= y.1)%positive.

#[local] Instance entry_le_dec : RelDecision entry_le.
Proof. intros x y. unfold entry_le. apply _. Defined.

Definition entries_in_order (ea : gmap ptr Expr) : list (ptr * Expr) :=
  merge_sort entry_le (map_to_list ea).

(** Checking 1. *)
Definition check_uses_of_overwritten (func : Func) (boxes : list Box)
    (update_id : nat) (v : visitor) : result bool :=
  check_entries func boxes update_id (let_var_mapping v)
    (entries_in_order (expr_adjoints v)) false.

(** Checking 2. *)
Definition all_zero_or_one_self_adjoint (v : visitor) : bool :=
  forallb (fun e => is_const e 0 || is_const e 1) (self_reference_adjoint v).

Definition has_reduction_var (upd : UpdateDefinition) : bool :=
  negb (Nat.eqb (length (u_rvars upd)) 0).

(** The first defined reduction domain among the expressions. *)
Definition first_rdom (es : list Expr) : option ReductionDomain :=
  List.fold_left
    (fun r e => match r with Some _ => r | None => extract_rdom e end) es None.

(** [not_overwriting_cond] for one recorded self-reference: some argument
    differs between the read and the write. *)
Fixpoint not_overwriting_cond (self_ref_args update_args : list Expr)
    (cond : Expr) : Expr :=
  match self_ref_args, update_args with
  | s :: ss, u :: us =>
      not_overwriting_cond ss us (simplify (Binary Or cond (Binary NE s u)))
  | _, _ => cond
  end.

Fixpoint is_not_overwriting_loop (all_self_reference_args : list (list Expr))
    (update_args : list Expr) (varying : ScopeH.Scope Interval)
    (is_not_overwriting : bool) : result bool :=
  match all_self_reference_args with
  | [] => ok is_not_overwriting
  | self_ref_args :: rest =>
      if negb (Nat.eqb (length self_ref_args) (length update_args))
      then fail InternalAssert
      else
        let cond :=
          and_condition_over_domain
            (not_overwriting_cond self_ref_args update_args const_false) varying in
        is_not_overwriting_loop rest update_args varying
          (is_not_overwriting && can_prove cond)
  end.

Definition is_not_overwriting (upd : UpdateDefinition) (v : visitor) : result bool :=
  let varying := ScopeH.Scope_new Interval in
  let r :=
    match first_rdom (u_args upd) with
    | Some r => Some r
    | None => first_rdom (List.map tree (u_values upd))
    end in
  match r with
  | None => fail InternalAssert
  | Some _ =>
      is_not_overwriting_loop (self_reference_args v) (u_args upd) varying true
  end.

(** The result of checking 2: whether the update is recorded as a non
    overwriting scan. *)
Definition check_self_reference (func : Func) (upd : UpdateDefinition)
    (adjoints_used_by_others : bool) (v : visitor) : result bool :=
  if negb (all_zero_or_one_self_adjoint v) && has_reduction_var upd then
    let* not_overwriting := is_not_overwriting upd v in
    if negb not_overwriting && adjoints_used_by_others
    then fail (unsafe_overwrite func)
    else ok not_overwriting
  else ok false.

(** The expression-level derivative of one update in the detection phase,
    up to the end of the reverse traversal. *)
Definition differentiate_update (func : Func) (upd : UpdateDefinition)
    (v : visitor) : result visitor :=
  let zeros := List.map (fun e => make_const (type_of e) 0%Q) (f_values func) in
  let v := set_self_reference v zeros [] in
  let* pr := gather_expr_list (u_values upd) [] [] in
let '(expr_list, output_exprs) := pr in
  let* pr := gather_lets expr_list ∅ [] in
let '(m, l) := pr in
  let v := set_lets v m l in
  let v := set_expr_adjoints v (seed_outputs output_exprs (expr_adjoints v)) in
  traverse expr_list v.

(** The body of the loop over the updates of one function. *)
Definition detect_update (func : Func) (boxes : list Box) (update_id : nat)
    (upd : UpdateDefinition) (v : visitor) : result (visitor * bool) :=
  let* v1 := differentiate_update func upd v in
  let* adjoints_used_by_others := check_uses_of_overwritten func boxes update_id v1 in
  let v2 := set_expr_adjoints v1 ∅ in
  let* scan := check_self_reference func upd adjoints_used_by_others v2 in
  ok (v2, scan).

Definition insert_scan (func : Func) (update_id : nat) (scan : bool)
    (non_overwriting_scans : gset FuncKey) : gset FuncKey :=
  if scan then {[ (f_name func, Z.of_nat update_id) ]} ∪ non_overwriting_scans
  else non_overwriting_scans.

Fixpoint detect_updates (func : Func) (boxes : list Box) (update_id : nat)
    (upds : list UpdateDefinition) (v : visitor)
    (non_overwriting_scans : gset FuncKey) : result (visitor * gset FuncKey) :=
  match upds with
  | [] => ok (v, non_overwriting_scans)
  | upd :: rest =>
      let* pr := detect_update func boxes update_id upd v in
let '(v', scan) := pr in
      detect_updates func boxes (S update_id) rest v'
        (insert_scan func update_id scan non_overwriting_scans)
  end.

Definition detect_func (func : Func) (v : visitor)
    (non_overwriting_scans : gset FuncKey) : result (visitor * gset FuncKey) :=
  let v := set_current_func v (f_contents func) in
  detect_updates func (compute_boxes func) 0 (f_updates func) v non_overwriting_scans.

Fixpoint detect_funcs (funcs : list Func) (v : visitor)
    (non_overwriting_scans : gset FuncKey) : result (visitor * gset FuncKey) :=
  match funcs with
  | [] => ok (v, non_overwriting_scans)
  | func :: rest =>
      let* pr := detect_func func v non_overwriting_scans in
let '(v', scans) := pr in
      detect_funcs rest v' scans
  end.

(** The forward overwrite detection phase of
    [ReverseAccumulationVisitor::propagate_adjoints], over the functions
    in realization order. *)
Definition forward_overwrite_detection (funcs : list Func) (v : visitor)
    : result (visitor * gset FuncKey) :=
  if Nat.eqb (length funcs) 0 then fail InternalAssert
  else
    let v := set_detection_phase v true in
    let* pr := detect_funcs funcs v ∅ in
let '(v', scans) := pr in
    ok (set_detection_phase v' false, scans).

End ForwardOverwriteDetection.

Section ScatterCanonicalization.
Context `{Ext : Externals}.

(** A [Var] used as an expression. *)
Definition Var_expr (name : string) : Expr := Variable_ (Int 32) name None.

(** [rdom.domain()[rvar_id]] for the first [rvar_id] whose variable has the
    name; [assert(rvar_id != -1)]. *)
Definition find_rvar (name : string) (rdom : ReductionDomain)
    : result ReductionVariable :=
  match List.find (fun rv => String.eqb (var rv) name) (domain rdom) with
  | Some rvar => ok rvar
  | None => fail AssertFailed
  end.

Definition vector_at {A : Type} (l : list A) (i : nat) : result A :=
  match l !! i with
  | Some a => ok a
  | None => fail InternalAssert
  end.

(** *** General scattering simplification rules

    The rule [f(r.x) = g(r.x) => f(x) = g(x)], for the coordinate [i] of
    the left-hand side that is the reduction variable [name] of [rdom]. *)
Definition collapse_spanning_rvar (func_bounds : gmap string Box) (op_name : string)
    (func_to_update_args : list string) (i : nat) (name : string)
    (rdom : ReductionDomain) (lhs : list Expr) (adjoint : Expr)
    : result (list Expr * Expr) :=
  let* rvar := find_rvar name rdom in
  let target_bounds := default [] (func_bounds !! op_name) in
  let* t_interval := vector_at target_bounds i in
  let t_min := simplify (i_min t_interval) in
  let t_max := simplify (i_max t_interval) in
  let r_min := simplify (min rvar) in
  let r_max :=
    simplify (Binary Sub (Binary Add (min rvar) (extent rvar)) (IntImm (Int 32) 1)) in
  if can_prove (Binary And (Binary LE r_min t_min) (Binary GE r_max t_max)) && false
  then
    let* arg_i := vector_at func_to_update_args i in
    let lhs' :=
      imap (fun j lhs_j =>
              if Nat.eqb j i then Var_expr arg_i
              else simplify (substitute (var rvar) (Var_expr arg_i) lhs_j)) lhs in
    ok (lhs', simplify (substitute (var rvar) (Var_expr arg_i) adjoint))
  else ok (lhs, adjoint).

(** The rule [f(4 * r.x + r.y) = g(r.x) + h(4 * r.x + r.y)
    => f(x) = g(x/4) + h(x)], for the coordinate [i] whose expression
    [lhs_arg] is the sum of [add_a] and [add_b]. *)
Definition collapse_downsampling (func_to_update_args : list string) (i : nat)
    (lhs_arg add_a add_b : Expr) (lhs : list Expr) (adjoint : Expr)
    : result (list Expr * Expr) :=
  let '(a, b) :=
    match add_b with
    | Binary Mul _ _ => (add_b, add_a)
    | _ => (add_a, add_b)
    end in
  match a, b with
  | Binary Mul mul_a0 mul_b0, Variable_ _ b_name b_reduction_domain =>
      let '(mul_a, mul_b) :=
        match mul_a0 with
        | Variable_ _ _ (Some _) => (mul_b0, mul_a0)
        | _ => (mul_a0, mul_b0)
        end in
      match mul_b with
      | Variable_ _ _ (Some _) =>
          match b_reduction_domain with
          | None => ok (lhs, adjoint)
          | Some b_rdom =>
              let* rvar := find_rvar b_name b_rdom in
              if negb (equal (min rvar) (IntImm (Int 32) 0)) ||
                 negb (equal (extent rvar) mul_a)
              then ok (lhs, adjoint)
              else
                let* arg_i := vector_at func_to_update_args i in
                let adjoint1 :=
                  substitute_expr lhs_arg (Var_expr arg_i)
                    (substitute_in_all_lets adjoint) in
                let adjoint2 :=
                  substitute_expr mul_b (Binary Div (Var_expr arg_i) mul_a) adjoint1 in
                ok (<[i := Var_expr arg_i]> lhs, simplify adjoint2)
          end
      | _ => ok (lhs, adjoint)
      end
  | _, _ => ok (lhs, adjoint)
  end.

(** The body of the loop over the coordinates of [lhs]. *)
Definition simplify_coordinate (func_bounds : gmap string Box) (op_name : string)
    (func_to_update_args : list string) (i : nat) (lhs : list Expr) (adjoint : Expr)
    : result (list Expr * Expr) :=
  let* lhs_i := vector_at lhs i in
  let lhs_arg := substitute_in_all_lets lhs_i in
  match lhs_arg with
  | Variable_ _ name (Some rdom) =>
      if Nat.eqb (length (split_predicate rdom)) 0
      then collapse_spanning_rvar func_bounds op_name func_to_update_args i name rdom
             lhs adjoint
      else ok (lhs, adjoint)
  | Binary Add add_a add_b =>
      match add_a, add_b with
      | Binary Mul _ _, Variable_ _ _ _
      | Variable_ _ _ _, Binary Mul _ _ =>
          collapse_downsampling func_to_update_args i lhs_arg add_a add_b lhs adjoint
      | _, _ => ok (lhs, adjoint)
      end
  | _ => ok (lhs, adjoint)
  end.

Fixpoint simplify_coordinates (func_bounds : gmap string Box) (op_name : string)
    (func_to_update_args : list string) (indices : list nat) (lhs : list Expr)
    (adjoint : Expr) : result (list Expr * Expr) :=
  match indices with
  | [] => ok (lhs, adjoint)
  | i :: rest =>
      let* pr := simplify_coordinate func_bounds op_name func_to_update_args i
                   lhs adjoint in
      let '(lhs', adjoint') := pr in
      simplify_coordinates func_bounds op_name func_to_update_args rest lhs' adjoint'
  end.

Definition general_scattering_simplification (func_bounds : gmap string Box)
    (op_name : string) (func_to_update_args : list string) (lhs : list Expr)
    (adjoint : Expr) : result (list Expr * Expr) :=
  simplify_coordinates func_bounds op_name func_to_update_args
    (seq 0 (length lhs)) lhs adjoint.

(** *** Merging the reduction domains

    The reduction variables of the adjoint and of the left-hand side;
    [std::map::insert] keeps the entry that is already there. *)
Definition gather_all_rvariables (adjoint : Expr) (lhs : list Expr)
    : gmap string ReductionVariableInfo :=
  fold_left (fun m lhs_arg => m ∪ gather_rvariables lhs_arg) lhs
    (gather_rvariables adjoint).

(** A [std::map] keyed by name is walked in the order of the names. *)
Definition name_le (x y : string * ReductionVariableInfo) : Prop :=
  Is_true (String.leb x.1 y.1).

#[local] Instance name_le_dec : RelDecision name_le.
Proof. intros x y. unfold name_le. apply _. Defined.

Definition rvars_in_order (m : gmap string ReductionVariableInfo)
    : list (string * ReductionVariableInfo) :=
  merge_sort name_le (map_to_list m).

(** [RVar r(domain, index)] used as an expression. *)
Definition RVar_expr (rdom : ReductionDomain) (index : nat) : result Expr :=
  let* rv := vector_at (domain rdom) index in
  ok (Variable_ (Int 32) (var rv) (Some rdom)).

(** [simplify(min + extent - 1)] *)
Definition rvar_max (info : ReductionVariableInfo) : Expr :=
  simplify (Binary Sub (Binary Add (info_min info) (info_extent info))
                       (IntImm (Int 32) 1)).

(** [max - r] *)
Definition flipped (info : ReductionVariableInfo) : result Expr :=
  let* r := RVar_expr (info_domain info) (info_index info) in
  ok (Binary Sub (rvar_max info) r).

(** The loop over the original reduction variables, on one expression. *)
Fixpoint flip_expr (org : list (string * ReductionVariableInfo)) (e : Expr)
    : result Expr :=
  match org with
  | [] => ok e
  | it :: rest =>
      let* replacement := flipped it.2 in
      flip_expr rest (substitute it.1 replacement e)
  end.

Fixpoint flip_exprs (org : list (string * ReductionVariableInfo)) (es : list Expr)
    : result (list Expr) :=
  match es with
  | [] => ok []
  | e :: rest =>
      let* e' := flip_expr org e in
      let* rest' := flip_exprs org rest in
      ok (e' :: rest')
  end.

(** If the update is a non overwriting scan, flip the original set of
    reduction variables in [lhs] and in [adjoint]. *)
Definition flip_original_rvars (is_current_non_overwriting_scan : bool)
    (org_rvar_maps : gmap string ReductionVariableInfo) (lhs : list Expr)
    (adjoint : Expr) : result (list Expr * Expr) :=
  if is_current_non_overwriting_scan then
    let org := rvars_in_order org_rvar_maps in
    let* lhs' := flip_exprs org lhs in
    let* adjoint' := flip_expr org adjoint in
    ok (lhs', adjoint')
  else ok (lhs, adjoint).

(** Order: newly introduced rvar -> original rvar. *)
Definition partition_rvars (rvar_maps org_rvar_maps : gmap string ReductionVariableInfo)
    : list ReductionVariableInfo * list ReductionVariableInfo :=
  fold_left
    (fun vecs it =>
       match org_rvar_maps !! it.1 with
       | None => (vecs.1 ++ [it.2], vecs.2)
       | Some _ => (vecs.1, vecs.2 ++ [it.2])
       end)
    (rvars_in_order rvar_maps) ([], []).

(** [ReductionDomain::Compare] orders the domains by the address of their
    contents. *)
Definition ReductionDomain_Compare (a b : ReductionDomain) : bool :=
  Pos.ltb (contents a) (contents b).

(** The comparison handed to [std::sort]. *)
Definition cmp_rv (rv0 rv1 : ReductionVariableInfo) : bool :=
  if ReductionDomain_Compare (info_domain rv0) (info_domain rv1) then true
  else Nat.ltb (info_index rv0) (info_index rv1).

(** The variables of the merged domain in order ([var_names] and
    [merged_bounds] are their names and bounds). *)
Definition merged_rvars (rvar_maps org_rvar_maps : gmap string ReductionVariableInfo)
    : list ReductionVariableInfo :=
  let '(new_rvar_vec, old_rvar_vec) := partition_rvars rvar_maps org_rvar_maps in
  std_sort _ cmp_rv new_rvar_vec ++ std_sort _ cmp_rv old_rvar_vec.

Definition var_names (rvar_maps org_rvar_maps : gmap string ReductionVariableInfo)
    : list string :=
  List.map info_name (merged_rvars rvar_maps org_rvar_maps).

Definition merged_bounds (rvar_maps org_rvar_maps : gmap string ReductionVariableInfo)
    : list (Expr * Expr) :=
  List.map (fun it => (info_min it, info_extent it))
    (merged_rvars rvar_maps org_rvar_maps).

Definition rdom_le (x y : ptr * ReductionDomain) : Prop := (x.1 <= y.1)%positive.

#[local] Instance rdom_le_dec : RelDecision rdom_le.
Proof. intros x y. unfold rdom_le. apply _. Defined.

(** The [std::set] of the domains, one per address, in the order of the
    addresses. *)
Definition gather_rdoms (rvar_maps : gmap string ReductionVariableInfo)
    : list ReductionDomain :=
  let rdoms : gmap ptr ReductionDomain :=
    fold_left
      (fun s it =>
         match s !! contents (info_domain it.2) with
         | Some _ => s
         | None => <[contents (info_domain it.2) := info_domain it.2]> s
         end)
      (rvars_in_order rvar_maps) ∅ in
  List.map snd
    (merge_sort rdom_le (map_to_list rdoms)).

(** The predicate transferred to the merged domain, before the variables
    are renamed. *)
Definition rdom_predicate (rvar_maps : gmap string ReductionVariableInfo) : Expr :=
  fold_left (fun p rdom => simplify (Binary And p (predicate rdom)))
    (gather_rdoms rvar_maps) (UIntImm (UInt 1) 1).

End ScatterCanonicalization.

Section EntryPoint.
Context `{Ext : Externals}.

(** [ReverseAccumulationVisitor::propagate_adjoints]: the functions in
    topological order, the forward overwrite detection, then the rest of
    the pass. *)
Definition ReverseAccumulationVisitor_propagate_adjoints (output adjoint : Func)
    (output_bounds : list (Expr * Expr)) : result (gmap FuncKey Func) :=
  let funcs := realization_order output in
  let* pr := forward_overwrite_detection funcs visitor_new in
  let '(v, non_overwriting_scans) := pr in
  reverse_accumulation output adjoint output_bounds funcs non_overwriting_scans v.

(** [Func::dimensions()] *)
Definition dimensions (f : Func) : nat := length (f_args f).

Record Derivative_ : Type := { adjoints : gmap FuncKey Func }.

Definition dimensions_must_match : error :=
  UserError "output dimensions and adjoint dimensions must match".
Definition bounds_must_match : error :=
  UserError "output_bounds and adjoint dimensions must match".

(** The two [user_assert]s of the entry point. *)
Definition check_dimensions (output adjoint : Func)
    (output_bounds : list (Expr * Expr)) : result unit :=
  if negb (Nat.eqb (dimensions output) (dimensions adjoint))
  then fail dimensions_must_match
  else if negb (Nat.eqb (length output_bounds) (dimensions adjoint))
  then fail bounds_must_match
  else ok tt.

(** [propagate_adjoints(output, adjoint, output_bounds)] *)
Definition propagate_adjoints (output adjoint : Func)
    (output_bounds : list (Expr * Expr)) : result Derivative_ :=
  let* _ := check_dimensions output adjoint output_bounds in
  let* adjoint_funcs :=
    ReverseAccumulationVisitor_propagate_adjoints output adjoint output_bounds in
  ok {| adjoints := adjoint_funcs |}.

End EntryPoint.

Section Orchestrator.
Context `{Ext : Externals}.

(** *** Bounds inference

    [output_box.resize(output_bounds.size())] and then one [push_back] for
    every pair of [output_bounds]; the box is what [inference_bounds] is
    given. *)
Definition output_box (output_bounds : list (Expr * Expr)) : Box :=
  fold_left (fun box p => box ++ [ {| i_min := p.1; i_max := p.2 |} ])
    output_bounds
    (replicate (length output_bounds) Interval_everything).

(** *** The stubs that accumulate the adjoints

    An accumulator as the pass creates it, [Func adjoint_func(name)] with
    the pure definition [adjoint_func(args) = values]. *)
Record Accumulator : Type := {
  acc_name : string;
  acc_args : list string;
  acc_values : list Expr
}.

(** [adjoint_funcs], and the number of [Var()] made so far. *)
Record allocation : Type := {
  adjoint_funcs : gmap FuncKey Accumulator;
  next_var : nat
}.

(** [Var::is_implicit], and the name of the n-th variable that [Var()]
    makes. *)
Variable is_implicit : string -> bool.
Variable unique_name : nat -> string.

(** [std::to_string] on an [int]. *)
Definition to_string (z : Z) : string := NilZero.string_of_int (Z.to_int z).

(** Replace implicit variables with non implicit ones. *)
Fixpoint replace_implicit (args : list string) (next : nat) : list string * nat :=
  match args with
  | [] => ([], next)
  | arg :: rest =>
      if is_implicit arg then
        let '(rest', next') := replace_implicit rest (S next) in
        (unique_name next :: rest', next')
      else
        let '(rest', next') := replace_implicit rest next in
        (arg :: rest', next')
  end.

(** [f(args)] as the values of a definition: one call per value of [f]. *)
Definition call_values (f : Func) (args : list Expr) : list Expr :=
  imap (fun i e => Call (type_of e) (f_name f) args Halide (Some (f_contents f)) i)
    (f_values f).

(** Initialize to 0. *)
Definition zero_values (func : Func) : list Expr :=
  List.map (fun e => make_const (type_of e) 0%Q) (f_values func).

(** The update indices of a function from [-1], the pure definition, to
    the last update. *)
Definition update_ids (func : Func) : list Z :=
  List.map (fun i => Z.of_nat i - 1) (seq 0 (S (num_update_definitions func))).

Definition last_update_id (func : Func) : Z :=
  Z.of_nat (num_update_definitions func) - 1.

Definition stub_name (func : Func) (update_id : Z) : string :=
  f_name func +:+ "_" +:+ to_string (update_id + 1) +:+ "_d_def__".

(** The body of the loop over the updates of one function. *)
Definition allocate_stub (adjoint : Func) (is_last_func : bool) (func : Func)
    (st : allocation) (update_id : Z) : result allocation :=
  let is_final_output := is_last_func && Z.eqb update_id (last_update_id func) in
  let '(args, next) := replace_implicit (f_args func) (next_var st) in
  let values :=
    if is_final_output then call_values adjoint (List.map Var_expr args)
    else zero_values func in
  let func_key := (f_name func, update_id) in
  match adjoint_funcs st !! func_key with
  | Some _ => fail AssertFailed
  | None =>
      ok {| adjoint_funcs :=
              <[func_key := {| acc_name := stub_name func update_id;
                               acc_args := args;
                               acc_values := values |}]> (adjoint_funcs st);
            next_var := next |}
  end.

Fixpoint allocate_updates (adjoint : Func) (is_last_func : bool) (func : Func)
    (ids : list Z) (st : allocation) : result allocation :=
  match ids with
  | [] => ok st
  | update_id :: rest =>
      let* st' := allocate_stub adjoint is_last_func func st update_id in
      allocate_updates adjoint is_last_func func rest st'
  end.

(** Create a stub for each function and each update to accumulate
    adjoints; [count] is [funcs.size()]. *)
Fixpoint allocate_funcs (adjoint : Func) (count : nat) (func_id : nat)
    (funcs : list Func) (st : allocation) : result allocation :=
  match funcs with
  | [] => ok st
  | func :: rest =>
      let is_last_func := Z.eqb (Z.of_nat func_id) (Z.of_nat count - 1) in
      let* st' := allocate_updates adjoint is_last_func func (update_ids func) st in
      allocate_funcs adjoint count (S func_id) rest st'
  end.

Definition allocate_function_stubs (adjoint : Func) (funcs : list Func)
    : result allocation :=
  allocate_funcs adjoint (length funcs) 0 funcs
    {| adjoint_funcs := ∅; next_var := 0 |}.

(** [BufferInfo] of DerivativeUtils.h, and [find_buffer_calls]. *)
Record BufferInfo : Type := {
  dimension : Z;
  buffer_type : Type_
}.

Variable find_buffer_calls : Func -> gmap string BufferInfo.

(** [called_buffers.insert(buffers.begin(), buffers.end())] keeps the entry
    of a name that is there already. *)
Definition called_buffers (funcs : list Func) : gmap string BufferInfo :=
  fold_left (fun cb func => cb ∪ find_buffer_calls func) funcs ∅.

(** [dimension] times [args.push_back(Var())]. *)
Fixpoint fresh_vars (n : nat) (next : nat) : list string * nat :=
  match n with
  | O => ([], next)
  | S n' =>
      let '(rest, next') := fresh_vars n' (S next) in
      (unique_name next :: rest, next')
  end.

Definition naming_conflict (name : string) : error :=
  UserError ("Naming conflict between buffer and function:" +:+ name).

(** The body of the loop over the called buffers. *)
Definition allocate_buffer_stub (st : allocation) (it : string * BufferInfo)
    : result allocation :=
  let '(args, next) := fresh_vars (Z.to_nat (dimension it.2)) (next_var st) in
  let func_key : FuncKey := (it.1, -1) in
  match adjoint_funcs st !! func_key with
  | Some _ => fail (naming_conflict it.1)
  | None =>
      ok {| adjoint_funcs :=
              <[func_key := {| acc_name := it.1 +:+ "_d__";
                               acc_args := args;
                               acc_values := [make_const (buffer_type it.2) 0%Q] |}]>
                (adjoint_funcs st);
            next_var := next |}
  end.

Fixpoint allocate_buffers (buffers : list (string * BufferInfo)) (st : allocation)
    : result allocation :=
  match buffers with
  | [] => ok st
  | it :: rest =>
      let* st' := allocate_buffer_stub st it in
      allocate_buffers rest st'
  end.

(** A [std::map] keyed by name is walked in the order of the names. *)
Definition buffer_le (x y : string * BufferInfo) : Prop :=
  Is_true (String.leb x.1 y.1).

#[local] Instance buffer_le_dec : RelDecision buffer_le.
Proof. intros x y. unfold buffer_le. apply _. Defined.

Definition buffers_in_order (m : gmap string BufferInfo) : list (string * BufferInfo) :=
  merge_sort buffer_le (map_to_list m).

(** Also create stubs for buffers referenced by the functions. *)
Definition allocate_buffer_stubs (funcs : list Func) (st : allocation)
    : result allocation :=
  allocate_buffers (buffers_in_order (called_buffers funcs)) st.

(** The stub allocation of the pass: functions, then buffers. *)
Definition allocate_all_stubs (adjoint : Func) (funcs : list Func) : result allocation :=
  let* st := allocate_function_stubs adjoint funcs in
  allocate_buffer_stubs funcs st.

(** *** The reverse pass: where the boundary condition is set up

    The keys for which the reverse pass over one function calls
    [add_boundary_condition], in the order of the calls: before the loop
    over the updates for the last key unless it is a non overwriting scan,
    and inside the loop, which runs from the last update down to [-1],
    once the self-references of the last update are propagated when it is
    one. *)
Definition is_current_non_overwriting_scan (non_overwriting_scans : gset FuncKey)
    (func : Func) (update_id : Z) : bool :=
  Z.leb 0 update_id &&
  bool_decide ((f_name func, update_id) ∈ non_overwriting_scans).

Definition boundary_condition_calls (non_overwriting_scans : gset FuncKey)
    (func : Func) : list FuncKey :=
  let func_key : FuncKey := (f_name func, last_update_id func) in
  (if bool_decide (func_key ∈ non_overwriting_scans) then [] else [func_key]) ++
  flat_map
    (fun update_id : Z =>
       if is_current_non_overwriting_scan non_overwriting_scans func update_id &&
          Z.eqb update_id (last_update_id func)
       then [(f_name func, update_id)] else [])
    (rev (update_ids func)).

(** *** The [Call] handler outside the detection phase: which accumulator
    a call scatters to

    The two sub-phases: in the self-referencing phase only the calls of
    the current function to itself go on, in the other phase only the
    others. *)
Definition propagates_in_phase (is_self_referencing_phase : bool)
    (op_func : option ptr) (current : Func) : bool :=
  let same := bool_decide (op_func = Some (f_contents current)) in
  if is_self_referencing_phase then same else negb same.

(** [Function func(op->func)]: the function whose contents lie at an
    address. *)
Variable function_at : ptr -> Func.

(** [func_key] of the handler.  [func.updates().size() - 1] is computed
    on [size_t] and stored in the [int] of the key. *)
Definition scatter_key (current : Func) (current_update_id : Z)
    (is_scan is_self_referencing_phase : bool)
    (op_name : string) (op_func : option ptr) : FuncKey :=
  match op_func with
  | Some p =>
      let func := function_at p in
      let func_key : FuncKey :=
        if negb (String.eqb (f_name func) (f_name current))
        then (f_name func, ScopeH.wrap_int (Z.of_nat (length (f_updates func)) - 1))
        else (f_name func, current_update_id - 1) in
      if is_scan && is_self_referencing_phase
      then (f_name func, current_update_id)
      else func_key
  | None => (op_name, -1)
  end.

(** *** The other entry points

    [Func::value()], of Func.h, and the address of the contents of a [Func]
    made by the entry points. *)
Variable Func_value : Func -> result Expr.
Variable new_contents : ptr.

(** [propagate_adjoints(output)] *)
Definition propagate_adjoints_of_output (output : Func) : result Derivative_ :=
  let* value := Func_value output in
  let adjoint :=
    {| f_contents := new_contents; f_name := "adjoint";
       f_args := f_args output;
       f_values := [make_const (type_of value) 1%Q];
       f_updates := [] |} in
  let output_bounds :=
    List.map (fun _ => (IntImm (Int 32) 0, IntImm (Int 32) 0))
      (seq 0 (dimensions output)) in
  propagate_adjoints output adjoint output_bounds.

(** [Buffer<float>]: its name and, for every dimension, [min] and
    [extent]. *)
Record Buffer : Type := {
  buffer_name : string;
  buffer_dims : list (Z * Z)
}.

(** The name of the i-th implicit variable, [_i]. *)
Definition implicit_name (i : nat) : string := "_" +:+ to_string (Z.of_nat i).

(** [propagate_adjoints(output, adjoint)] for a buffer.  The [user_assert]
    has no message.  Modelled from the spec for the line
    [adjoint_func(_) = adjoint(_)], the seed computation derived from the
    buffer: [_] stands for as many implicit variables as the buffer has
    dimensions. *)
Definition propagate_adjoints_of_buffer (output : Func) (adjoint : Buffer)
    : result Derivative_ :=
  if negb (Nat.eqb (dimensions output) (length (buffer_dims adjoint)))
  then fail (UserError "")
  else
    let bounds :=
      List.map
        (fun d : Z * Z =>
           (IntImm (Int 32) d.1,
            IntImm (Int 32) (ScopeH.wrap_int (ScopeH.wrap_int (d.1 + d.2) - 1))))
        (buffer_dims adjoint) in
    let implicit := List.map implicit_name (seq 0 (length (buffer_dims adjoint))) in
    let adjoint_func :=
      {| f_contents := new_contents; f_name := "adjoint_func";
         f_args := implicit;
         f_values :=
           [Call (Float 32) (buffer_name adjoint) (List.map Var_expr implicit)
              Image None 0];
         f_updates := [] |} in
    propagate_adjoints output adjoint_func bounds.

End Orchestrator.

End Derivative.

(** ** The vocabulary of the properties

    Conditions and derived notions in which the properties below are
    stated. *)

Module Statements.
Import IR Derivative.

(** The function [f] changes by [d * h] when its argument moves from [x]
    to [x + h]: [d] is its derivative at [x], and [f] is affine. *)
Definition slope (f : Q -> Q) (x d : Q) : Prop :=
  forall h : Q, (f (x + h) - f x == d * h)%Q.

(** [lerp(x, y, w)], as the handler reads it: [z = x * (1 - w) + y * w]. *)
Definition lerp_value (x y w : Q) : Q := (x * (1 - w) + y * w)%Q.

(** The catalog of the extern branch of the [Call] handler: the math
    functions it knows, each under its three floating point suffixes, and
    the print sink. *)
Definition float_externs : list string :=
  ["exp"; "log"; "sin"; "asin"; "cos"; "acos"; "tan"; "atan"; "atan2";
   "sinh"; "asinh"; "cosh"; "acosh"; "tanh"; "atanh";
   "ceil"; "floor"; "round"; "trunc"; "sqrt"; "pow";
   "fast_inverse"; "fast_inverse_sqrt"].

Definition float_suffixes : list string := ["_f16"; "_f32"; "_f64"].

Definition extern_catalog : list string :=
  flat_map (fun f => List.map (fun s => f +:+ s) float_suffixes) float_externs
  ++ ["halide_print"].

(** The functions of the catalog that round to an integer. *)
Definition rounding_externs : list string := ["ceil"; "floor"; "round"; "trunc"].

(** The intrinsics the handler has a rule for. *)
Definition known_intrinsics : list string :=
  [Call_abs; Call_lerp; Call_likely; Call_return_second; Call_undef].

Section WithExternals.
Context `{Ext : Externals}.

(** Every update of a function writes to as many coordinates as the
    function has dimensions. *)
Definition updates_well_formed (func : Func) : Prop :=
  Forall (fun upd => length (u_args upd) = length (f_args func)) (f_updates func).

(** The boxes of the updates up to [update_id] exist and have one size. *)
Definition boxes_well_formed (boxes : list Box) (update_id : nat) : Prop :=
  exists current_box : Box,
    boxes !! update_id = Some current_box /\
    Forall (fun b : Box => length b = length current_box) (take update_id boxes).

(** The condition under which one entry of the adjoint map raises the
    diagnostic, as a boolean. *)
Definition entry_overwritten (func : Func) (boxes : list Box) (update_id : nat)
    (lets : gmap string ExprRef) (entry : ptr * Expr) : bool :=
  self_referencing_entry func lets entry &&
  (existsb (fun rhs => is_calling_function rhs lets) (f_values func) ||
   match boxes !! update_id with
   | Some current_box => existsb (boxes_overlap current_box) (take update_id boxes)
   | None => false
   end).

(** The condition of checking 1, for the entry at address [p] with
    adjoint [e]: the entry deposits to a function or an image and its
    adjoint calls the current function, and the pure definition calls some
    function or image or the box of an earlier update overlaps the box of
    this one. *)
Definition overwritten_use (func : Func) (boxes : list Box) (update_id : nat)
    (lets : gmap string ExprRef) (p : ptr) (e : Expr) : Prop :=
  is_target_func_or_buffer (deref p) = true /\
  is_calling_function_named (f_name func) e lets = true /\
  ((exists rhs, In rhs (f_values func) /\ is_calling_function rhs lets = true) \/
   (exists (prev_id : nat) (prev_box current_box : Box),
      (prev_id < update_id)%nat /\
      boxes !! prev_id = Some prev_box /\
      boxes !! update_id = Some current_box /\
      boxes_overlap current_box prev_box = true)).

(** The condition handed to the prover for one recorded self-reference. *)
Definition proven_not_overwriting (update_args : list Expr)
    (varying : ScopeH.Scope Interval) (self_ref_args : list Expr) : bool :=
  can_prove
    (and_condition_over_domain
       (not_overwriting_cond self_ref_args update_args const_false) varying).

(** The pass reaches update [upd] of [func] with the visitor in state [v]:
    the functions before [func] and the updates of [func] before [upd]
    have passed the detection. *)
Definition detection_reaches (funcs1 : list Func) (func : Func)
    (upds1 : list UpdateDefinition) (v : visitor) : Prop :=
  exists (va : visitor) (sa sb : gset FuncKey),
    detect_funcs funcs1 (set_detection_phase visitor_new true) ∅ = ok (va, sa) /\
    detect_updates func (compute_boxes func) 0 upds1
      (set_current_func va (f_contents func)) sa = ok (v, sb).

Definition push_rvar (scope : ScopeH.Scope Interval) (r : ReductionVariable)
    : ScopeH.Scope Interval :=
  ScopeH.push Interval Interval_everything scope (var r) (rvar_interval r).

(** The step from [v] to [v'] is a run of [accumulate] calls on nodes that
    [n] consumes, and leaves the let bindings and the phase alone. *)
Definition pushed (lets : gmap string ExprRef) (n : IRNode) (v v' : visitor) : Prop :=
  exists pushes,
    expr_adjoints v' = accumulate_all pushes (expr_adjoints v) /\
    Forall (fun c : ExprRef * Expr => In (addr c.1) (operands lets n)) pushes /\
    let_var_mapping v' = let_var_mapping v /\
    is_forward_overwrite_detection_phase v' = is_forward_overwrite_detection_phase v.

(** The contribution was pushed by the handler of a node of [l] that
    consumes the node it goes to. *)
Definition pushed_by_consumer (lets : gmap string ExprRef) (l : list Node)
    (c : ExprRef * Expr) : Prop :=
  exists m, In m l /\ In (addr c.1) (operands lets (n_node m)).

(** One more binding in front of a simultaneous substitution. *)
Definition extend (sigma : string -> option Expr) (name : string) (replacement : Expr)
    : string -> option Expr :=
  fun x => if String.eqb x name then Some replacement else sigma x.

(** [max - r] for the reduction variable [name]. *)
Definition flip_replacement (name : string) (info : ReductionVariableInfo) : Expr :=
  Binary Sub (rvar_max info) (Variable_ (Int 32) name (Some (info_domain info))).

(** The simultaneous substitution that flips every gathered variable. *)
Definition flip_map (org : gmap string ReductionVariableInfo)
    : string -> option Expr :=
  fun name => flip_replacement name <$> org !! name.

Definition flip_list (l : list (string * ReductionVariableInfo))
    : string -> option Expr :=
  flip_map (list_to_map l).

(** What [gather_rvariables] guarantees: an entry is filed under the name
    of the variable at its index in its domain. *)
Definition gathered_well_formed (org : gmap string ReductionVariableInfo) : Prop :=
  forall name info,
    org !! name = Some info ->
    exists rv, domain (info_domain info) !! info_index info = Some rv /\ var rv = name.

(** The node is a call of the function with contents [current], as a
    function or as an image. *)
Definition self_call (current : ptr) (n : Node) : bool :=
  match n_node n with
  | NCall _ _ _ call_type func _ =>
      match call_type with
      | Halide | Image => bool_decide (func = Some current)
      | _ => false
      end
  | _ => false
  end.

(** The arguments of a call node, each with the let bindings added. *)
Definition call_args_with_lets (v : visitor) (n : Node) : list Expr :=
  match n_node n with
  | NCall _ _ args _ _ _ =>
      List.map (fun a => add_let_expression (tree a) (let_var_mapping v)
                           (let_variables v)) args
  | _ => []
  end.

(** The step from [v] to [v'] leaves the let bindings, the current
    function and the phase alone. *)
Definition same_context (v v' : visitor) : Prop :=
  let_var_mapping v' = let_var_mapping v /\
  let_variables v' = let_variables v /\
  current_func v' = current_func v /\
  is_forward_overwrite_detection_phase v' = is_forward_overwrite_detection_phase v.

(** The step leaves the context alone and records the self-references
    [recorded], keeping the number of self-reference adjoints. *)
Definition records (v v' : visitor) (recorded : list (list Expr)) : Prop :=
  same_context v v' /\
  self_reference_args v' = self_reference_args v ++ recorded /\
  length (self_reference_adjoint v') = length (self_reference_adjoint v).

(** The binding of a [Let] node, and the bindings of the [Let] nodes of a
    list in the order of the list. *)
Definition let_binding (n : Node) : option (string * ExprRef) :=
  match n_node n with
  | NLet name value _ => Some (name, value)
  | _ => None
  end.

Definition let_bindings (l : list Node) : list (string * ExprRef) :=
  omap let_binding l.

(** The map after recording one binding, as [let_var_mapping[name] = value]
    leaves it. *)
Definition insert_binding (m : gmap string ExprRef) (b : string * ExprRef)
    : gmap string ExprRef := <[b.1 := b.2]> m.

(** [sort_expressions] lists the expression itself last. *)
Definition sorted_ends_with_root : Prop :=
  forall e : ExprRef,
    exists (below : list Node) (root : Node),
      sort_expressions e = below ++ [root] /\ n_addr root = addr e.

(** The key names update [update_id] of a function of the list, an update
    that has reduction variables. *)
Definition names_scan_update (funcs : list Func) (key : FuncKey) : Prop :=
  exists (func : Func) (update_id : nat) (upd : UpdateDefinition),
    In func funcs /\ key = (f_name func, Z.of_nat update_id) /\
    f_updates func !! update_id = Some upd /\
    has_reduction_var upd = true.

(** The simplifier keeps the truth value of every condition at every
    point. *)
Definition simplify_keeps_truth : Prop :=
  forall (env : Env) (e : Expr),
    to_bool (eval env (simplify e)) = to_bool (eval env e).

(** The read location and the write location differ in some coordinate at
    the point [env]. *)
Definition some_coordinate_differs (env : Env) (self_ref_args update_args : list Expr)
    : Prop :=
  exists (i : nat) (s u : Expr),
    self_ref_args !! i = Some s /\ update_args !! i = Some u /\
    ~ (eval env s == eval env u)%Q.

(** What the allocation puts under the key of update [update_id] of
    [func]: the name of the stub, as many arguments as the function has,
    and as values the seed [adjoint] at the arguments when the stub is the
    one of the final output and zeros otherwise. *)
Definition stub_of (adjoint : Func) (is_final_output : bool) (func : Func)
    (update_id : Z) (acc : Accumulator) : Prop :=
  acc_name acc = stub_name func update_id /\
  length (acc_args acc) = length (f_args func) /\
  acc_values acc =
    if is_final_output
    then call_values adjoint (List.map Var_expr (acc_args acc))
    else zero_values func.

(** The stub of a buffer. *)
Definition buffer_stub_of (name : string) (info : BufferInfo) (acc : Accumulator)
    : Prop :=
  acc_name acc = name +:+ "_d__" /\
  length (acc_args acc) = Z.to_nat (dimension info) /\
  acc_values acc = [make_const (buffer_type info) 0%Q].

(** [update_id] is an update index of [func], from the [-1] of the pure
    definition to the last update. *)
Definition is_update_id (func : Func) (update_id : Z) : Prop :=
  -1 <= update_id <= last_update_id func.

(** The bounds of a reduction domain do not depend on reduction variables:
    no gathered variable occurs in a simplified upper bound. *)
Definition bounds_free_of_rvars (org : gmap string ReductionVariableInfo) : Prop :=
  forall name info x,
    org !! name = Some info -> is_Some (org !! x) ->
    ~ In x (free_vars (rvar_max info)).

End WithExternals.

End Statements.

(** ** Worked examples

    Functions with one update from the comments of the pass and from the
    testable properties, laid out in memory, inputs of the canonicalisation
    steps, and an instance of the collaborators that is enough to run the
    detection phase and those steps on them. *)

Module Examples.
Import IR Derivative.

#[local] Instance BinaryOp_eq_dec : EqDecision BinaryOp.
Proof. solve_decision. Defined.

(** Modelled from the spec: [equal] of IREquality.h, the structural
    comparison of two expressions; constants, variables (by name) and
    binary nodes are compared, anything else counts as different. *)
Fixpoint same_expr (a b : Expr) : bool :=
  match a, b with
  | IntImm _ x, IntImm _ y => Z.eqb x y
  | UIntImm _ x, UIntImm _ y => Z.eqb x y
  | FloatImm _ x, FloatImm _ y => Qeq_bool x y
  | Variable_ _ n _, Variable_ _ m _ => String.eqb n m
  | Binary o a1 a2, Binary o' b1 b2 =>
      bool_decide (o = o') && same_expr a1 b1 && same_expr a2 b2
  | _, _ => false
  end.

Definition is_true_const (e : Expr) : bool :=
  match e with UIntImm _ 1 => true | _ => false end.
Definition is_false_const (e : Expr) : bool :=
  match e with UIntImm _ 0 => true | _ => false end.

(** The rewrite rules applied at the root of a node whose operands are
    already simplified. *)
Definition fold_node (e : Expr) : Expr :=
  match e with
  | Binary Add (FloatImm t x) (FloatImm _ y) => FloatImm t (Qred (x + y))
  | Binary Mul (FloatImm t x) (FloatImm _ y) => FloatImm t (Qred (x * y))
  | Binary NE a b =>
      if same_expr a b then const_false
      else
        match b with
        | Binary Add a' (IntImm _ c) =>
            if same_expr a a' && negb (Z.eqb c 0) then const_true else e
        | _ => e
        end
  | Binary Or a b =>
      if is_true_const a || is_true_const b then const_true
      else if is_false_const a then b
      else if is_false_const b then a
      else e
  | Binary Add (IntImm t x) (IntImm _ y) => IntImm t (x + y)
  | Binary Sub (IntImm t x) (IntImm _ y) => IntImm t (x - y)
  | Binary LT (IntImm _ x) (IntImm _ y) => if Z.ltb x y then const_true else const_false
  | Binary LE (IntImm _ x) (IntImm _ y) => if Z.leb x y then const_true else const_false
  | Binary GE (IntImm _ x) (IntImm _ y) => if Z.leb y x then const_true else const_false
  | Binary And a b =>
      if is_false_const a || is_false_const b then const_false
      else if is_true_const a then b
      else if is_true_const b then a
      else e
  | _ => e
  end.

(** Modelled from the spec: [simplify], the simplifier of section 6, as the
    sound fragment the examples need: constant folding of float sums and
    products and of integer sums, differences and comparisons, [e != e],
    [e != e + c] for a constant [c] other than 0, and conjunctions and
    disjunctions with a constant operand. *)
Fixpoint simplify_fragment (e : Expr) : Expr :=
  match e with
  | Binary op a b => fold_node (Binary op (simplify_fragment a) (simplify_fragment b))
  | _ => e
  end.

(** Modelled from the spec: [can_prove], which simplifies the condition
    and checks that the result is the constant true. *)
Definition can_prove_fragment (e : Expr) : bool :=
  is_true_const (simplify_fragment e).

(** Modelled from the spec: [is_const(e, value)] of IROperator.h: an
    immediate, or a cast of one, that equals the value. *)
Fixpoint is_const_value (e : Expr) (value : Z) : bool :=
  match e with
  | IntImm _ v => Z.eqb v value
  | UIntImm _ v => Z.leb 0 value && Z.eqb v value
  | FloatImm _ q => Qeq_bool q (inject_Z value)
  | Cast _ v => is_const_value v value
  | _ => false
  end.

(** Modelled from the spec: [extract_rdom] of DerivativeUtils.h, the first
    reduction domain met among the variables of an expression. *)
Fixpoint extract_rdom_first (e : Expr) : option ReductionDomain :=
  let first (x y : option ReductionDomain) :=
    match x with Some _ => x | None => y end in
  match e with
  | IntImm _ _ | UIntImm _ _ | FloatImm _ _ => None
  | Cast _ v => extract_rdom_first v
  | Variable_ _ _ rd => rd
  | Binary _ a b => first (extract_rdom_first a) (extract_rdom_first b)
  | Not a => extract_rdom_first a
  | Select c t f =>
      first (extract_rdom_first c)
        (first (extract_rdom_first t) (extract_rdom_first f))
  | Let_ _ v b => first (extract_rdom_first v) (extract_rdom_first b)
  | Call _ _ args _ _ _ =>
      (fix go (l : list Expr) : option ReductionDomain :=
         match l with
         | [] => None
         | x :: r => first (extract_rdom_first x) (go r)
         end) args
  end.

(** Modelled from the spec: [is_calling_function] of DerivativeUtils.h on
    expressions without let variables: some call to a function or an image
    occurs in the expression, of the given name unless the name is
    empty. *)
Fixpoint calls_function (func_name : string) (e : Expr) : bool :=
  match e with
  | IntImm _ _ | UIntImm _ _ | FloatImm _ _ | Variable_ _ _ _ => false
  | Cast _ v => calls_function func_name v
  | Binary _ a b => calls_function func_name a || calls_function func_name b
  | Not a => calls_function func_name a
  | Select c t f =>
      calls_function func_name c || calls_function func_name t ||
      calls_function func_name f
  | Let_ _ v b => calls_function func_name v || calls_function func_name b
  | Call _ name args call_type _ _ =>
      (match call_type with
       | Image | Halide => String.eqb func_name "" || String.eqb name func_name
       | _ => false
       end) ||
      (fix go (l : list Expr) : bool :=
         match l with
         | [] => false
         | x :: r => calls_function func_name x || go r
         end) args
  end.

(** Modelled from the spec: [gather_rvariables] of DerivativeUtils.h, the
    reduction variables of an expression by name, each with its bounds, its
    domain and its index in the domain. *)
Definition rvariable_info (name : string) (rd : ReductionDomain)
    : option ReductionVariableInfo :=
  match list_find (fun rv => var rv = name) (domain rd) with
  | Some (index, rv) =>
      Some {| info_min := min rv; info_extent := extent rv; info_index := index;
              info_domain := rd; info_name := name |}
  | None => None
  end.

Fixpoint rvariables_of (e : Expr) : gmap string ReductionVariableInfo :=
  match e with
  | IntImm _ _ | UIntImm _ _ | FloatImm _ _ => ∅
  | Cast _ v => rvariables_of v
  | Variable_ _ name (Some rd) =>
      match rvariable_info name rd with
      | Some info => {[ name := info ]}
      | None => ∅
      end
  | Variable_ _ _ None => ∅
  | Binary _ a b => rvariables_of a ∪ rvariables_of b
  | Not a => rvariables_of a
  | Select c t f => rvariables_of c ∪ rvariables_of t ∪ rvariables_of f
  | Let_ _ v b => rvariables_of v ∪ rvariables_of b
  | Call _ _ args _ _ _ =>
      (fix go (l : list Expr) : gmap string ReductionVariableInfo :=
         match l with
         | [] => ∅
         | x :: r => rvariables_of x ∪ go r
         end) args
  end.

(** [std::sort] on a short range: insertion from the left. *)
Fixpoint insert_sorted {A : Type} (cmp : A -> A -> bool) (x : A) (l : list A) : list A :=
  match l with
  | [] => [x]
  | y :: r => if cmp x y then x :: y :: r else y :: insert_sorted cmp x r
  end.

Definition insertion_sort (A : Type) (cmp : A -> A -> bool) (l : list A) : list A :=
  fold_left (fun acc x => insert_sorted cmp x acc) l [].

(** *** The programs *)

Definition f32 : Type_ := Float 32.
Definition i32 : Type_ := Int 32.

Definition r : ReductionDomain :=
  {| contents := 200%positive;
     domain := [ {| var := "r$x"; min := IntImm i32 0; extent := IntImm i32 10 |} ];
     predicate := const_true |}.

Definition x : Expr := Variable_ i32 "x" None.
Definition y : Expr := Variable_ i32 "y" None.
Definition r_x : Expr := Variable_ i32 "r$x" (Some r).

Definition g_contents : ptr := 100%positive.
Definition f_contents_ : ptr := 101%positive.

(** [g(x) = cast<float>(x)] *)
Definition g : Func :=
  {| f_contents := g_contents; f_name := "g"; f_args := ["x"];
     f_values := [Cast f32 x]; f_updates := [] |}.

Definition ref (p : ptr) (e : Expr) : ExprRef := {| addr := p; tree := e |}.

(** [f(x)], [g(r.x)] and the constant 2 as nodes at the given
    addresses. *)
Definition call_f (p : ptr) (args : list ExprRef) : Node :=
  {| n_addr := p; n_node := NCall f32 "f" args Halide (Some f_contents_) 0 |}.
Definition call_g (p : ptr) (args : list ExprRef) : Node :=
  {| n_addr := p; n_node := NCall f32 "g" args Halide (Some g_contents) 0 |}.
Definition two (p : ptr) : Node :=
  {| n_addr := p; n_node := NImm (FloatImm f32 2%Q) |}.
Definition binary (p : ptr) (op : BinaryOp) (a b : Node) : Node :=
  {| n_addr := p; n_node := NBinary op (handle_of a) (handle_of b) |}.

(** [f(x) = 0; f(x) = f(x) + g(r.x)] *)
Definition good_f : Node := call_f 10%positive [ref 11%positive x].
Definition good_g : Node := call_g 12%positive [ref 13%positive r_x].
Definition good_root : Node := binary 14%positive Add good_f good_g.

Definition f_good : Func :=
  {| f_contents := f_contents_; f_name := "f"; f_args := ["x"];
     f_values := [FloatImm f32 0%Q];
     f_updates :=
       [ {| u_args := [x]; u_values := [handle_of good_root];
            u_rvars := domain r |} ] |}.

(** [f(x) = 0; f(x) = 2 * f(x) + g(r.x)] *)
Definition bad_two : Node := two 20%positive.
Definition bad_f : Node := call_f 21%positive [ref 25%positive x].
Definition bad_mul : Node := binary 22%positive Mul bad_two bad_f.
Definition bad_g : Node := call_g 23%positive [ref 26%positive r_x].
Definition bad_root : Node := binary 24%positive Add bad_mul bad_g.

Definition f_bad : Func :=
  {| f_contents := f_contents_; f_name := "f"; f_args := ["x"];
     f_values := [FloatImm f32 0%Q];
     f_updates :=
       [ {| u_args := [x]; u_values := [handle_of bad_root];
            u_rvars := domain r |} ] |}.

(** [f(x, y) = 0; f(x, r.x + 1) = 2 * f(x, r.x) + g(r.x)] *)
Definition scan_two : Node := two 30%positive.
Definition scan_f : Node := call_f 31%positive [ref 35%positive x; ref 36%positive r_x].
Definition scan_mul : Node := binary 32%positive Mul scan_two scan_f.
Definition scan_g : Node := call_g 33%positive [ref 37%positive r_x].
Definition scan_root : Node := binary 34%positive Add scan_mul scan_g.

Definition scan_update : UpdateDefinition :=
  {| u_args := [x; Binary Add r_x (IntImm i32 1)];
     u_values := [handle_of scan_root];
     u_rvars := domain r |}.

Definition f_scan : Func :=
  {| f_contents := f_contents_; f_name := "f"; f_args := ["x"; "y"];
     f_values := [FloatImm f32 0%Q];
     f_updates := [scan_update] |}.

(** The visitor when the detection enters the first update of [f]. *)
Definition entry_state : visitor :=
  set_current_func (set_detection_phase visitor_new true) f_contents_.

(** The visitor of the detection phase in the update of [f_bad], the lets
    gathered and the output seeded, before the traversal. *)
Definition entry_state_seeded : visitor :=
  set_expr_adjoints
    (set_self_reference entry_state [FloatImm f32 0%Q] [])
    {[ 24%positive := FloatImm f32 1%Q ]}.

(** The visitor after the expressions of that update are differentiated,
    with the adjoint map cleared. *)
Definition scan_state : visitor :=
  {| expr_adjoints := ∅; let_var_mapping := ∅; let_variables := [];
     current_func := f_contents_;
     is_forward_overwrite_detection_phase := true;
     self_reference_adjoint := [FloatImm f32 2%Q];
     self_reference_args := [[x; r_x]] |}.

(** [f(x) = g(x); f(x) = f(x) * f(x)] *)
Definition square_a : Node := call_f 40%positive [ref 43%positive x].
Definition square_b : Node := call_f 41%positive [ref 44%positive x].
Definition square_root : Node := binary 42%positive Mul square_a square_b.

Definition square_update : UpdateDefinition :=
  {| u_args := [x]; u_values := [handle_of square_root]; u_rvars := [] |}.

Definition f_square : Func :=
  {| f_contents := f_contents_; f_name := "f"; f_args := ["x"];
     f_values := [Call f32 "g" [x] Halide (Some g_contents) 0];
     f_updates := [square_update] |}.

(** The visitor after the expressions of that update are differentiated. *)
Definition square_state : visitor :=
  {| expr_adjoints :=
       {[ 40%positive := Binary Mul (FloatImm f32 1%Q) (tree (handle_of square_b));
          41%positive := Binary Mul (FloatImm f32 1%Q) (tree (handle_of square_a));
          42%positive := FloatImm f32 1%Q ]};
     let_var_mapping := ∅; let_variables := [];
     current_func := f_contents_;
     is_forward_overwrite_detection_phase := true;
     self_reference_adjoint :=
       [simplify_fragment
          (Binary Add
             (simplify_fragment
                (Binary Add (FloatImm f32 0%Q)
                   (Binary Mul (FloatImm f32 1%Q) (tree (handle_of square_a)))))
             (Binary Mul (FloatImm f32 1%Q) (tree (handle_of square_b))))];
     self_reference_args := [[x]; [x]] |}.

(** A point at which the two operands of [min(x, y)] are equal, and the
    adjoint 1 coming in. *)
Definition tie_env : Env :=
  {| var_value := fun _ => 3%Q; call_value := fun _ _ _ => 0%Q |}.
Definition tie_a : ExprRef := ref 50%positive (Variable_ f32 "x" None).
Definition tie_b : ExprRef := ref 51%positive (Variable_ f32 "y" None).
Definition tie_d : Expr := FloatImm f32 1%Q.

(** A point at which the first operand is the smaller one. *)
Definition less_env : Env :=
  {| var_value := fun n => if String.eqb n "x" then 1%Q else 2%Q;
     call_value := fun _ _ _ => 0%Q |}.

(** Two reduction variables introduced by one canonicalisation step, as for
    [k(x, y) = f(y * y) * g(x)]: the coordinate [y * y] cannot be inverted,
    so [y] becomes the second variable of the domain over the bounds of
    [k], and the free [x] of the adjoint becomes the first variable of a
    second domain.  The first domain lies at the lower address. *)
Definition bounds_domain : ReductionDomain :=
  {| contents := 300%positive;
     domain := [ {| var := "r300$x"; min := IntImm i32 0; extent := IntImm i32 8 |};
                 {| var := "r300$y"; min := IntImm i32 0; extent := IntImm i32 6 |} ];
     predicate := const_true |}.

Definition subset_domain : ReductionDomain :=
  {| contents := 301%positive;
     domain := [ {| var := "r301$x"; min := IntImm i32 0; extent := IntImm i32 8 |} ];
     predicate := const_true |}.

Definition rv_y : ReductionVariableInfo :=
  {| info_min := IntImm i32 0; info_extent := IntImm i32 6; info_index := 1;
     info_domain := bounds_domain; info_name := "r300$y" |}.

Definition rv_x : ReductionVariableInfo :=
  {| info_min := IntImm i32 0; info_extent := IntImm i32 8; info_index := 0;
     info_domain := subset_domain; info_name := "r301$x" |}.

Definition new_rvar_maps : gmap string ReductionVariableInfo :=
  {[ "r300$y" := rv_y; "r301$x" := rv_x ]}.

(** The order by domain, then by index, that the comment above the
    comparison asks for. *)
Definition by_domain_then_index (rv0 rv1 : ReductionVariableInfo) : bool :=
  if ReductionDomain_Compare (info_domain rv0) (info_domain rv1) then true
  else if ReductionDomain_Compare (info_domain rv1) (info_domain rv0) then false
  else Nat.ltb (info_index rv0) (info_index rv1).

(** The adjoint and the left-hand side of a scan over [r], with a variable
    [r301$x] introduced by the canonicalisation. *)
Definition flip_adjoint : Expr :=
  Binary Mul (Call f32 "g" [r_x] Halide (Some g_contents) 0)
             (Variable_ i32 "r301$x" (Some subset_domain)).
Definition flip_lhs : list Expr := [x; Binary Add r_x (IntImm i32 1)].
Definition flip_adjoint_before : Expr :=
  Binary Mul (Call f32 "g" [r_x] Halide (Some g_contents) 0) y.
Definition r_info : ReductionVariableInfo :=
  {| info_min := IntImm i32 0; info_extent := IntImm i32 10; info_index := 0;
     info_domain := r; info_name := "r$x" |}.

(** The bounds of the targets for the general scattering simplification. *)
Definition target_bounds : gmap string Box :=
  {[ "g" := [ {| i_min := IntImm i32 0; i_max := IntImm i32 9 |} ] ]}.

(** Modelled from the spec: [boxes_overlap] of Bounds.h, the conservative
    overlap test: two boxes overlap unless, in some dimension, one is
    proved to end before the other begins. *)
Definition boxes_overlap_unless_proved (a b : Box) : bool :=
  negb
    (existsb
       (fun ab : Interval * Interval =>
          can_prove_fragment
            (Binary Or (Binary LT (i_max ab.1) (i_min ab.2))
                       (Binary LT (i_max ab.2) (i_min ab.1))))
       (combine a b)).

(** Modelled from the spec: [bounds_of_expr_in_scope] of Bounds.h, for the
    two cases that are exact: a variable bound in the scope has the
    interval of its binding, any other expression is bounded by itself. *)
Definition bounds_in_scope (e : Expr) (scope : ScopeH.Scope Interval) : Interval :=
  match e with
  | Variable_ _ name _ =>
      match ScopeH.get Interval scope name with
      | inr interval => interval
      | inl _ => {| i_min := e; i_max := e |}
      end
  | _ => {| i_min := e; i_max := e |}
  end.

(** The nodes of the programs in memory. *)
Definition memory : list Node :=
  [ good_f; good_g; good_root;
    bad_two; bad_f; bad_mul; bad_g; bad_root;
    scan_two; scan_f; scan_mul; scan_g; scan_root;
    square_a; square_b; square_root ].

Definition node_at (p : ptr) : option Node :=
  List.find (fun n => Pos.eqb (n_addr n) p) memory.

Definition deref_memory (p : ptr) : Expr :=
  match node_at p with
  | Some n => tree_of_node (n_node n)
  | None => IntImm i32 0
  end.

(** Modelled from the spec: [sort_expressions] of DerivativeUtils.h on the
    roots of the programs: the nodes below a root in post-order, operands
    before the node, the arguments of calls to functions left out. *)
Definition sorted_below (h : ExprRef) : list Node :=
  if Pos.eqb (addr h) 14%positive then [good_f; good_g; good_root]
  else if Pos.eqb (addr h) 24%positive then [bad_two; bad_f; bad_mul; bad_g; bad_root]
  else if Pos.eqb (addr h) 34%positive then [scan_two; scan_f; scan_mul; scan_g; scan_root]
  else if Pos.eqb (addr h) 42%positive then [square_a; square_b; square_root]
  else [ {| n_addr := addr h; n_node := NImm (tree h) |} ].

(** The collaborators for the programs above.  The programs bind no let
    variable, so [add_let_expression] and [substitute_in_all_lets] leave an
    expression as it is and [is_calling_function] needs no bindings; the
    scope handed to [and_condition_over_domain] is empty, so the condition
    stays as it is; the inherited handlers have nothing to do on constants
    and variables; the parts of the pass that are not modelled do
    nothing. *)
#[export] Instance collaborators : Externals :=
  {| simplify := simplify_fragment;
     can_prove := can_prove_fragment;
     is_const := is_const_value;
     extract_rdom := extract_rdom_first;
     and_condition_over_domain := fun cond _ => cond;
     is_calling_function_named := fun name e _ => calls_function name e;
     is_calling_function := fun e _ => calls_function "" e;
     boxes_overlap := boxes_overlap_unless_proved;
     bounds_of_expr_in_scope := bounds_in_scope;
     sort_expressions := sorted_below;
     add_let_expression := fun e _ _ => e;
     math := fun name args => Call f32 (name +:+ "_f32") args PureExtern None 0;
     deref := deref_memory;
     IRVisitor_visit := fun _ v => ok v;
     scatter_to_func := fun _ _ v => ok v;
     substitute_in_all_lets := fun e => e;
     substitute_expr := fun find replacement e =>
       if same_expr find e then replacement else e;
     split_predicate := fun rd =>
       if is_true_const (predicate rd) then [] else [predicate rd];
     equal := same_expr;
     std_sort := insertion_sort;
     gather_rvariables := rvariables_of;
     realization_order := fun output => [g; output];
     reverse_accumulation := fun _ _ _ _ _ _ => ok ∅ |}.

(** The same collaborators with a simplifier that leaves every expression
    as it is. *)
Definition unsimplified : Externals :=
  {| simplify := fun e => e;
     can_prove := can_prove_fragment;
     is_const := is_const_value;
     extract_rdom := extract_rdom_first;
     and_condition_over_domain := fun cond _ => cond;
     is_calling_function_named := fun name e _ => calls_function name e;
     is_calling_function := fun e _ => calls_function "" e;
     boxes_overlap := boxes_overlap_unless_proved;
     bounds_of_expr_in_scope := bounds_in_scope;
     sort_expressions := sorted_below;
     add_let_expression := fun e _ _ => e;
     math := fun name args => Call f32 (name +:+ "_f32") args PureExtern None 0;
     deref := deref_memory;
     IRVisitor_visit := fun _ v => ok v;
     scatter_to_func := fun _ _ v => ok v;
     substitute_in_all_lets := fun e => e;
     substitute_expr := fun find replacement e =>
       if same_expr find e then replacement else e;
     split_predicate := fun rd =>
       if is_true_const (predicate rd) then [] else [predicate rd];
     equal := same_expr;
     std_sort := insertion_sort;
     gather_rvariables := rvariables_of;
     realization_order := fun output => [g; output];
     reverse_accumulation := fun _ _ _ _ _ _ => ok ∅ |}.

(** A run of calls on a scope of integers, and the scope it ends in. *)
Definition Scope_example_ops : list (ScopeH.scope_op Z) :=
  [ScopeH.OpPush "x" 1; ScopeH.OpPush "y" 7; ScopeH.OpPush "x" 2;
   ScopeH.OpReplace "x" 3; ScopeH.OpPop "x"; ScopeH.OpPop "y"].

Definition Scope_example : ScopeH.Scope Z :=
  ScopeH.push Z 0 (ScopeH.Scope_new Z) "x" 1.

End Examples.

(** * Properties *)

(** ** The scoped symbol table *)

Section ScopeFacts.
Import ScopeH.
Variable T : Type.
Variable T_default : T.

Abbreviation Stack := (SmallStack T).
Abbreviation Scp := (Scope T).

Lemma SmallStack_push_not_empty (s : Stack) (t : T) :
  SmallStack_empty T (SmallStack_push T s t) = false.
Proof.
  unfold SmallStack_push, SmallStack_empty.
  destruct (_empty s) eqn:E; reflexivity.
Qed.

Lemma SmallStack_set_top_empty (s : Stack) (t : T) :
  SmallStack_empty T (SmallStack_set_top T s t) = SmallStack_empty T s.
Proof. reflexivity. Qed.

Lemma same_end_refl (o : option Stack) : same_end T o o = true.
Proof. unfold same_end. apply Bool.eqb_reflx. Qed.

Lemma tables_agree_new : tables_agree T (Scope_new T).
Proof.
  split; [reflexivity |].
  intros name st H. simpl in H. rewrite lookup_empty in H. discriminate.
Qed.

Lemma tables_agree_push (s : Scp) (name : string) (value : T) :
  tables_agree T s -> tables_agree T (push T T_default s name value).
Proof.
  intros [Heq Hne]. split.
  - unfold push; simpl. rewrite Heq. reflexivity.
  - intros n st. unfold push; simpl. rewrite lookup_insert.
    case_decide as Hn.
    + intros [= <-]. apply SmallStack_push_not_empty.
    + apply Hne.
Qed.

Lemma pop_entry_not_empty (t : gmap string Stack) (name : string) (st : Stack) :
  (forall n s, t !! n = Some s -> SmallStack_empty T s = false) ->
  forall n s, pop_entry T T_default t name st !! n = Some s ->
              SmallStack_empty T s = false.
Proof.
  intros Hne n s. unfold pop_entry.
  destruct (SmallStack_empty T (SmallStack_pop T T_default st)) eqn:E.
  - rewrite lookup_delete. case_decide; [discriminate | apply Hne].
  - rewrite lookup_insert. case_decide as Hn.
    + intros [= <-]. exact E.
    + apply Hne.
Qed.

Lemma tables_agree_pop (s s' : Scp) (name : string) :
  tables_agree T s -> pop T T_default s name = inr s' -> tables_agree T s'.
Proof.
  intros [Heq Hne]. unfold pop. rewrite Heq, same_end_refl. simpl.
  destruct (o_table s !! name) as [os|] eqn:Ho; [| discriminate].
  intros [= <-]. split; simpl.
  - reflexivity.
  - apply pop_entry_not_empty. exact Hne.
Qed.

Lemma tables_agree_replace (s s' : Scp) (name : string) (value : T) :
  tables_agree T s -> replace T s name value = inr s' -> tables_agree T s'.
Proof.
  intros [Heq Hne]. unfold replace. rewrite Heq, same_end_refl. simpl.
  destruct (o_table s !! name) as [os|] eqn:Ho; [| discriminate].
  destruct (SmallStack_empty T os) eqn:E; [discriminate |].
  intros [= <-]. split; simpl.
  - reflexivity.
  - intros n st. rewrite lookup_insert. case_decide as Hn.
    + intros [= <-]. rewrite SmallStack_set_top_empty. exact E.
    + apply Hne.
Qed.

Lemma tables_agree_step (s s' : Scp) (o : scope_op T) :
  tables_agree T s -> step T T_default s o = inr s' -> tables_agree T s'.
Proof.
  destruct o as [name value | name | name value]; simpl; intros H.
  - intros [= <-]. apply tables_agree_push, H.
  - apply tables_agree_pop, H.
  - apply tables_agree_replace, H.
Qed.

Lemma tables_agree_run (ops : list (scope_op T)) :
  forall s s' : Scp,
    tables_agree T s -> run T T_default ops s = inr s' -> tables_agree T s'.
Proof.
  induction ops as [| o ops IH]; intros s s' H; simpl.
  - intros [= <-]. exact H.
  - destruct (step T T_default s o) as [e | s1] eqn:Hs; simpl; [discriminate |].
    apply IH. eapply tables_agree_step; eauto.
Qed.

Lemma get_unfold (s : Scp) (name : string) :
  get T s name =
  if negb (same_end T (m_table s !! name) (o_table s !! name)) then fail InternalAssert
  else
    match o_table s !! name with
    | Some st =>
        if SmallStack_empty T st then
          match containing_scope s with
          | Some p => get T p name
          | None => fail (not_in_scope name)
          end
        else ok (SmallStack_top T st)
    | None =>
        match containing_scope s with
        | Some p => get T p name
        | None => fail (not_in_scope name)
        end
    end.
Proof. destruct s; reflexivity. Qed.

(** A name that was just pushed is bound to the pushed value. *)
Lemma get_push_same (s : Scp) (name : string) (value : T) :
  get T (push T T_default s name value) name = ok value.
Proof.
  rewrite get_unfold. unfold push; simpl. rewrite !lookup_insert_eq.
  unfold same_end. simpl. rewrite SmallStack_push_not_empty.
  unfold SmallStack_top, SmallStack_push. destruct (_empty _); reflexivity.
Qed.

(** Pushing a name does not touch the other names. *)
Lemma get_push_other (s : Scp) (name name' : string) (value : T) :
  name <> name' ->
  get T (push T T_default s name value) name' = get T s name'.
Proof.
  intros Hne. rewrite (get_unfold s), get_unfold. unfold push; simpl.
  rewrite !lookup_insert_ne by exact Hne. reflexivity.
Qed.

End ScopeFacts.

Section ScopeClaim.
Import ScopeH.
Variable T : Type.
Variable T_default : T.

Lemma exchanged_id (s : Scope T) : tables_agree T s -> exchanged T s = s.
Proof.
  intros [Heq _]. destruct s as [m o p]. simpl in Heq. subst o. reflexivity.
Qed.

(** C10: after any sequence of [push], [pop] and [replace] calls on a fresh
    scope that runs to its end, the ordered and the unordered table hold
    the same names with identical stacks, no stored stack is empty, and
    [get], [contains], [replace] and the iteration give the same answer
    whichever of the two tables they consult. *)
Theorem Scope_tables_agree (ops : list (scope_op T)) (s : Scope T) :
  run T T_default ops (Scope_new T) = inr s ->
  m_table s = o_table s /\
  (forall name st, m_table s !! name = Some st -> SmallStack_empty T st = false) /\
  (forall name st, o_table s !! name = Some st -> SmallStack_empty T st = false) /\
  (forall name, get T (exchanged T s) name = get T s name) /\
  (forall name, contains T (exchanged T s) name = contains T s name) /\
  (forall name value,
     replace T (exchanged T s) name value = replace T s name value) /\
  iterate_ordered T s = iterate_unordered T s.
Proof.
  intros Hrun.
  assert (Hinv : tables_agree T s).
  { eapply tables_agree_run; [apply tables_agree_new | exact Hrun]. }
  pose proof (exchanged_id s Hinv) as Hex.
  destruct Hinv as [Heq Hne].
  repeat split.
  - exact Heq.
  - intros name st. rewrite Heq. apply Hne.
  - exact Hne.
  - intros name. rewrite Hex. reflexivity.
  - intros name. rewrite Hex. reflexivity.
  - intros name value. rewrite Hex. reflexivity.
  - unfold iterate_ordered, iterate_unordered. rewrite Heq. reflexivity.
Qed.

End ScopeClaim.

Lemma Scope_tables_agree_witness :
  ScopeH.run Z 0 Examples.Scope_example_ops (ScopeH.Scope_new Z) = inr Examples.Scope_example /\
  ScopeH.m_table Examples.Scope_example = ScopeH.o_table Examples.Scope_example.
Proof.
  assert (H : ScopeH.run Z 0 Examples.Scope_example_ops (ScopeH.Scope_new Z)
              = inr Examples.Scope_example) by (vm_compute; reflexivity).
  split; [exact H |].
  exact (proj1 (Scope_tables_agree Z 0 Examples.Scope_example_ops Examples.Scope_example H)).
Defined.

(** ** Values of the expressions the handlers build *)

Section EvalFacts.
Import IR.

Lemma to_bool_of_bool (b : bool) : to_bool (of_bool b) = b.
Proof. destruct b; reflexivity. Qed.

Lemma eval_make_zero (env : Env) (t : Type_) : eval env (make_const t 0%Q) = 0%Q.
Proof. destruct t; reflexivity. Qed.

Lemma eval_select (env : Env) (c t f : Expr) :
  eval env (select c t f) = if to_bool (eval env c) then eval env t else eval env f.
Proof. reflexivity. Qed.

Lemma Qle_bool_lt_false (x y : Q) : (x < y)%Q -> Qle_bool y x = false.
Proof.
  intros H. destruct (Qle_bool y x) eqn:E; [| reflexivity].
  apply Qle_bool_iff in E. exfalso. exact (Qlt_not_le _ _ H E).
Qed.

Lemma Qle_bool_lt_true (x y : Q) : (x < y)%Q -> Qle_bool x y = true.
Proof. intros H. apply Qle_bool_iff. apply Qlt_le_weak, H. Qed.

Lemma Qle_bool_eq_true (x y : Q) : (x == y)%Q -> Qle_bool x y = true.
Proof. intros H. apply Qle_bool_iff. rewrite H. apply Qle_refl. Qed.

End EvalFacts.

(** ** Min and Max *)

Section MinMax.
Import IR Derivative Statements.

Lemma eval_Min_adjoint_a (env : Env) (a b d : Expr) :
  eval env (Min_adjoint_a a b d) =
  if Qle_bool (eval env a) (eval env b) then eval env d else 0%Q.
Proof.
  unfold Min_adjoint_a. rewrite eval_select, eval_make_zero. simpl.
  rewrite to_bool_of_bool. reflexivity.
Qed.

Lemma eval_Min_adjoint_b (env : Env) (a b d : Expr) :
  eval env (Min_adjoint_b a b d) =
  if Qle_bool (eval env b) (eval env a) then eval env d else 0%Q.
Proof.
  unfold Min_adjoint_b. rewrite eval_select, eval_make_zero. simpl.
  rewrite to_bool_of_bool. reflexivity.
Qed.

Lemma eval_Max_adjoint_a (env : Env) (a b d : Expr) :
  eval env (Max_adjoint_a a b d) =
  if Qle_bool (eval env b) (eval env a) then eval env d else 0%Q.
Proof.
  unfold Max_adjoint_a. rewrite eval_select, eval_make_zero. simpl.
  rewrite to_bool_of_bool. reflexivity.
Qed.

Lemma eval_Max_adjoint_b (env : Env) (a b d : Expr) :
  eval env (Max_adjoint_b a b d) =
  if Qle_bool (eval env a) (eval env b) then eval env d else 0%Q.
Proof.
  unfold Max_adjoint_b. rewrite eval_select, eval_make_zero. simpl.
  rewrite to_bool_of_bool. reflexivity.
Qed.

(** C4, as amended: the handlers of [Min] and [Max] push one contribution
    to each operand; at every point the operand that wins strictly
    receives the adjoint and the one that loses strictly receives 0, and
    at a tie both operands receive the full adjoint. *)
Theorem Min_Max_adjoint_routing (env : Env) (a b : ExprRef) (d : Expr) (v : visitor) :
  let va := eval env (tree a) in
  let vb := eval env (tree b) in
  let vd := eval env d in
  let min_a := Min_adjoint_a (tree a) (tree b) d in
  let min_b := Min_adjoint_b (tree a) (tree b) d in
  let max_a := Max_adjoint_a (tree a) (tree b) d in
  let max_b := Max_adjoint_b (tree a) (tree b) d in
  visit_Min a b d v = accumulate b min_b (accumulate a min_a v) /\
  visit_Max a b d v = accumulate b max_b (accumulate a max_a v) /\
  ((va < vb)%Q ->
     eval env min_a = vd /\ eval env min_b = 0%Q /\
     eval env max_a = 0%Q /\ eval env max_b = vd) /\
  ((vb < va)%Q ->
     eval env min_a = 0%Q /\ eval env min_b = vd /\
     eval env max_a = vd /\ eval env max_b = 0%Q) /\
  ((va == vb)%Q ->
     eval env min_a = vd /\ eval env min_b = vd /\
     eval env max_a = vd /\ eval env max_b = vd).
Proof.
  intros va vb vd min_a min_b max_a max_b.
  subst min_a min_b max_a max_b.
  rewrite eval_Min_adjoint_a, eval_Min_adjoint_b, eval_Max_adjoint_a, eval_Max_adjoint_b.
  fold va vb vd.
  split; [reflexivity |]. split; [reflexivity |].
  split; [| split].
  - intros H. rewrite (Qle_bool_lt_true _ _ H), (Qle_bool_lt_false _ _ H). auto.
  - intros H. rewrite (Qle_bool_lt_true _ _ H), (Qle_bool_lt_false _ _ H). auto.
  - intros H. rewrite (Qle_bool_eq_true _ _ H).
    rewrite (Qle_bool_eq_true vb va) by (symmetry; exact H). auto.
Qed.

End MinMax.

(** ** Accumulation *)

Section Accumulate.
Import IR Derivative Statements.

Lemma accumulate_map_same (stub : ExprRef) (adjoint : Expr) (ea : gmap ptr Expr) :
  accumulate_map stub adjoint ea !! addr stub = sum_onto (ea !! addr stub) [adjoint].
Proof.
  unfold accumulate_map.
  destruct (ea !! addr stub) as [old |] eqn:E; simpl; apply lookup_insert_eq.
Qed.

Lemma accumulate_map_other (stub : ExprRef) (adjoint : Expr) (ea : gmap ptr Expr)
    (p : ptr) :
  addr stub <> p -> accumulate_map stub adjoint ea !! p = ea !! p.
Proof.
  intros Hne. unfold accumulate_map.
  destruct (ea !! addr stub); apply lookup_insert_ne; exact Hne.
Qed.

Lemma sum_onto_app (entry : option Expr) (cs ds : list Expr) :
  sum_onto (sum_onto entry cs) ds = sum_onto entry (cs ++ ds).
Proof.
  destruct entry as [e |]; simpl.
  - rewrite fold_left_app. reflexivity.
  - destruct cs as [| c cs]; simpl; [reflexivity |].
    rewrite fold_left_app. reflexivity.
Qed.

Lemma accumulate_all_lookup (pushes : list (ExprRef * Expr)) :
  forall (ea : gmap ptr Expr) (p : ptr),
    accumulate_all pushes ea !! p = sum_onto (ea !! p) (contributions_to p pushes).
Proof.
  induction pushes as [| [stub adjoint] pushes IH]; intros ea p.
  - simpl. destruct (ea !! p); reflexivity.
  - unfold accumulate_all in *. simpl fold_left. rewrite IH.
    unfold contributions_to. simpl List.filter.
    simpl fst. simpl snd.
    destruct (Pos.eqb_spec (addr stub) p) as [Heq | Hne].
    + simpl List.map.
      match goal with
      | |- _ = sum_onto _ (adjoint :: ?l) =>
          change (adjoint :: l) with ([adjoint] ++ l)
      end.
      rewrite <- sum_onto_app. f_equal.
      rewrite <- Heq. apply accumulate_map_same.
    + rewrite accumulate_map_other by exact Hne. reflexivity.
Qed.

(** The value of a sum built by [+=] is the sum of the values. *)
Lemma eval_sum (env : Env) (cs : list Expr) :
  forall e : Expr,
    (eval env (fold_left plus_assign cs e) ==
     fold_left Qplus (List.map (eval env) cs) (eval env e))%Q.
Proof.
  induction cs as [| c cs IH]; intros e; simpl.
  - reflexivity.
  - rewrite IH. simpl. reflexivity.
Qed.

Lemma fold_Qplus_proper (qs : list Q) :
  forall x y : Q, (x == y)%Q -> (fold_left Qplus qs x == fold_left Qplus qs y)%Q.
Proof.
  induction qs as [| q qs IH]; intros x y H; simpl.
  - exact H.
  - apply IH. rewrite H. reflexivity.
Qed.

Lemma eval_sum_onto (env : Env) (entry : option Expr) (cs : list Expr) (e : Expr) :
  sum_onto entry cs = Some e -> (eval env e == sum_values env entry cs)%Q.
Proof.
  unfold sum_onto, sum_values. destruct entry as [e0 |].
  - intros [= <-]. apply eval_sum.
  - destruct cs as [| c cs]; [discriminate |].
    intros [= <-]. rewrite eval_sum. simpl.
    apply fold_Qplus_proper. symmetry. apply Qplus_0_l.
Qed.

(** The entry after a run of [accumulate] calls, its value, and two
    handlers as such runs. *)
Lemma accumulate_is_additive (pushes : list (ExprRef * Expr))
    (ea : gmap ptr Expr) (p : ptr) (env : Env) :
  accumulate_all pushes ea !! p = sum_onto (ea !! p) (contributions_to p pushes) /\
  (forall e : Expr, accumulate_all pushes ea !! p = Some e ->
     (eval env e == sum_values env (ea !! p) (contributions_to p pushes))%Q) /\
  (forall a b adjoint v,
     expr_adjoints (visit_Add a b adjoint v) =
     accumulate_all [(a, adjoint); (b, adjoint)] (expr_adjoints v)) /\
  (forall a b adjoint v,
     expr_adjoints (visit_Mul a b adjoint v) =
     accumulate_all [(a, Binary Mul adjoint (tree b)); (b, Binary Mul adjoint (tree a))]
       (expr_adjoints v)).
Proof.
  split; [apply accumulate_all_lookup |].
  split; [| split; reflexivity].
  intros e He. apply eval_sum_onto. rewrite <- He. symmetry.
  apply accumulate_all_lookup.
Qed.

End Accumulate.

(** ** The entry point *)

Section EntryPointFacts.
Import IR Derivative Statements.
Context `{Ext : Externals}.

Lemma check_dimensions_ok (output adjoint : Func) (output_bounds : list (Expr * Expr)) :
  check_dimensions output adjoint output_bounds = ok tt <->
  dimensions adjoint = dimensions output /\
  length output_bounds = dimensions output.
Proof.
  unfold check_dimensions.
  destruct (Nat.eqb_spec (dimensions output) (dimensions adjoint)) as [Hd | Hd]; simpl.
  - destruct (Nat.eqb_spec (length output_bounds) (dimensions adjoint)) as [Hb | Hb]; simpl.
    + split; [intros _; split; congruence | reflexivity].
    + split; [discriminate | intros [H1 H2]; congruence].
  - split; [discriminate | intros [H1 H2]; congruence].
Qed.

Lemma check_dimensions_cases (output adjoint : Func) (output_bounds : list (Expr * Expr)) :
  check_dimensions output adjoint output_bounds = ok tt \/
  check_dimensions output adjoint output_bounds = fail dimensions_must_match \/
  check_dimensions output adjoint output_bounds = fail bounds_must_match.
Proof.
  unfold check_dimensions.
  destruct (Nat.eqb (dimensions output) (dimensions adjoint)); simpl; [| auto].
  destruct (Nat.eqb (length output_bounds) (dimensions adjoint)); simpl; auto.
Qed.

(** C9: the entry point raises one of its two user errors, without running
    the visitor, exactly when the adjoint and the output differ in their
    number of dimensions or [output_bounds] has another length than the
    output has dimensions; when both match it runs the visitor and returns
    the adjoint map the visitor built. *)
Theorem propagate_adjoints_checks_dimensions (output adjoint : Func)
    (output_bounds : list (Expr * Expr)) :
  let mismatch :=
    dimensions adjoint <> dimensions output \/
    length output_bounds <> dimensions output in
  (mismatch <-> check_dimensions output adjoint output_bounds <> ok tt) /\
  (mismatch ->
   propagate_adjoints output adjoint output_bounds = fail dimensions_must_match \/
   propagate_adjoints output adjoint output_bounds = fail bounds_must_match) /\
  (~ mismatch ->
   propagate_adjoints output adjoint output_bounds =
   (let* adjoint_funcs :=
      ReverseAccumulationVisitor_propagate_adjoints output adjoint output_bounds in
    ok {| adjoints := adjoint_funcs |})) /\
  (~ mismatch ->
   forall adjoint_funcs,
     ReverseAccumulationVisitor_propagate_adjoints output adjoint output_bounds
     = ok adjoint_funcs ->
     propagate_adjoints output adjoint output_bounds
     = ok {| adjoints := adjoint_funcs |}).
Proof.
  intros mismatch.
  pose proof (check_dimensions_ok output adjoint output_bounds) as Hok.
  assert (Hiff : mismatch <-> check_dimensions output adjoint output_bounds <> ok tt).
  { unfold mismatch. split.
    - intros Hm Hc. apply Hok in Hc. destruct Hc, Hm; contradiction.
    - intros Hc.
      destruct (decide (dimensions adjoint = dimensions output)) as [Hd | Hd];
        [| left; exact Hd].
      destruct (decide (length output_bounds = dimensions output)) as [Hb | Hb];
        [| right; exact Hb].
      exfalso. apply Hc, Hok. split; assumption. }
  assert (Hmatch : ~ mismatch ->
            propagate_adjoints output adjoint output_bounds =
            (let* adjoint_funcs :=
               ReverseAccumulationVisitor_propagate_adjoints output adjoint
                 output_bounds in
             ok {| adjoints := adjoint_funcs |})).
  { intros Hn. unfold propagate_adjoints.
    destruct (check_dimensions_cases output adjoint output_bounds)
      as [Hc | [Hc | Hc]]; rewrite Hc; [reflexivity | |];
      exfalso; apply Hn, Hiff; rewrite Hc; discriminate. }
  split; [exact Hiff |]. split; [| split].
  - intros Hm. apply Hiff in Hm. unfold propagate_adjoints.
    destruct (check_dimensions_cases output adjoint output_bounds)
      as [Hc | [Hc | Hc]]; rewrite Hc; simpl; auto.
    contradiction.
  - exact Hmatch.
  - intros Hn adjoint_funcs Hv. rewrite (Hmatch Hn), Hv. reflexivity.
Qed.

End EntryPointFacts.

(** ** Forward overwrite detection: checking 1 *)

Section CheckingOne.
Import IR Derivative Statements.
Context `{Ext : Externals}.

Lemma check_pure_definition_spec (func : Func) (lets : gmap string ExprRef)
    (rhs_tuple : list Expr) :
  check_pure_definition func rhs_tuple lets =
  if existsb (fun rhs => is_calling_function rhs lets) rhs_tuple
  then fail (unsafe_overwrite func) else ok tt.
Proof.
  induction rhs_tuple as [| rhs rest IH]; simpl; [reflexivity |].
  destruct (is_calling_function rhs lets); simpl; [reflexivity | exact IH].
Qed.

Lemma check_previous_boxes_spec (func : Func) (current_box : Box) (prev : list Box) :
  Forall (fun b : Box => length b = length current_box) prev ->
  check_previous_boxes func current_box prev =
  if existsb (boxes_overlap current_box) prev
  then fail (unsafe_overwrite func) else ok tt.
Proof.
  induction prev as [| b rest IH]; intros Hlen; simpl; [reflexivity |].
  inversion Hlen as [| ? ? Hb Hrest]; subst.
  rewrite Hb, Nat.eqb_refl. simpl.
  destruct (boxes_overlap current_box b); simpl; [reflexivity | apply IH, Hrest].
Qed.

Lemma check_entry_spec (func : Func) (boxes : list Box) (update_id : nat)
    (lets : gmap string ExprRef) (entry : ptr * Expr) :
  boxes_well_formed boxes update_id ->
  check_entry func boxes update_id lets entry =
  if entry_overwritten func boxes update_id lets entry
  then fail (unsafe_overwrite func)
  else ok (used_by_others_entry func entry).
Proof.
  intros (current_box & Hcur & Hlen).
  unfold check_entry, entry_overwritten. rewrite Hcur.
  destruct (self_referencing_entry func lets entry); simpl; [| reflexivity].
  rewrite check_pure_definition_spec.
  destruct (existsb _ (f_values func)); simpl; [reflexivity |].
  rewrite (check_previous_boxes_spec _ _ _ Hlen).
  destruct (existsb _ (take update_id boxes)); reflexivity.
Qed.

Lemma check_entries_spec (func : Func) (boxes : list Box) (update_id : nat)
    (lets : gmap string ExprRef) (entries : list (ptr * Expr)) :
  boxes_well_formed boxes update_id ->
  forall used : bool,
    check_entries func boxes update_id lets entries used =
    if existsb (entry_overwritten func boxes update_id lets) entries
    then fail (unsafe_overwrite func)
    else ok (used || existsb (used_by_others_entry func) entries).
Proof.
  intros Hwf. induction entries as [| entry rest IH]; intros used; simpl.
  - rewrite orb_false_r. reflexivity.
  - rewrite (check_entry_spec _ _ _ _ _ Hwf).
    destruct (entry_overwritten func boxes update_id lets entry); simpl;
      [reflexivity |].
    rewrite IH.
    destruct (existsb (entry_overwritten func boxes update_id lets) rest);
      [reflexivity |].
    destruct (used_by_others_entry func entry), used; reflexivity.
Qed.

Lemma entries_in_order_elem (ea : gmap ptr Expr) (p : ptr) (e : Expr) :
  (p, e) ∈ entries_in_order ea <-> ea !! p = Some e.
Proof.
  unfold entries_in_order. rewrite merge_sort_Permutation.
  apply elem_of_map_to_list.
Qed.

Lemma existsb_entries (ea : gmap ptr Expr) (f : ptr * Expr -> bool) :
  existsb f (entries_in_order ea) = true <->
  exists p e, ea !! p = Some e /\ f (p, e) = true.
Proof.
  rewrite existsb_exists. split.
  - intros ([p e] & Hin & Hf). exists p, e. split; [| exact Hf].
    apply entries_in_order_elem, list_elem_of_In, Hin.
  - intros (p & e & Hl & Hf). exists (p, e). split; [| exact Hf].
    apply list_elem_of_In, entries_in_order_elem, Hl.
Qed.

End CheckingOne.

Section CheckingOneClaim.
Import IR Derivative Statements.
Context `{Ext : Externals}.

Lemma update_box_length (upd : UpdateDefinition) :
  length (update_box upd) = length (u_args upd).
Proof. unfold update_box. apply length_map. Qed.

Lemma compute_boxes_well_formed (func : Func) (update_id : nat) :
  updates_well_formed func ->
  (update_id < num_update_definitions func)%nat ->
  boxes_well_formed (compute_boxes func) update_id.
Proof.
  intros Hwf Hlt. unfold boxes_well_formed, compute_boxes, num_update_definitions in *.
  destruct (lookup_lt_is_Some_2 (f_updates func) update_id Hlt) as [upd Hupd].
  exists (update_box upd). split.
  - change (List.map update_box (f_updates func)) with (update_box <$> f_updates func).
    rewrite list_lookup_fmap, Hupd. reflexivity.
  - apply Forall_take.
    unfold updates_well_formed in Hwf.
    rewrite Forall_forall in Hwf. apply Forall_forall.
    intros b Hb. apply list_elem_of_In, in_map_iff in Hb.
    destruct Hb as (u & <- & Hu).
    rewrite !update_box_length.
    rewrite (Hwf u) by (apply list_elem_of_In; exact Hu).
    symmetry. apply Hwf. eapply list_elem_of_lookup_2, Hupd.
Qed.

Lemma fold_push_other (rvars : list ReductionVariable) (name : string) :
  forall scope : ScopeH.Scope Interval,
    ~ In name (List.map var rvars) ->
    ScopeH.get Interval (fold_left push_rvar rvars scope) name
    = ScopeH.get Interval scope name.
Proof.
  induction rvars as [| r0 rest IH]; intros scope Hnot; simpl; [reflexivity |].
  rewrite IH by (intros H; apply Hnot; right; exact H).
  apply get_push_other. intros Heq. apply Hnot. left. exact Heq.
Qed.

Lemma fold_push_get (rvars : list ReductionVariable) (r : ReductionVariable) :
  forall scope : ScopeH.Scope Interval,
    List.NoDup (List.map var rvars) -> In r rvars ->
    ScopeH.get Interval (fold_left push_rvar rvars scope) (var r)
    = ok (rvar_interval r).
Proof.
  induction rvars as [| r0 rest IH]; intros scope Hnd Hin; [destruct Hin |].
  simpl in Hnd. inversion Hnd as [| ? ? Hnot Hnd']; subst.
  simpl. destruct Hin as [-> | Hin].
  - rewrite fold_push_other by exact Hnot. apply get_push_same.
  - apply IH; assumption.
Qed.

(** The scope in which an argument of an update is bounded binds every
    variable of the argument's reduction domain to the interval from its
    [min] to the simplified [min + extent + 1]. *)
Lemma arg_scope_binds (a : Expr) (rdom : ReductionDomain) (r : ReductionVariable) :
  extract_rdom a = Some rdom ->
  List.NoDup (List.map var (domain rdom)) -> In r (domain rdom) ->
  ScopeH.get Interval (arg_scope a) (var r) =
  ok {| i_min := min r;
        i_max := simplify (Binary Add (Binary Add (min r) (extent r))
                                      (IntImm (Int 32) 1)) |}.
Proof.
  intros Hrd Hnd Hin. unfold arg_scope. rewrite Hrd.
  apply (fold_push_get (domain rdom) r _ Hnd Hin).
Qed.

Lemma entry_overwritten_iff (func : Func) (boxes : list Box) (update_id : nat)
    (lets : gmap string ExprRef) (p : ptr) (e : Expr) :
  entry_overwritten func boxes update_id lets (p, e) = true <->
  overwritten_use func boxes update_id lets p e.
Proof.
  unfold entry_overwritten, overwritten_use, self_referencing_entry. simpl.
  rewrite andb_true_iff, andb_true_iff, orb_true_iff, existsb_exists.
  split.
  - intros [[Ht Hc] Hor]. split; [exact Ht |]. split; [exact Hc |].
    destruct Hor as [Hpure | Hbox]; [left; exact Hpure | right].
    destruct (boxes !! update_id) as [current_box |] eqn:Hcur; [| discriminate].
    apply existsb_exists in Hbox. destruct Hbox as (prev_box & Hin & Hov).
    apply list_elem_of_In, list_elem_of_lookup in Hin. destruct Hin as [i Hi].
    apply lookup_take_Some in Hi. destruct Hi as [Hi Hlt].
    exists i, prev_box, current_box. auto.
  - intros (Ht & Hc & Hor). split; [split; assumption |].
    destruct Hor as [Hpure | Hbox]; [left; exact Hpure | right].
    destruct Hbox as (i & prev_box & current_box & Hlt & Hi & Hcur & Hov).
    rewrite Hcur. apply existsb_exists. exists prev_box. split; [| exact Hov].
    apply list_elem_of_In. eapply list_elem_of_lookup_2.
    apply lookup_take_Some. split; [exact Hi | exact Hlt].
Qed.

(** C2: checking 1 of the forward overwrite detection.  For an update of a
    well-formed function, the check raises the diagnostic exactly when some
    entry of the adjoint map deposits to a function or an image while its
    adjoint calls the current function (the self-reference the check looks
    for), and either the pure definition calls a function or an image or
    the box of an earlier update is not found disjoint from the box of this
    update; otherwise the check passes and tells whether an adjoint deposits
    to another function.  The box of an update bounds every argument in a
    scope that binds the variables of its reduction domain to their
    intervals. *)
Theorem overwritten_use_raises_diagnostic (func : Func) (update_id : nat) (v : visitor) :
  updates_well_formed func ->
  (update_id < num_update_definitions func)%nat ->
  let boxes := compute_boxes func in
  let check := check_uses_of_overwritten func boxes update_id v in
  let overwritten :=
    exists p e, expr_adjoints v !! p = Some e /\
                overwritten_use func boxes update_id (let_var_mapping v) p e in
  (overwritten <-> check = fail (unsafe_overwrite func)) /\
  (~ overwritten <->
   check = ok (existsb (used_by_others_entry func) (entries_in_order (expr_adjoints v))))
  /\
  (forall (prev_id : nat) (upd : UpdateDefinition),
     f_updates func !! prev_id = Some upd ->
     boxes !! prev_id =
     Some (List.map (fun a => bounds_of_expr_in_scope a (arg_scope a)) (u_args upd)))
  /\
  (forall (a : Expr) (rdom : ReductionDomain) (r : ReductionVariable),
     extract_rdom a = Some rdom ->
     List.NoDup (List.map var (domain rdom)) -> In r (domain rdom) ->
     ScopeH.get Interval (arg_scope a) (var r) =
     ok {| i_min := min r;
           i_max := simplify (Binary Add (Binary Add (min r) (extent r))
                                         (IntImm (Int 32) 1)) |}).
Proof.
  intros Hwf Hlt boxes check overwritten.
  pose proof (compute_boxes_well_formed func update_id Hwf Hlt) as Hb.
  assert (Hspec :
    check =
    if existsb (entry_overwritten func boxes update_id (let_var_mapping v))
         (entries_in_order (expr_adjoints v))
    then fail (unsafe_overwrite func)
    else ok (existsb (used_by_others_entry func) (entries_in_order (expr_adjoints v)))).
  { unfold check, check_uses_of_overwritten.
    rewrite (check_entries_spec _ _ _ _ _ Hb). reflexivity. }
  assert (Hex :
    existsb (entry_overwritten func boxes update_id (let_var_mapping v))
      (entries_in_order (expr_adjoints v)) = true <-> overwritten).
  { rewrite existsb_entries. unfold overwritten.
    split; intros (p & e & Hl & H); exists p, e; (split; [exact Hl |]);
      apply entry_overwritten_iff; exact H. }
  split; [| split; [| split]].
  - rewrite <- Hex, Hspec. unfold ok, fail.
    destruct (existsb _ _); split; congruence.
  - rewrite <- Hex, Hspec. destruct (existsb _ _); split.
    + intros H. exfalso. apply H. reflexivity.
    + discriminate.
    + reflexivity.
    + intros _. discriminate.
  - intros prev_id upd Hupd. unfold boxes, compute_boxes.
    change (List.map update_box (f_updates func)) with (update_box <$> f_updates func).
    rewrite list_lookup_fmap, Hupd. reflexivity.
  - apply arg_scope_binds.
Qed.

End CheckingOneClaim.

(** ** Forward overwrite detection: checking 2 *)

Section CheckingTwo.
Import IR Derivative Statements.
Context `{Ext : Externals}.

Lemma is_not_overwriting_loop_proven (update_args : list Expr)
    (varying : ScopeH.Scope Interval) (all_args : list (list Expr)) :
  forall b r : bool,
    is_not_overwriting_loop all_args update_args varying b = ok r ->
    r = b && forallb (proven_not_overwriting update_args varying) all_args.
Proof.
  induction all_args as [| a rest IH]; intros b r; simpl.
  - intros [= <-]. rewrite andb_true_r. reflexivity.
  - destruct (negb _); [discriminate |]. intros H. apply IH in H.
    rewrite H. unfold proven_not_overwriting. rewrite andb_assoc. reflexivity.
Qed.

Lemma check_self_reference_clear (func : Func) (upd : UpdateDefinition)
    (used : bool) (v : visitor) (ea : gmap ptr Expr) :
  check_self_reference func upd used (set_expr_adjoints v ea) =
  check_self_reference func upd used v.
Proof. reflexivity. Qed.

(** C3, as amended: checking 2 records an update as a non overwriting scan
    exactly when the self-reference adjoint is not all 0 or 1, the update
    has reduction variables and the prover shows, for every recorded
    self-reference, that some coordinate differs from the write location;
    whether the adjoint is used by other functions plays no part, and the
    key of a recorded update is inserted in [non_overwriting_scans]. *)
Theorem non_overwriting_scan_marking (func : Func) (upd : UpdateDefinition)
    (update_id : nat) (adjoints_used_by_others : bool) (v : visitor) (scan : bool)
    (scans : gset FuncKey) :
  check_self_reference func upd adjoints_used_by_others v = ok scan ->
  (scan = true <->
   all_zero_or_one_self_adjoint v = false /\
   has_reduction_var upd = true /\
   is_not_overwriting upd v = ok true) /\
  (scan = true ->
   forallb (proven_not_overwriting (u_args upd) (ScopeH.Scope_new Interval))
     (self_reference_args v) = true) /\
  (scan = true ->
   forall used : bool, check_self_reference func upd used v = ok true) /\
  ((f_name func, Z.of_nat update_id) ∈ insert_scan func update_id scan scans <->
   scan = true \/ (f_name func, Z.of_nat update_id) ∈ scans).
Proof.
  intros Hcheck.
  assert (Hiff : scan = true <->
            all_zero_or_one_self_adjoint v = false /\
            has_reduction_var upd = true /\
            is_not_overwriting upd v = ok true).
  { revert Hcheck. unfold check_self_reference.
    destruct (all_zero_or_one_self_adjoint v), (has_reduction_var upd); simpl;
      try (intros [= <-]; split; [discriminate | intros (? & ? & ?); discriminate]).
    destruct (is_not_overwriting upd v) as [e | no]; simpl; [discriminate |].
    destruct no; simpl.
    - intros [= <-]. split; auto.
    - destruct adjoints_used_by_others; simpl; [discriminate |].
      intros [= <-]. split; [discriminate |].
      intros (_ & _ & H). discriminate. }
  split; [exact Hiff |]. split; [| split].
  - intros Hs. apply Hiff in Hs. destruct Hs as (_ & _ & Hno).
    unfold is_not_overwriting in Hno.
    destruct (match first_rdom (u_args upd) with
              | Some r => Some r
              | None => first_rdom (List.map tree (u_values upd))
              end); [| discriminate].
    apply is_not_overwriting_loop_proven in Hno. simpl in Hno. symmetry. exact Hno.
  - intros Hs used. apply Hiff in Hs. destruct Hs as (H1 & H2 & H3).
    unfold check_self_reference. rewrite H1, H2, H3. reflexivity.
  - unfold insert_scan. destruct scan.
    + rewrite elem_of_union, elem_of_singleton. split; auto.
    + split; [auto | intros [H | H]; [discriminate | exact H]].
Qed.

End CheckingTwo.

(** ** Forward overwrite detection: the loops *)

Section DetectionLoops.
Import IR Derivative Statements.
Context `{Ext : Externals}.

Lemma detect_updates_app (func : Func) (boxes : list Box) (us1 us2 : list UpdateDefinition) :
  forall (update_id : nat) (v : visitor) (scans : gset FuncKey),
    detect_updates func boxes update_id (us1 ++ us2) v scans =
    (let* pr := detect_updates func boxes update_id us1 v scans in
     let '(v', scans') := pr in
     detect_updates func boxes (update_id + length us1) us2 v' scans').
Proof.
  induction us1 as [| u us1 IH]; intros update_id v scans; simpl.
  - rewrite Nat.add_0_r. reflexivity.
  - destruct (detect_update func boxes update_id u v) as [e | [v' scan]]; simpl;
      [reflexivity |].
    rewrite IH. replace (S update_id + length us1)%nat
      with (update_id + S (length us1))%nat by lia.
    reflexivity.
Qed.

Lemma detect_funcs_app (fs1 fs2 : list Func) :
  forall (v : visitor) (scans : gset FuncKey),
    detect_funcs (fs1 ++ fs2) v scans =
    (let* pr := detect_funcs fs1 v scans in
     let '(v', scans') := pr in
     detect_funcs fs2 v' scans').
Proof.
  induction fs1 as [| f fs1 IH]; intros v scans; simpl; [reflexivity |].
  destruct (detect_func f v scans) as [e | [v' scans']]; simpl; [reflexivity |].
  apply IH.
Qed.

(** An update that violates checking 2 while other functions use the
    adjoint makes the body of the loop fail with the diagnostic: either
    checking 1 raised it already, or checking 2 does. *)
Lemma detect_update_unsafe (func : Func) (boxes : list Box) (update_id : nat)
    (upd : UpdateDefinition) (v v1 : visitor) (p : ptr) (e : Expr) :
  boxes_well_formed boxes update_id ->
  differentiate_update func upd v = ok v1 ->
  all_zero_or_one_self_adjoint v1 = false ->
  has_reduction_var upd = true ->
  is_not_overwriting upd v1 = ok false ->
  expr_adjoints v1 !! p = Some e ->
  used_by_others_entry func (p, e) = true ->
  detect_update func boxes update_id upd v = fail (unsafe_overwrite func).
Proof.
  intros Hb Hdiff H01 Hrv Hno Hp Hused.
  unfold detect_update. rewrite Hdiff. simpl.
  unfold check_uses_of_overwritten. rewrite (check_entries_spec _ _ _ _ _ Hb).
  destruct (existsb (entry_overwritten _ _ _ _) _); simpl; [reflexivity |].
  assert (Hex : existsb (used_by_others_entry func)
                  (entries_in_order (expr_adjoints v1)) = true).
  { apply existsb_entries. exists p, e. split; assumption. }
  rewrite Hex. rewrite check_self_reference_clear.
  unfold check_self_reference. rewrite H01, Hrv, Hno. reflexivity.
Qed.

End DetectionLoops.

Section UnsafeOverwrite.
Import IR Derivative Statements.

Lemma reached_unsafe_update_aborts `{Ext : Externals}
    (output adjoint : Func) (output_bounds : list (Expr * Expr))
    (funcs1 funcs2 : list Func) (func : Func)
    (upds1 upds2 : list UpdateDefinition) (upd : UpdateDefinition)
    (v v1 : visitor) (p : ptr) (e : Expr) :
  check_dimensions output adjoint output_bounds = ok tt ->
  realization_order output = funcs1 ++ func :: funcs2 ->
  f_updates func = upds1 ++ upd :: upds2 ->
  updates_well_formed func ->
  detection_reaches funcs1 func upds1 v ->
  differentiate_update func upd v = ok v1 ->
  all_zero_or_one_self_adjoint v1 = false ->
  has_reduction_var upd = true ->
  is_not_overwriting upd v1 = ok false ->
  expr_adjoints v1 !! p = Some e ->
  used_by_others_entry func (p, e) = true ->
  forward_overwrite_detection (realization_order output) visitor_new
  = fail (unsafe_overwrite func) /\
  propagate_adjoints output adjoint output_bounds = fail (unsafe_overwrite func).
Proof.
  intros Hdim Horder Hupds Hwf (va & sa & sb & Hfs & Hus) Hdiff H01 Hrv Hno Hp Hused.
  assert (Hdet : forward_overwrite_detection (realization_order output) visitor_new
                 = fail (unsafe_overwrite func)).
  { unfold forward_overwrite_detection. rewrite Horder.
    rewrite length_app. simpl length.
    replace (length funcs1 + S (length funcs2))%nat
      with (S (length funcs1 + length funcs2)) by lia.
    simpl Nat.eqb. cbv iota.
    rewrite detect_funcs_app, Hfs. simpl.
    unfold detect_func. rewrite Hupds, detect_updates_app, Hus. simpl.
    rewrite (detect_update_unsafe func _ _ upd v v1 p e); try assumption.
    - reflexivity.
    - apply compute_boxes_well_formed; [exact Hwf |].
      unfold num_update_definitions. rewrite Hupds, length_app. simpl. lia. }
  split; [exact Hdet |].
  unfold propagate_adjoints. rewrite Hdim. simpl.
  unfold ReverseAccumulationVisitor_propagate_adjoints. rewrite Hdet. reflexivity.
Qed.

End UnsafeOverwrite.

Section UnsafeOverwriteClaim.
Import IR Derivative Statements Examples.

(** C1: when the pass reaches an update whose self-reference adjoint is
    not all 0 or 1 and which has reduction variables, the non-overwriting
    condition is not proven and some adjoint deposits to another function
    or image, [propagate_adjoints] aborts with the unsafe-overwrite error
    that names the function.  On the worked examples,
    [f(x) = f(x) + g(r.x)] passes the detection with no scan recorded and
    [f(x) = 2 * f(x) + g(r.x)] raises the error. *)
Theorem unsafe_overwrite_aborts :
  (forall (Ext : Externals)
          (output adjoint : Func) (output_bounds : list (Expr * Expr))
          (funcs1 funcs2 : list Func) (func : Func)
          (upds1 upds2 : list UpdateDefinition) (upd : UpdateDefinition)
          (v v1 : visitor) (p : ptr) (e : Expr),
     check_dimensions output adjoint output_bounds = ok tt ->
     realization_order output = funcs1 ++ func :: funcs2 ->
     f_updates func = upds1 ++ upd :: upds2 ->
     updates_well_formed func ->
     detection_reaches funcs1 func upds1 v ->
     differentiate_update func upd v = ok v1 ->
     all_zero_or_one_self_adjoint v1 = false ->
     has_reduction_var upd = true ->
     is_not_overwriting upd v1 = ok false ->
     expr_adjoints v1 !! p = Some e ->
     used_by_others_entry func (p, e) = true ->
     propagate_adjoints output adjoint output_bounds = fail (unsafe_overwrite func)) /\
  (exists v, forward_overwrite_detection [g; f_good] visitor_new = ok (v, ∅)) /\
  forward_overwrite_detection [g; f_bad] visitor_new = fail (unsafe_overwrite f_bad).
Proof.
  split; [| split].
  - intros. eapply reached_unsafe_update_aborts; eassumption.
  - eexists. vm_compute. reflexivity.
  - vm_compute. reflexivity.
Qed.

Lemma unsafe_overwrite_aborts_witness :
  propagate_adjoints f_bad g [(IntImm i32 0, IntImm i32 9)]
  = fail (unsafe_overwrite f_bad).
Proof.
  refine (proj1 unsafe_overwrite_aborts collaborators f_bad g _ [g] [] f_bad [] []
            _ _ _ 23%positive (FloatImm f32 1%Q) _ _ _ _ _ _ _ _ _ _ _).
  - reflexivity.
  - reflexivity.
  - reflexivity.
  - repeat constructor.
  - eexists _, _, _. split; vm_compute; reflexivity.
  - vm_compute. reflexivity.
  - vm_compute. reflexivity.
  - reflexivity.
  - vm_compute. reflexivity.
  - vm_compute. reflexivity.
  - vm_compute. reflexivity.
Defined.

End UnsafeOverwriteClaim.

Section ScanClaim.
Import IR Derivative Statements Examples.

(** C3, the claim as stated fails: in [f(x, r.x + 1) = 2 * f(x, r.x) + g(r.x)]
    the adjoint deposits to [g], that is [adjoints_used_by_others] holds,
    and the update is recorded as a non overwriting scan all the same. *)
Lemma scan_marked_though_used_by_others :
  detection_reaches [g] f_scan [] entry_state /\
  (let* v1 := differentiate_update f_scan scan_update entry_state in
   check_uses_of_overwritten f_scan (compute_boxes f_scan) 0 v1) = ok true /\
  (exists v, detect_update f_scan (compute_boxes f_scan) 0 scan_update entry_state
             = ok (v, true)) /\
  (exists v, forward_overwrite_detection [g; f_scan] visitor_new
             = ok (v, {[ ("f", 0%Z) ]})).
Proof.
  split; [| split; [| split]].
  - eexists _, _, _. split; vm_compute; reflexivity.
  - vm_compute. reflexivity.
  - eexists. vm_compute. reflexivity.
  - eexists. vm_compute. reflexivity.
Qed.

Lemma non_overwriting_scan_marking_witness :
  check_self_reference f_scan scan_update true scan_state = ok true /\
  check_self_reference f_scan scan_update false scan_state = ok true.
Proof.
  assert (H : check_self_reference f_scan scan_update true scan_state = ok true)
    by (vm_compute; reflexivity).
  split; [exact H |].
  exact (proj1 (proj2 (proj2
           (non_overwriting_scan_marking f_scan scan_update 0 true scan_state true ∅ H)))
           eq_refl false).
Defined.

Lemma square_state_reached :
  differentiate_update f_square square_update entry_state = ok square_state.
Proof. vm_compute. reflexivity. Qed.

Lemma overwritten_use_raises_diagnostic_witness :
  differentiate_update f_square square_update entry_state = ok square_state /\
  check_uses_of_overwritten f_square (compute_boxes f_square) 0 square_state
  = fail (unsafe_overwrite f_square).
Proof.
  split; [exact square_state_reached |].
  refine (proj1 (proj1
            (overwritten_use_raises_diagnostic f_square 0 square_state _ _)) _).
  - repeat constructor.
  - unfold num_update_definitions. simpl. lia.
  - exists 40%positive, (Binary Mul (FloatImm f32 1%Q) (tree (handle_of square_b))).
    split; [vm_compute; reflexivity |].
    split; [vm_compute; reflexivity |].
    split; [vm_compute; reflexivity |].
    left. eexists. split; [left; reflexivity | vm_compute; reflexivity].
Defined.

End ScanClaim.

Section MinMaxClaim.
Import IR Derivative Statements Examples.

(** C4, the claim as stated fails: at a point where the operands of
    [min(x, y)] and of [max(x, y)] are equal, the second operand receives
    the full adjoint 1 as the first one does, not 0. *)
Lemma Min_Max_tie_reaches_both_operands :
  (eval tie_env (tree tie_a) == eval tie_env (tree tie_b))%Q /\
  eval tie_env (Min_adjoint_a (tree tie_a) (tree tie_b) tie_d) = 1%Q /\
  eval tie_env (Min_adjoint_b (tree tie_a) (tree tie_b) tie_d) = 1%Q /\
  eval tie_env (Max_adjoint_a (tree tie_a) (tree tie_b) tie_d) = 1%Q /\
  eval tie_env (Max_adjoint_b (tree tie_a) (tree tie_b) tie_d) = 1%Q /\
  ~ (eval tie_env (Min_adjoint_b (tree tie_a) (tree tie_b) tie_d) == 0)%Q /\
  ~ (eval tie_env (Max_adjoint_b (tree tie_a) (tree tie_b) tie_d) == 0)%Q.
Proof.
  repeat split; try reflexivity; vm_compute; discriminate.
Qed.

Lemma Min_Max_adjoint_routing_witness :
  (eval less_env (Min_adjoint_a (tree tie_a) (tree tie_b) tie_d) = 1%Q /\
   eval less_env (Min_adjoint_b (tree tie_a) (tree tie_b) tie_d) = 0%Q /\
   eval less_env (Max_adjoint_a (tree tie_a) (tree tie_b) tie_d) = 0%Q /\
   eval less_env (Max_adjoint_b (tree tie_a) (tree tie_b) tie_d) = 1%Q) /\
  (eval tie_env (Min_adjoint_a (tree tie_a) (tree tie_b) tie_d) = 1%Q /\
   eval tie_env (Min_adjoint_b (tree tie_a) (tree tie_b) tie_d) = 1%Q /\
   eval tie_env (Max_adjoint_a (tree tie_a) (tree tie_b) tie_d) = 1%Q /\
   eval tie_env (Max_adjoint_b (tree tie_a) (tree tie_b) tie_d) = 1%Q).
Proof.
  split.
  - apply (proj1 (proj2 (proj2
             (Min_Max_adjoint_routing less_env tie_a tie_b tie_d visitor_new)))).
    reflexivity.
  - apply (proj2 (proj2 (proj2 (proj2
             (Min_Max_adjoint_routing tie_env tie_a tie_b tie_d visitor_new))))).
    reflexivity.
Defined.



Lemma propagate_adjoints_checks_dimensions_witness :
  propagate_adjoints f_scan g [(IntImm i32 0, IntImm i32 9)]
  = fail dimensions_must_match \/
  propagate_adjoints f_scan g [(IntImm i32 0, IntImm i32 9)]
  = fail bounds_must_match.
Proof.
  apply (proj1 (proj2
           (propagate_adjoints_checks_dimensions f_scan g
              [(IntImm i32 0, IntImm i32 9)]))).
  left. vm_compute. discriminate.
Defined.

End MinMaxClaim.

(** ** Scatter canonicalisation: the rule behind [&& false] *)

Section SpanningRvarRule.
Import IR Derivative Statements.
Context `{Ext : Externals}.

Lemma collapse_spanning_rvar_unchanged (func_bounds : gmap string Box)
    (op_name : string) (func_to_update_args : list string) (i : nat)
    (name : string) (rdom : ReductionDomain) (lhs : list Expr) (adjoint : Expr)
    (r : list Expr * Expr) :
  collapse_spanning_rvar func_bounds op_name func_to_update_args i name rdom
    lhs adjoint = ok r ->
  r = (lhs, adjoint).
Proof.
  unfold collapse_spanning_rvar.
  destruct (find_rvar name rdom) as [e | rvar]; simpl; [discriminate |].
  destruct (vector_at (default [] (func_bounds !! op_name)) i) as [e | t_interval];
    simpl; [discriminate |].
  rewrite andb_false_r. intros [= <-]. reflexivity.
Qed.

Lemma simplify_coordinate_variable (func_bounds : gmap string Box)
    (op_name : string) (func_to_update_args : list string) (i : nat)
    (lhs : list Expr) (adjoint : Expr) (lhs_i : Expr) (t : Type_) (name : string)
    (rd : option ReductionDomain) (r : list Expr * Expr) :
  lhs !! i = Some lhs_i ->
  substitute_in_all_lets lhs_i = Variable_ t name rd ->
  simplify_coordinate func_bounds op_name func_to_update_args i lhs adjoint = ok r ->
  r = (lhs, adjoint).
Proof.
  intros Hi Hvar. unfold simplify_coordinate, vector_at. rewrite Hi. simpl.
  rewrite Hvar. destruct rd as [rdom |].
  - destruct (Nat.eqb (length (split_predicate rdom)) 0).
    + apply collapse_spanning_rvar_unchanged.
    + intros [= <-]. reflexivity.
  - intros [= <-]. reflexivity.
Qed.

Lemma simplify_coordinates_variables (func_bounds : gmap string Box)
    (op_name : string) (func_to_update_args : list string) (lhs : list Expr)
    (adjoint : Expr) (indices : list nat) (r : list Expr * Expr) :
  (forall i lhs_i, lhs !! i = Some lhs_i ->
     exists t name rd, substitute_in_all_lets lhs_i = Variable_ t name rd) ->
  Forall (fun i => i < length lhs)%nat indices ->
  simplify_coordinates func_bounds op_name func_to_update_args indices lhs adjoint
  = ok r ->
  r = (lhs, adjoint).
Proof.
  intros Hvars. induction indices as [| i rest IH]; intros Hlt; simpl.
  - intros [= <-]. reflexivity.
  - inversion Hlt as [| ? ? Hi Hrest]; subst.
    destruct (lookup_lt_is_Some_2 lhs i Hi) as [lhs_i Hl].
    destruct (Hvars i lhs_i Hl) as (t & name & rd & Hv).
    destruct (simplify_coordinate func_bounds op_name func_to_update_args i lhs adjoint)
      as [e | r1] eqn:Hstep; simpl; [discriminate |].
    apply (simplify_coordinate_variable _ _ _ _ _ _ _ _ _ _ _ Hl Hv) in Hstep.
    subst r1. apply IH, Hrest.
Qed.

(** C8: the rule that collapses a coordinate made of one reduction variable
    spanning the bound of the target into a pure variable is never
    applied.  Whatever the prover answers, the rule returns the left-hand
    side and the adjoint as they were (and it does return when the variable
    is found in its domain and the target has a bound for the coordinate);
    the body of the loop leaves a coordinate that is a variable unchanged,
    and so does the whole loop when every coordinate is a variable. *)
Theorem spanning_rvar_rule_never_applies (func_bounds : gmap string Box)
    (op_name : string) (func_to_update_args : list string)
    (lhs : list Expr) (adjoint : Expr) :
  (forall i name rdom r,
     collapse_spanning_rvar func_bounds op_name func_to_update_args i name rdom
       lhs adjoint = ok r ->
     r = (lhs, adjoint)) /\
  (forall i name rdom rvar t_interval,
     find_rvar name rdom = ok rvar ->
     vector_at (default [] (func_bounds !! op_name)) i = ok t_interval ->
     collapse_spanning_rvar func_bounds op_name func_to_update_args i name rdom
       lhs adjoint = ok (lhs, adjoint)) /\
  (forall i lhs_i t name rd r,
     lhs !! i = Some lhs_i ->
     substitute_in_all_lets lhs_i = Variable_ t name rd ->
     simplify_coordinate func_bounds op_name func_to_update_args i lhs adjoint = ok r ->
     r = (lhs, adjoint)) /\
  (forall r,
     (forall i lhs_i, lhs !! i = Some lhs_i ->
        exists t name rd, substitute_in_all_lets lhs_i = Variable_ t name rd) ->
     general_scattering_simplification func_bounds op_name func_to_update_args
       lhs adjoint = ok r ->
     r = (lhs, adjoint)).
Proof.
  split; [| split; [| split]].
  - intros i name rdom r. apply collapse_spanning_rvar_unchanged.
  - intros i name rdom rvar t_interval Hfind Hbound.
    unfold collapse_spanning_rvar. rewrite Hfind. simpl. rewrite Hbound. simpl.
    rewrite andb_false_r. reflexivity.
  - intros i lhs_i t name rd r. apply simplify_coordinate_variable.
  - intros r Hvars. unfold general_scattering_simplification.
    apply simplify_coordinates_variables; [exact Hvars |].
    apply Forall_forall. intros i Hi. apply list_elem_of_In, in_seq in Hi. lia.
Qed.

End SpanningRvarRule.

(** ** Substitution *)

Section SubstitutionFacts.
Import IR.

Lemma map_ext_Forall {A B : Type} (f g : A -> B) (l : list A) :
  Forall (fun x => f x = g x) l -> List.map f l = List.map g l.
Proof.
  induction 1 as [| x l Hx _ IH]; simpl; [reflexivity |]. rewrite Hx, IH. reflexivity.
Qed.

Lemma substitute_all_ext (e : Expr) :
  forall sigma sigma' : string -> option Expr,
    (forall x, sigma x = sigma' x) ->
    substitute_all sigma e = substitute_all sigma' e.
Proof.
  induction e using Expr_nested_ind; intros sigma sigma' Hext; simpl;
    try reflexivity.
  - rewrite (IHe _ _ Hext). reflexivity.
  - rewrite Hext. reflexivity.
  - rewrite (IHe1 _ _ Hext), (IHe2 _ _ Hext). reflexivity.
  - rewrite (IHe _ _ Hext). reflexivity.
  - rewrite (IHe1 _ _ Hext), (IHe2 _ _ Hext), (IHe3 _ _ Hext). reflexivity.
  - rewrite (IHe1 _ _ Hext). f_equal. apply IHe2.
    intros x. rewrite Hext. reflexivity.
  - f_equal. apply map_ext_Forall.
    eapply Forall_impl; [exact H |]. intros x Hx. apply Hx, Hext.
Qed.

Lemma in_concat_map {A B : Type} (f : A -> list B) (l : list A) (a : A) (b : B) :
  In a l -> In b (f a) -> In b (List.concat (List.map f l)).
Proof.
  intros Ha Hb. apply in_concat. exists (f a). split; [| exact Hb].
  apply in_map, Ha.
Qed.

(** An expression in which no substituted variable occurs free stays as it
    is. *)
Lemma substitute_all_closed (e : Expr) :
  forall sigma : string -> option Expr,
    (forall x, In x (free_vars e) -> sigma x = None) ->
    substitute_all sigma e = e.
Proof.
  induction e using Expr_nested_ind; intros sigma Hfree; simpl in *;
    try reflexivity.
  - rewrite IHe by exact Hfree. reflexivity.
  - rewrite Hfree by (left; reflexivity). reflexivity.
  - rewrite IHe1, IHe2; [reflexivity | |];
      intros x Hx; apply Hfree, in_or_app; auto.
  - rewrite IHe by exact Hfree. reflexivity.
  - rewrite IHe1, IHe2, IHe3; [reflexivity | | |];
      intros x Hx; apply Hfree; repeat (apply in_or_app; auto).
    + right. apply in_or_app. auto.
    + right. apply in_or_app. auto.
  - rewrite IHe1, IHe2; [reflexivity | |].
    + intros x Hx. destruct (String.eqb n x) eqn:E; [reflexivity |].
      apply Hfree, in_or_app. right. apply filter_In. split; [exact Hx |].
      rewrite E. reflexivity.
    + intros x Hx. apply Hfree, in_or_app. auto.
  - f_equal. rewrite <- (map_id args) at 2. apply map_ext_Forall.
    rewrite Forall_forall in H. apply Forall_forall. intros a Ha.
    apply H; [exact Ha |]. intros x Hx. apply Hfree.
    eapply in_concat_map; [apply list_elem_of_In, Ha | exact Hx].
Qed.

End SubstitutionFacts.

Section SubstitutionChain.
Import IR Derivative Statements.

(** Substituting one variable and then several others at once is one
    simultaneous substitution, when the others do not occur in the
    replacement. *)
Lemma substitute_then_all (name : string) (replacement : Expr) (e : Expr) :
  forall sigma : string -> option Expr,
    sigma name = None ->
    (forall x, In x (free_vars replacement) -> sigma x = None) ->
    substitute_all sigma (substitute name replacement e) =
    substitute_all (extend sigma name replacement) e.
Proof.
  induction e using Expr_nested_ind; intros sigma Hname Hrep; simpl;
    try reflexivity.
  - rewrite IHe by assumption. reflexivity.
  - unfold extend. destruct (String.eqb n name) eqn:E.
    + apply substitute_all_closed, Hrep.
    + reflexivity.
  - rewrite IHe1, IHe2 by assumption. reflexivity.
  - rewrite IHe by assumption. reflexivity.
  - rewrite IHe1, IHe2, IHe3 by assumption. reflexivity.
  - rewrite IHe1 by assumption. f_equal.
    destruct (String.eqb n name) eqn:E.
    + apply String.eqb_eq in E. subst n.
      apply substitute_all_ext. intros x. unfold extend.
      destruct (String.eqb name x) eqn:E1; [reflexivity |].
      rewrite String.eqb_sym, E1. reflexivity.
    + rewrite IHe2.
      * apply substitute_all_ext. intros x. unfold extend.
        destruct (String.eqb x name) eqn:E1.
        -- apply String.eqb_eq in E1. subst x. rewrite E. reflexivity.
        -- reflexivity.
      * rewrite E. exact Hname.
      * intros x Hx. destruct (String.eqb n x); [reflexivity | apply Hrep, Hx].
  - f_equal. rewrite map_map. apply map_ext_Forall.
    eapply Forall_impl; [exact H |]. intros a Ha. apply Ha; assumption.
Qed.

End SubstitutionChain.

(** ** Scatter canonicalisation: flipping the original reduction variables *)

Section Flip.
Import IR Derivative Statements.
Context `{Ext : Externals}.

Lemma flipped_ok (org : gmap string ReductionVariableInfo) (name : string)
    (info : ReductionVariableInfo) :
  gathered_well_formed org -> org !! name = Some info ->
  flipped info = ok (flip_replacement name info).
Proof.
  intros Hwf Hl. destruct (Hwf name info Hl) as (rv & Hrv & Hname).
  unfold flipped, RVar_expr, vector_at. rewrite Hrv. simpl. rewrite Hname.
  reflexivity.
Qed.

Lemma flip_expr_list (l : list (string * ReductionVariableInfo)) :
  NoDup l.*1 ->
  (forall it, it ∈ l -> flipped it.2 = ok (flip_replacement it.1 it.2)) ->
  (forall it x, it ∈ l -> x ∈ l.*1 -> ~ In x (free_vars (rvar_max it.2))) ->
  forall e : Expr, flip_expr l e = ok (substitute_all (flip_list l) e).
Proof.
  induction l as [| it rest IH]; intros Hnd Hfl Hfree e.
  - simpl. rewrite substitute_all_closed; [reflexivity |].
    intros x _. unfold flip_list, flip_map. simpl. rewrite lookup_empty. reflexivity.
  - simpl flip_expr. rewrite (Hfl it) by left. simpl.
    apply NoDup_cons in Hnd. destruct Hnd as [Hnotin Hnd].
    rewrite IH.
    + f_equal. rewrite substitute_then_all.
      * apply substitute_all_ext. intros x. unfold extend, flip_list, flip_map.
        simpl. rewrite lookup_insert.
        destruct (String.eqb_spec x it.1) as [-> | Hne].
        -- rewrite decide_True by reflexivity. reflexivity.
        -- rewrite decide_False by congruence. reflexivity.
      * unfold flip_list, flip_map.
        rewrite (not_elem_of_list_to_map_1 _ _ Hnotin). reflexivity.
      * intros x Hx. unfold flip_list, flip_map.
        destruct (list_to_map rest !! x) as [info |] eqn:Hlx; [| reflexivity].
        exfalso. apply elem_of_list_to_map_2 in Hlx.
        assert (Hxin : x ∈ rest.*1).
        { apply list_elem_of_fmap. exists (x, info). split; [reflexivity | exact Hlx]. }
        simpl in Hx. apply in_app_or in Hx. destruct Hx as [Hx | [Hx | []]].
        -- apply (Hfree it x); [left | right; exact Hxin | exact Hx].
        -- subst x. contradiction.
    + exact Hnd.
    + intros it' Hin. apply Hfl. right. exact Hin.
    + intros it' x Hin Hx. apply Hfree; right; assumption.
Qed.

Lemma flip_exprs_list (l : list (string * ReductionVariableInfo)) (es : list Expr) :
  (forall e : Expr, flip_expr l e = ok (substitute_all (flip_list l) e)) ->
  flip_exprs l es = ok (List.map (substitute_all (flip_list l)) es).
Proof.
  intros H. induction es as [| e rest IH]; simpl; [reflexivity |].
  rewrite H, IH. reflexivity.
Qed.

Lemma rvars_in_order_to_map (org : gmap string ReductionVariableInfo) :
  list_to_map (rvars_in_order org) = org.
Proof.
  unfold rvars_in_order.
  rewrite <- (list_to_map_to_list org) at 2.
  apply list_to_map_proper.
  - rewrite merge_sort_Permutation. apply NoDup_fst_map_to_list.
  - apply merge_sort_Permutation.
Qed.

Lemma rvars_in_order_elem (org : gmap string ReductionVariableInfo)
    (it : string * ReductionVariableInfo) :
  it ∈ rvars_in_order org <-> org !! it.1 = Some it.2.
Proof.
  unfold rvars_in_order. rewrite merge_sort_Permutation.
  destruct it as [name info]. apply elem_of_map_to_list.
Qed.

Lemma gather_all_rvariables_lookup (lhs : list Expr) (name : string) :
  forall m : gmap string ReductionVariableInfo,
    is_Some (fold_left (fun m lhs_arg => m ∪ gather_rvariables lhs_arg) lhs m !! name)
    <->
    is_Some (m !! name) \/
    exists lhs_arg, In lhs_arg lhs /\ is_Some (gather_rvariables lhs_arg !! name).
Proof.
  induction lhs as [| l rest IH]; intros m; simpl.
  - split; [auto | intros [H | (l & [] & _)]; exact H].
  - rewrite IH, lookup_union_is_Some. split.
    + intros [[H | H] | (l' & Hin & H)]; eauto.
    + intros [H | (l' & [<- | Hin] & H)]; eauto.
Qed.

(** C6: when the current update is a non overwriting scan, the flipping
    step replaces, in every coordinate of the left-hand side and in the
    adjoint, every reduction variable [r] that was gathered from the
    adjoint and the left-hand side before the canonicalisation by
    [max - r], where [max] is the simplified [min + extent - 1] of [r]; the
    variables that were not gathered then, the newly introduced ones, are
    left as they are; when the update is no such scan nothing is
    replaced. *)
Theorem original_rvars_are_flipped
    (adjoint_before_canonicalize : Expr) (lhs_before_canonicalize : list Expr)
    (lhs : list Expr) (adjoint : Expr) :
  let org_rvar_maps :=
    gather_all_rvariables adjoint_before_canonicalize lhs_before_canonicalize in
  gathered_well_formed org_rvar_maps ->
  bounds_free_of_rvars org_rvar_maps ->
  flip_original_rvars true org_rvar_maps lhs adjoint =
    ok (List.map (substitute_all (flip_map org_rvar_maps)) lhs,
        substitute_all (flip_map org_rvar_maps) adjoint) /\
  (forall name,
     is_Some (org_rvar_maps !! name) <->
     is_Some (gather_rvariables adjoint_before_canonicalize !! name) \/
     exists lhs_arg, In lhs_arg lhs_before_canonicalize /\
                     is_Some (gather_rvariables lhs_arg !! name)) /\
  (forall name info,
     org_rvar_maps !! name = Some info ->
     flip_map org_rvar_maps name =
     Some (Binary Sub
             (simplify (Binary Sub (Binary Add (info_min info) (info_extent info))
                                   (IntImm (Int 32) 1)))
             (Variable_ (Int 32) name (Some (info_domain info))))) /\
  (forall name, org_rvar_maps !! name = None -> flip_map org_rvar_maps name = None) /\
  (forall e,
     (forall x, In x (free_vars e) -> org_rvar_maps !! x = None) ->
     substitute_all (flip_map org_rvar_maps) e = e) /\
  flip_original_rvars false org_rvar_maps lhs adjoint = ok (lhs, adjoint).
Proof.
  intros org_rvar_maps Hwf Hfree.
  assert (Hlist : forall e : Expr,
            flip_expr (rvars_in_order org_rvar_maps) e =
            ok (substitute_all (flip_map org_rvar_maps) e)).
  { intros e. rewrite flip_expr_list.
    - unfold flip_list. rewrite rvars_in_order_to_map. reflexivity.
    - unfold rvars_in_order. rewrite merge_sort_Permutation.
      apply NoDup_fst_map_to_list.
    - intros it Hin. apply rvars_in_order_elem in Hin.
      eapply flipped_ok; eassumption.
    - intros it x Hin Hx. apply rvars_in_order_elem in Hin.
      apply (Hfree it.1 it.2 x Hin).
      apply list_elem_of_fmap in Hx. destruct Hx as (it' & -> & Hin').
      apply rvars_in_order_elem in Hin'. eauto. }
  split; [| split; [| split; [| split; [| split]]]].
  - unfold flip_original_rvars. rewrite flip_exprs_list.
    + simpl. rewrite Hlist. simpl.
      unfold flip_list. rewrite rvars_in_order_to_map. reflexivity.
    + intros e. rewrite Hlist. unfold flip_list.
      rewrite rvars_in_order_to_map. reflexivity.
  - intros name. apply gather_all_rvariables_lookup.
  - intros name info Hl. unfold flip_map. rewrite Hl. reflexivity.
  - intros name Hl. unfold flip_map. rewrite Hl. reflexivity.
  - intros e He. apply substitute_all_closed. intros x Hx.
    unfold flip_map. rewrite (He x Hx). reflexivity.
  - reflexivity.
Qed.

End Flip.

(** ** Scatter canonicalisation: the order of the merged domain *)

Section MergedOrder.
Import IR Derivative Statements Examples.

(** C7, the code at the failing input: two newly introduced reduction
    variables, [r300$y] with index 1 in the domain at the lower address and
    [r301$x] with index 0 in the domain at the higher address.  The
    comparison handed to [std::sort] puts each of them before the other, so
    it is no order by domain and index; sorting by insertion with it lists
    the variable of the later domain first. *)
Theorem cmp_rv_is_not_an_order :
  partition_rvars new_rvar_maps ∅ = ([rv_y; rv_x], []) /\
  cmp_rv rv_y rv_x = true /\
  cmp_rv rv_x rv_y = true /\
  by_domain_then_index rv_y rv_x = true /\
  by_domain_then_index rv_x rv_y = false /\
  var_names new_rvar_maps ∅ = ["r301$x"; "r300$y"] /\
  merged_bounds new_rvar_maps ∅ =
    [(IntImm i32 0, IntImm i32 8); (IntImm i32 0, IntImm i32 6)] /\
  rdom_predicate new_rvar_maps = const_true.
Proof.
  repeat split; vm_compute; reflexivity.
Qed.

End MergedOrder.

Section CanonicalizationWitnesses.
Import IR Derivative Statements Examples.

Lemma spanning_rvar_rule_never_applies_witness :
  can_prove
    (Binary And
       (Binary LE (simplify (IntImm i32 0)) (simplify (IntImm i32 0)))
       (Binary GE
          (simplify (Binary Sub (Binary Add (IntImm i32 0) (IntImm i32 10))
                                (IntImm i32 1)))
          (simplify (IntImm i32 9)))) = true /\
  collapse_spanning_rvar target_bounds "g" ["x"] 0 "r$x" r [r_x] flip_adjoint
  = ok ([r_x], flip_adjoint).
Proof.
  split; [vm_compute; reflexivity |].
  refine (proj1 (proj2
            (spanning_rvar_rule_never_applies target_bounds "g" ["x"] [r_x]
               flip_adjoint)) 0%nat "r$x" r _ _ _ _);
    vm_compute; reflexivity.
Defined.

Lemma original_rvars_are_flipped_witness :
  flip_original_rvars true
    (gather_all_rvariables flip_adjoint_before flip_lhs) flip_lhs flip_adjoint =
  ok ([x;
       Binary Add (Binary Sub (IntImm i32 9) r_x) (IntImm i32 1)],
      Binary Mul
        (Call f32 "g" [Binary Sub (IntImm i32 9) r_x] Halide (Some g_contents) 0)
        (Variable_ i32 "r301$x" (Some subset_domain))).
Proof.
  assert (Horg : gather_all_rvariables flip_adjoint_before flip_lhs
                 = {[ "r$x" := r_info ]}) by (vm_compute; reflexivity).
  refine (eq_trans
            (proj1 (original_rvars_are_flipped flip_adjoint_before flip_lhs
                      flip_lhs flip_adjoint _ _))
            _).
  - rewrite Horg. intros name info H.
    apply lookup_singleton_Some in H. destruct H as [<- <-].
    eexists. split; reflexivity.
  - rewrite Horg. intros name info y Hl [info' Hy] Hin.
    apply lookup_singleton_Some in Hl. destruct Hl as [_ <-].
    vm_compute in Hin. exact Hin.
  - vm_compute. reflexivity.
Defined.

End CanonicalizationWitnesses.

(** ** The adjoint of a node when the traversal reaches it *)

Section Traversal.
Import IR Derivative Statements.
Context `{Ext : Externals}.

Lemma accumulate_all_app (p1 p2 : list (ExprRef * Expr)) (ea : gmap ptr Expr) :
  accumulate_all (p1 ++ p2) ea = accumulate_all p2 (accumulate_all p1 ea).
Proof. unfold accumulate_all. apply fold_left_app. Qed.

Lemma pushed_refl (lets : gmap string ExprRef) (n : IRNode) (v : visitor) :
  pushed lets n v v.
Proof. exists []. repeat split. constructor. Qed.

Lemma pushed_accumulate (lets : gmap string ExprRef) (n : IRNode) (v v1 : visitor)
    (stub : ExprRef) (adjoint : Expr) :
  pushed lets n v v1 -> In (addr stub) (operands lets n) ->
  pushed lets n v (accumulate stub adjoint v1).
Proof.
  intros (pushes & Hea & Hall & Hlets & Hphase) Hin.
  exists (pushes ++ [(stub, adjoint)]). repeat split.
  - rewrite accumulate_all_app, <- Hea. reflexivity.
  - apply Forall_app. split; [exact Hall |]. constructor; [exact Hin | constructor].
  - exact Hlets.
  - exact Hphase.
Qed.

Lemma pushed_set_self_reference (lets : gmap string ExprRef) (n : IRNode)
    (v v1 : visitor) (adj : list Expr) (args : list (list Expr)) :
  pushed lets n v v1 -> pushed lets n v (set_self_reference v1 adj args).
Proof.
  intros (pushes & Hea & Hall & Hlets & Hphase). exists pushes. repeat split; assumption.
Qed.

Lemma arg_In (args : list ExprRef) (i : nat) (a : ExprRef) :
  arg args i = ok a -> In (addr a) (List.map addr args).
Proof.
  unfold arg. destruct (args !! i) as [a' |] eqn:E; [| discriminate].
  intros [= <-]. apply in_map. apply list_elem_of_In. eapply list_elem_of_lookup_2, E.
Qed.

Lemma pushed_fold_zero (lets : gmap string ExprRef) (n : IRNode) (zero : Expr)
    (args : list ExprRef) :
  forall v v1 : visitor,
    pushed lets n v v1 ->
    (forall a, In a args -> In (addr a) (operands lets n)) ->
    pushed lets n v (fold_left (fun v a => accumulate a zero v) args v1).
Proof.
  induction args as [| a rest IH]; intros v v1 Hp Hin; simpl; [exact Hp |].
  apply IH.
  - apply pushed_accumulate; [exact Hp | apply Hin; left; reflexivity].
  - intros b Hb. apply Hin. right. exact Hb.
Qed.

Ltac step_arg :=
  match goal with
  | |- context [arg ?args ?i] =>
      let E := fresh "E" in
      destruct (arg args i) as [? | ?] eqn:E; simpl; [discriminate |];
      apply arg_In in E
  end.

Ltac close_pushed :=
  intros [= <-];
  repeat (apply pushed_accumulate; [| simpl; auto]);
  apply pushed_refl.

Lemma visit_Call_extern_pushed (lets : gmap string ExprRef) (type : Type_)
    (name : string) (args : list ExprRef) (ct : CallType) (fn : option ptr)
    (vi : nat) (adjoint : Expr) (v v' : visitor) :
  visit_Call_extern type name args adjoint v = ok v' ->
  pushed lets (NCall type name args ct fn vi) v v'.
Proof.
  unfold visit_Call_extern.
  repeat match goal with
         | |- context [if ?b then _ else _] => destruct b
         end;
    try discriminate; repeat step_arg; close_pushed.
Qed.

Lemma visit_Call_intrinsic_pushed (lets : gmap string ExprRef) (type : Type_)
    (name : string) (args : list ExprRef) (ct : CallType) (fn : option ptr)
    (vi : nat) (adjoint : Expr) (v v' : visitor) :
  visit_Call_intrinsic type name args adjoint v = ok v' ->
  pushed lets (NCall type name args ct fn vi) v v'.
Proof.
  unfold visit_Call_intrinsic.
  repeat match goal with
         | |- context [if ?b then _ else _] => destruct b
         end;
    try (repeat step_arg; close_pushed).
  intros [= <-]. apply pushed_fold_zero; [apply pushed_refl |].
  intros a Ha. simpl. apply in_map, Ha.
Qed.

Lemma visit_Call_detect_pushed (lets : gmap string ExprRef) (n : IRNode)
    (args : list ExprRef) (fn : option ptr) (vi : nat) (adjoint : Expr)
    (v v' : visitor) :
  visit_Call_detect args fn vi adjoint v = ok v' -> pushed lets n v v'.
Proof.
  unfold visit_Call_detect.
  destruct (bool_decide (fn = Some (current_func v))).
  - destruct (tuple_get (self_reference_adjoint v) vi) as [e | old]; simpl;
      [discriminate |].
    destruct (tuple_set (self_reference_adjoint v) vi _) as [e | t]; simpl;
      [discriminate |].
    intros [= <-]. apply pushed_set_self_reference, pushed_refl.
  - intros [= <-]. apply pushed_refl.
Qed.

Ltac with_adjoint v n :=
  destruct (adjoint_of (n_addr n) v) as [? | adjoint]; simpl; [discriminate |].

(** Every handler of the class pushes to nodes its node consumes and to
    nothing else. *)
Lemma visit_pushed (n : Node) (v v' : visitor) :
  own_handler v n = true -> visit n v = ok v' ->
  pushed (let_var_mapping v) (n_node n) v v'.
Proof.
  unfold own_handler, visit. destruct (n_node n) as
    [e | type value | type name rd | op a b | a | c t f | name value body
     | type name args ct fn vi]; intros Hown.
  - intros [= <-]. apply pushed_refl.
  - with_adjoint v n. unfold visit_Cast. destruct (is_float type); close_pushed.
  - with_adjoint v n. unfold visit_Variable.
    destruct (let_var_mapping v !! name) as [value |] eqn:E.
    + intros [= <-]. apply pushed_accumulate; [apply pushed_refl |].
      simpl. rewrite E. left. reflexivity.
    + intros [= <-]. apply pushed_refl.
  - destruct op; try discriminate; with_adjoint v n;
      unfold visit_Add, visit_Sub, visit_Mul, visit_Div, visit_Min, visit_Max;
      close_pushed.
  - discriminate.
  - with_adjoint v n. unfold visit_Select. close_pushed.
  - with_adjoint v n. unfold visit_Let. close_pushed.
  - with_adjoint v n. unfold visit_Call.
    destruct (is_extern ct) eqn:Hext; [apply visit_Call_extern_pushed |].
    destruct (is_intrinsic ct) eqn:Hint; [apply visit_Call_intrinsic_pushed |].
    simpl in Hown. rewrite Hown.
    destruct ct; try discriminate; apply visit_Call_detect_pushed.
Qed.

Lemma own_handler_phase (v v1 : visitor) (m : Node) :
  is_forward_overwrite_detection_phase v1 = is_forward_overwrite_detection_phase v ->
  own_handler v1 m = own_handler v m.
Proof. intros H. unfold own_handler. rewrite H. reflexivity. Qed.

Lemma accept_all_app (l1 l2 : list Node) :
  forall v : visitor,
    accept_all (l1 ++ l2) v = (let* v1 := accept_all l1 v in accept_all l2 v1).
Proof.
  induction l1 as [| n l1 IH]; intros v; simpl; [reflexivity |].
  destruct (visit n v) as [e | v1]; simpl; [reflexivity | apply IH].
Qed.

Lemma accept_all_pushed (l : list Node) :
  forall v v1 : visitor,
    Forall (fun m => own_handler v m = true) l ->
    accept_all l v = ok v1 ->
    exists pushes,
      expr_adjoints v1 = accumulate_all pushes (expr_adjoints v) /\
      Forall (pushed_by_consumer (let_var_mapping v) l) pushes /\
      let_var_mapping v1 = let_var_mapping v /\
      is_forward_overwrite_detection_phase v1 = is_forward_overwrite_detection_phase v.
Proof.
  induction l as [| n rest IH]; intros v v1 Hown; simpl.
  - intros [= <-]. exists []. repeat split. constructor.
  - inversion Hown as [| ? ? Hn Hrest]; subst.
    destruct (visit n v) as [e | v2] eqn:Hvisit; simpl; [discriminate |].
    intros Hacc.
    destruct (visit_pushed n v v2 Hn Hvisit) as (p1 & Hea1 & Hall1 & Hlets1 & Hph1).
    destruct (IH v2 v1) as (p2 & Hea2 & Hall2 & Hlets2 & Hph2).
    { eapply Forall_impl; [exact Hrest |]. intros m Hm. simpl in Hm.
      rewrite (own_handler_phase v v2 m Hph1). exact Hm. }
    { exact Hacc. }
    exists (p1 ++ p2). repeat split.
    + rewrite accumulate_all_app, <- Hea1. exact Hea2.
    + apply Forall_app. split.
      * eapply Forall_impl; [exact Hall1 |]. intros c Hc. exists n. split;
          [left; reflexivity | exact Hc].
      * eapply Forall_impl; [exact Hall2 |]. intros c (m & Hm & Hc).
        exists m. split; [right; exact Hm |]. rewrite <- Hlets1. exact Hc.
    + congruence.
    + congruence.
Qed.

Lemma contributions_to_none (lets : gmap string ExprRef) (l : list Node) (p : ptr)
    (pushes : list (ExprRef * Expr)) :
  Forall (pushed_by_consumer lets l) pushes ->
  (forall m, In m l -> ~ In p (operands lets (n_node m))) ->
  contributions_to p pushes = [].
Proof.
  intros Hall Hno. unfold contributions_to.
  induction Hall as [| c rest (m & Hm & Hc) _ IH]; simpl; [reflexivity |].
  destruct (Pos.eqb_spec (addr c.1) p) as [Heq | Hne]; [| exact IH].
  exfalso. apply (Hno m Hm). rewrite <- Heq. exact Hc.
Qed.

Lemma sum_onto_nil (entry : option Expr) : sum_onto entry [] = entry.
Proof. destruct entry; reflexivity. Qed.

(** C5: accumulation is additive.  After any run of [accumulate] calls the
    entry of a node is the sum, built by [+=] in the order of the calls, of
    all contributions pushed to it, the first one initialising an entry that
    did not exist, and its value at every point is the sum of their values.
    In a traversal handled by the visitor's own handlers, when a node is
    reached its entry is that sum over the contributions of the nodes
    visited before it, each pushed by a node that consumes it; and when no
    node from there on consumes it, this is its entry for the rest of the
    step. *)
Theorem adjoint_is_sum_of_contributions :
  (forall (pushes : list (ExprRef * Expr)) (ea : gmap ptr Expr) (p : ptr) (env : Env),
     accumulate_all pushes ea !! p
       = sum_onto (ea !! p) (contributions_to p pushes) /\
     (forall e : Expr,
        accumulate_all pushes ea !! p = Some e ->
        (eval env e == sum_values env (ea !! p) (contributions_to p pushes))%Q)) /\
  (forall (l1 l2 : list Node) (n : Node) (v v' : visitor),
     Forall (fun m => own_handler v m = true) l1 ->
     accept_all (l1 ++ n :: l2) v = ok v' ->
     exists (v1 : visitor) (pushes : list (ExprRef * Expr)),
       accept_all l1 v = ok v1 /\
       Forall (pushed_by_consumer (let_var_mapping v) l1) pushes /\
       expr_adjoints v1 !! n_addr n
         = sum_onto (expr_adjoints v !! n_addr n)
                    (contributions_to (n_addr n) pushes) /\
       (Forall (fun m => own_handler v m = true) (n :: l2) ->
        (forall m, In m (n :: l2) ->
                   ~ In (n_addr n) (operands (let_var_mapping v) (n_node m))) ->
        expr_adjoints v' !! n_addr n = expr_adjoints v1 !! n_addr n)).
Proof.
  split.
  - intros pushes ea p env.
    destruct (accumulate_is_additive pushes ea p env) as (H1 & H2 & _).
    split; [exact H1 | exact H2].
  - intros l1 l2 n v v' Hown Hacc.
    rewrite accept_all_app in Hacc.
    destruct (accept_all l1 v) as [e | v1] eqn:H1; simpl in Hacc; [discriminate |].
    destruct (accept_all_pushed l1 v v1 Hown H1) as (pushes & Hea & Hall & Hlets & Hph).
    exists v1, pushes. split; [reflexivity |]. split; [exact Hall |]. split.
    + rewrite Hea. apply accumulate_all_lookup.
    + intros Hown2 Hno.
      destruct (accept_all_pushed (n :: l2) v1 v') as (p2 & Hea2 & Hall2 & _ & _).
      * eapply Forall_impl; [exact Hown2 |]. intros m Hm. simpl in Hm.
        rewrite (own_handler_phase v v1 m Hph). exact Hm.
      * exact Hacc.
      * rewrite Hea2, accumulate_all_lookup.
        rewrite (contributions_to_none (let_var_mapping v1) (n :: l2)).
        -- apply sum_onto_nil.
        -- exact Hall2.
        -- rewrite Hlets. exact Hno.
Qed.

End Traversal.

Section TraversalWitness.
Import IR Derivative Statements Examples.

Lemma adjoint_is_sum_of_contributions_witness :
  (eval tie_env (Binary Add (tree tie_a) (tree tie_b)) ==
   sum_values tie_env None [tree tie_a; tree tie_b])%Q /\
  exists v1 pushes,
    accept_all [bad_root; bad_g] entry_state_seeded = ok v1 /\
    Forall (pushed_by_consumer ∅ [bad_root; bad_g]) pushes /\
    expr_adjoints v1 !! 22%positive
      = sum_onto None (contributions_to 22%positive pushes).
Proof.
  split.
  - refine (proj2 (proj1 adjoint_is_sum_of_contributions
              [(tie_a, tree tie_a); (tie_b, tree tie_b); (tie_a, tree tie_b)]
              ∅ 50%positive tie_env) _ _).
    vm_compute. reflexivity.
  - destruct (proj2 adjoint_is_sum_of_contributions
                [bad_root; bad_g] [bad_f; bad_two] bad_mul entry_state_seeded
                (set_self_reference
                   (set_expr_adjoints entry_state_seeded
                      {[ 20%positive :=
                           Binary Mul (FloatImm f32 1%Q) (tree (handle_of bad_f));
                         21%positive :=
                           Binary Mul (FloatImm f32 1%Q) (tree (handle_of bad_two));
                         22%positive := FloatImm f32 1%Q;
                         23%positive := FloatImm f32 1%Q;
                         24%positive := FloatImm f32 1%Q ]})
                   [FloatImm f32 2%Q] [[x]]))
      as (v1 & pushes & H1 & H2 & H3 & _).
    + repeat constructor.
    + vm_compute. reflexivity.
    + exists v1, pushes. split; [exact H1 |]. split; [exact H2 | exact H3].
Defined.

End TraversalWitness.

(** * Further properties of Scope.h *)

Section SmallStackFacts.
Import ScopeH.
Variable T : Type.
Variable T_default : T.

Lemma SmallStack_contents_push (s : SmallStack T) (t : T) :
  SmallStack_wf T s ->
  SmallStack_contents T (SmallStack_push T s t) = SmallStack_contents T s ++ [t].
Proof.
  intros Hwf. unfold SmallStack_contents, SmallStack_push.
  destruct (_empty s) eqn:E; simpl.
  - rewrite (Hwf E). reflexivity.
  - reflexivity.
Qed.

Lemma SmallStack_contents_pop (s : SmallStack T) :
  SmallStack_contents T (SmallStack_pop T T_default s)
  = removelast (SmallStack_contents T s).
Proof.
  unfold SmallStack_contents, SmallStack_pop.
  destruct (_rest s) as [| x r] eqn:Hr.
  - simpl. destruct (_empty s); reflexivity.
  - cbn [_empty _rest _top]. destruct (_empty s); [reflexivity |].
    rewrite removelast_last.
    symmetry. apply app_removelast_last. discriminate.
Qed.

Lemma SmallStack_wf_push (s : SmallStack T) (t : T) :
  SmallStack_wf T (SmallStack_push T s t).
Proof.
  unfold SmallStack_wf, SmallStack_push.
  destruct (_empty s) eqn:E; simpl; discriminate.
Qed.

Lemma SmallStack_wf_pop (s : SmallStack T) :
  SmallStack_wf T s -> SmallStack_wf T (SmallStack_pop T T_default s).
Proof.
  unfold SmallStack_wf, SmallStack_pop. intros Hwf.
  destruct (_rest s) as [| x r] eqn:Hr; simpl; [reflexivity |].
  intros E. specialize (Hwf E). discriminate.
Qed.

(** A stack that is not empty comes back when an element is pushed on it
    and popped again. *)
Lemma SmallStack_pop_push (s : SmallStack T) (t : T) :
  SmallStack_empty T s = false ->
  SmallStack_pop T T_default (SmallStack_push T s t) = s.
Proof.
  unfold SmallStack_empty, SmallStack_pop, SmallStack_push. intros E. rewrite E.
  cbn [_rest _empty _top].
  destruct (_rest s ++ [_top s]) as [| x r] eqn:Hr.
  - destruct (_rest s); discriminate.
  - rewrite <- Hr, last_last, removelast_last.
    destruct s as [top rest empty]. simpl in *. subst empty. reflexivity.
Qed.

(** The stack left when an element is pushed on a missing entry and popped
    again is empty. *)
Lemma SmallStack_pop_push_new (t : T) :
  SmallStack_empty T
    (SmallStack_pop T T_default (SmallStack_push T (SmallStack_new T T_default) t))
  = true.
Proof. reflexivity. Qed.

(** [pop] does not look at the top. *)
Lemma SmallStack_pop_set_top (s : SmallStack T) (t : T) :
  SmallStack_pop T T_default (SmallStack_set_top T s t) = SmallStack_pop T T_default s.
Proof. reflexivity. Qed.

(** X1: [SmallStack<T>] is a stack.  With its elements read from the bottom
    to the top, a new stack holds nothing, [push] adds its argument at the
    top, [pop] removes the top and leaves an empty stack empty, [empty]
    tells whether there is no element and [top] is the last element of a
    stack that has one; [push] and [pop] keep [_rest] clear while the stack
    is empty. *)
Theorem SmallStack_is_a_stack (s : SmallStack T) (t : T) :
  SmallStack_wf T s ->
  SmallStack_contents T (SmallStack_new T T_default) = [] /\
  SmallStack_contents T (SmallStack_push T s t) = SmallStack_contents T s ++ [t] /\
  SmallStack_contents T (SmallStack_pop T T_default s)
    = removelast (SmallStack_contents T s) /\
  SmallStack_top T (SmallStack_push T s t) = t /\
  (SmallStack_empty T s = true <-> SmallStack_contents T s = []) /\
  (SmallStack_empty T s = false ->
   List.last (SmallStack_contents T s) T_default = SmallStack_top T s) /\
  (SmallStack_empty T s = true ->
   SmallStack_empty T (SmallStack_pop T T_default s) = true) /\
  SmallStack_wf T (SmallStack_new T T_default) /\
  SmallStack_wf T (SmallStack_push T s t) /\
  SmallStack_wf T (SmallStack_pop T T_default s).
Proof.
  intros Hwf.
  split; [reflexivity |].
  split; [apply SmallStack_contents_push, Hwf |].
  split; [apply SmallStack_contents_pop |].
  split; [unfold SmallStack_top, SmallStack_push; destruct (_empty s); reflexivity |].
  split.
  { unfold SmallStack_empty, SmallStack_contents. destruct (_empty s).
    - split; reflexivity.
    - split; [discriminate |]. destruct (_rest s); discriminate. }
  split.
  { unfold SmallStack_empty, SmallStack_contents, SmallStack_top. intros E.
    rewrite E. apply last_last. }
  split.
  { unfold SmallStack_empty, SmallStack_pop. intros E. rewrite (Hwf E). reflexivity. }
  split; [intros _; reflexivity |].
  split; [apply SmallStack_wf_push | apply SmallStack_wf_pop, Hwf].
Qed.

End SmallStackFacts.

Lemma SmallStack_is_a_stack_witness :
  ScopeH.SmallStack_contents Z
    (ScopeH.SmallStack_push Z (ScopeH.SmallStack_push Z (ScopeH.SmallStack_new Z 0) 4) 5)
  = ScopeH.SmallStack_contents Z (ScopeH.SmallStack_push Z (ScopeH.SmallStack_new Z 0) 4)
    ++ [5].
Proof.
  refine (proj1 (proj2
            (SmallStack_is_a_stack Z 0
               (ScopeH.SmallStack_push Z (ScopeH.SmallStack_new Z 0) 4) 5 _))).
  unfold ScopeH.SmallStack_wf. simpl. discriminate.
Defined.

Section SmallStackVoidFacts.
Import ScopeH.

Ltac int_bounds :=
  change (2 ^ 31) with 2147483648 in *; change (2 ^ 32) with 4294967296 in *.

Lemma wrap_int_small (z : Z) : - 2 ^ 31 <= z < 2 ^ 31 -> wrap_int z = z.
Proof.
  intros H. unfold wrap_int. int_bounds. rewrite Z.mod_small by lia. lia.
Qed.

Lemma balance_from (ops : list stack_void_op) :
  forall z : Z,
    fold_left (fun z o => match o with StackPush => z + 1 | StackPop => z - 1 end) ops z
    = z + balance ops.
Proof.
  unfold balance. induction ops as [| o ops IH]; intros z; simpl; [lia |].
  rewrite IH, (IH (match o with StackPush => 0 + 1 | StackPop => 0 - 1 end)).
  destruct o; lia.
Qed.

Lemma balance_cons (o : stack_void_op) (ops : list stack_void_op) :
  balance (o :: ops)
  = match o with StackPush => 1 | StackPop => -1 end + balance ops.
Proof.
  unfold balance at 1. simpl fold_left. rewrite balance_from. destruct o; lia.
Qed.

Lemma SmallStack_void_run_counter (ops : list stack_void_op) :
  forall s : SmallStack_void,
    - 2 ^ 31 <= counter s - Z.of_nat (length ops) ->
    counter s + Z.of_nat (length ops) < 2 ^ 31 ->
    counter (SmallStack_void_run ops s) = counter s + balance ops.
Proof.
  induction ops as [| o ops IH]; intros s Hlo Hhi.
  - unfold balance. simpl. lia.
  - rewrite balance_cons.
    change (SmallStack_void_run (o :: ops) s)
      with (SmallStack_void_run ops (SmallStack_void_step s o)).
    simpl length in Hlo, Hhi.
    assert (Hstep : counter (SmallStack_void_step s o)
                    = counter s + match o with StackPush => 1 | StackPop => -1 end).
    { destruct o; simpl; rewrite wrap_int_small; int_bounds; lia. }
    rewrite IH; rewrite Hstep; destruct o; lia.
Qed.

(** X2: [SmallStack<void>] counts.  After fewer than 2^31 calls on a new
    stack the counter is the number of pushes less the number of pops, so
    the stack is empty exactly when there were as many pops as pushes; a
    [pop] on a new stack does not leave it empty, and the [push] after it
    does. *)
Theorem SmallStack_void_counts (ops : list stack_void_op) :
  Z.of_nat (length ops) < 2 ^ 31 ->
  counter (SmallStack_void_run ops SmallStack_void_new) = balance ops /\
  (SmallStack_void_empty (SmallStack_void_run ops SmallStack_void_new) = true <->
   balance ops = 0) /\
  SmallStack_void_empty (SmallStack_void_pop SmallStack_void_new) = false /\
  SmallStack_void_empty
    (SmallStack_void_push (SmallStack_void_pop SmallStack_void_new)) = true.
Proof.
  intros Hlen.
  assert (Hc : counter (SmallStack_void_run ops SmallStack_void_new) = balance ops).
  { rewrite SmallStack_void_run_counter; simpl; int_bounds; lia. }
  split; [exact Hc |]. split; [| split; reflexivity].
  unfold SmallStack_void_empty. rewrite Hc. apply Z.eqb_eq.
Qed.

End SmallStackVoidFacts.

Lemma SmallStack_void_counts_witness :
  ScopeH.counter
    (ScopeH.SmallStack_void_run
       [ScopeH.StackPush; ScopeH.StackPop; ScopeH.StackPop] ScopeH.SmallStack_void_new)
  = ScopeH.balance [ScopeH.StackPush; ScopeH.StackPop; ScopeH.StackPop].
Proof.
  refine (proj1 (SmallStack_void_counts
                   [ScopeH.StackPush; ScopeH.StackPop; ScopeH.StackPop] _)).
  simpl. reflexivity.
Defined.

Section ScopeVoidFacts.
Import ScopeH.

Ltac int_bounds :=
  change (2 ^ 31) with 2147483648 in *; change (2 ^ 32) with 4294967296 in *.

Lemma wrap_int_in_range (z : Z) : - 2 ^ 31 <= z < 2 ^ 31 -> wrap_int z = z.
Proof.
  intros H. unfold wrap_int. int_bounds. rewrite Z.mod_small by lia. lia.
Qed.

Lemma depth_cons (o : scope_void_op) (ops : list scope_void_op) (name : string) :
  depth (o :: ops) name = delta o name + depth ops name.
Proof. destruct o; reflexivity. Qed.

Lemma holds_counts_step (s s' : Scope_void) (d : string -> Z) (bound : Z)
    (o : scope_void_op) :
  holds_counts s d ->
  (forall name, 0 <= d name <= bound) -> bound + 1 < 2 ^ 31 ->
  step_void s o = ok s' ->
  holds_counts s' (fun name => d name + delta o name) /\
  (forall name, 0 <= d name + delta o name <= bound + 1).
Proof.
  intros (Hp & Heq & Htab) Hd Hb. destruct o as [n | n]; simpl.
  - intros [= <-]. split.
    + split; [exact Hp |]. split.
      * unfold push_void. simpl. rewrite Heq. reflexivity.
      * intros name. unfold push_void. simpl. rewrite lookup_insert.
        destruct (String.eqb_spec n name) as [-> | Hne].
        -- rewrite decide_True by reflexivity.
           unfold index_void. rewrite Htab.
           pose proof (Hd name) as Hn.
           assert (Hc : counter (default SmallStack_void_new
                         (if 0 <? d name then Some {| counter := d name |} else None))
                        = d name).
           { destruct (Z.ltb_spec 0 (d name)); simpl; lia. }
           unfold SmallStack_void_push. rewrite Hc.
           rewrite wrap_int_in_range by (int_bounds; lia).
           destruct (Z.ltb_spec 0 (d name + 1)); [reflexivity | lia].
        -- rewrite decide_False by exact Hne. rewrite Z.add_0_r. apply Htab.
    + intros name. pose proof (Hd name). destruct (String.eqb n name); lia.
  - unfold pop_void. rewrite Heq.
    unfold same_end_void. rewrite Bool.eqb_reflx. simpl.
    pose proof (Htab n) as Hn.
    destruct (v_o_table s !! n) as [st |] eqn:Hl; [| discriminate].
    destruct (Z.ltb_spec 0 (d n)) as [Hpos | Hz]; [| discriminate].
    injection Hn as ->.
    intros [= <-].
    assert (Hpop : SmallStack_void_pop {| counter := d n |} = {| counter := d n - 1 |}).
    { unfold SmallStack_void_pop. simpl. pose proof (Hd n).
      rewrite wrap_int_in_range by (int_bounds; lia). reflexivity. }
    split.
    + split; [exact Hp |]. split; [reflexivity |].
      intros name. simpl. unfold pop_entry_void. rewrite Hpop.
      unfold SmallStack_void_empty. simpl.
      destruct (String.eqb_spec n name) as [<- | Hne].
      * destruct (Z.eqb_spec (d n - 1) 0) as [Hz | Hnz].
        -- rewrite lookup_delete_eq.
           destruct (Z.ltb_spec 0 (d n + -1)); [lia | reflexivity].
        -- rewrite lookup_insert_eq.
           destruct (Z.ltb_spec 0 (d n + -1)); [| lia].
           f_equal; try (f_equal; lia).
      * rewrite Z.add_0_r.
        destruct (Z.eqb (d n - 1) 0).
        -- rewrite lookup_delete_ne by exact Hne. apply Htab.
        -- rewrite lookup_insert_ne by exact Hne. apply Htab.
    + intros name. pose proof (Hd name).
      destruct (String.eqb_spec n name) as [<- | Hne]; lia.
Qed.

Lemma holds_counts_run (ops : list scope_void_op) :
  forall (s s' : Scope_void) (d : string -> Z) (bound : Z),
    holds_counts s d ->
    (forall name, 0 <= d name <= bound) ->
    bound + Z.of_nat (length ops) < 2 ^ 31 ->
    run_void ops s = ok s' ->
    holds_counts s' (fun name => d name + depth ops name) /\
    (forall name, 0 <= d name + depth ops name).
Proof.
  induction ops as [| o ops IH]; intros s s' d bound Hs Hd Hb; simpl run_void.
  - intros [= <-]. split.
    + destruct Hs as (Hp & Heq & Htab). split; [exact Hp |]. split; [exact Heq |].
      intros name. simpl. rewrite Z.add_0_r. apply Htab.
    + intros name. simpl. pose proof (Hd name). lia.
  - destruct (step_void s o) as [e | s1] eqn:Hstep; cbn [bind]; [discriminate |].
    intros Hrun. simpl length in Hb.
    destruct (holds_counts_step s s1 d bound o Hs Hd) as [Hs1 Hd1];
      [lia | exact Hstep |].
    destruct (IH s1 s' _ (bound + 1) Hs1 Hd1) as [Hs' Hd']; [lia | exact Hrun |].
    split.
    + destruct Hs' as (Hp & Heq & Htab). split; [exact Hp |]. split; [exact Heq |].
      intros name. cbv beta. rewrite depth_cons, Z.add_assoc. apply Htab.
    + intros name. rewrite depth_cons, Z.add_assoc. apply Hd'.
Qed.

(** X3: [Scope<void>] counts the bindings of every name.  After a run of
    fewer than 2^31 [push] and [pop] calls on a new scope that reaches its
    end, no name was popped more often than pushed, [contains] holds of
    the names pushed more often than popped and of no other, and the next
    [pop] of a name fails its assertion exactly when the name is not
    contained. *)
Theorem Scope_void_counts (ops : list scope_void_op) (s : Scope_void) (name : string) :
  Z.of_nat (length ops) < 2 ^ 31 ->
  run_void ops Scope_void_new = ok s ->
  0 <= depth ops name /\
  contains_void s name = ok (0 <? depth ops name) /\
  (pop_void s name = fail InternalAssert <-> depth ops name = 0).
Proof.
  intros Hlen Hrun.
  destruct (holds_counts_run ops Scope_void_new s (fun _ => 0) 0) as [Hs Hd].
  - split; [reflexivity |]. split; [reflexivity |]. intros n. simpl.
    apply lookup_empty.
  - intros n. lia.
  - lia.
  - exact Hrun.
  - destruct Hs as (Hp & Heq & Htab). simpl in Hd, Htab.
    specialize (Hd name). specialize (Htab name).
    rewrite !Z.add_0_l in Htab, Hd.
    split; [exact Hd |]. split.
    + destruct s as [m o p]. simpl in *. subst p m.
      unfold same_end_void. rewrite Bool.eqb_reflx. simpl. rewrite Htab.
      destruct (Z.ltb_spec 0 (depth ops name)) as [Hpos | Hz]; [| reflexivity].
      unfold SmallStack_void_empty. simpl.
      destruct (Z.eqb_spec (depth ops name) 0); [lia | reflexivity].
    + unfold pop_void. rewrite Heq. unfold same_end_void. rewrite Bool.eqb_reflx.
      simpl. rewrite Htab.
      destruct (Z.ltb_spec 0 (depth ops name)) as [Hpos | Hz].
      * split; [discriminate | lia].
      * split; [lia | reflexivity].
Qed.

End ScopeVoidFacts.

Lemma Scope_void_counts_witness :
  ScopeH.contains_void
    (ScopeH.push_void (ScopeH.push_void ScopeH.Scope_void_new "x") "y") "x"
  = ok (0 <? ScopeH.depth
               [ScopeH.OpPushVoid "x"; ScopeH.OpPushVoid "y"; ScopeH.OpPushVoid "y";
                ScopeH.OpPopVoid "y"] "x").
Proof.
  refine (proj1 (proj2
            (Scope_void_counts
               [ScopeH.OpPushVoid "x"; ScopeH.OpPushVoid "y"; ScopeH.OpPushVoid "y";
                ScopeH.OpPopVoid "y"]
               (ScopeH.push_void (ScopeH.push_void ScopeH.Scope_void_new "x") "y")
               "x" _ _))).
  - simpl. reflexivity.
  - vm_compute. reflexivity.
Defined.

Section ScopeLookup.
Import ScopeH.
Variable T : Type.
Variable T_default : T.

Lemma contains_unfold (s : Scope T) (name : string) :
  contains T s name =
  if negb (same_end T (m_table s !! name) (o_table s !! name)) then fail InternalAssert
  else
    match o_table s !! name with
    | Some st =>
        if SmallStack_empty T st then
          match containing_scope s with
          | Some p => contains T p name
          | None => ok false
          end
        else ok true
    | None =>
        match containing_scope s with
        | Some p => contains T p name
        | None => ok false
        end
    end.
Proof. destruct s; reflexivity. Qed.

(** What [contains] answers, read off the outcome of [get]. *)
Lemma contains_of_get (name : string) (s : Scope T) :
  contains T s name =
  match get T s name with
  | inr _ => ok true
  | inl (InternalError _) => ok false
  | inl e => fail e
  end.
Proof.
  induction s as [m o | m o p IH] using Scope_chain_ind;
    rewrite contains_unfold, get_unfold; simpl;
    destruct (negb (same_end T (m !! name) (o !! name))); try reflexivity;
    destruct (o !! name) as [st |]; try reflexivity; try exact IH;
    destruct (SmallStack_empty T st); try reflexivity; exact IH.
Qed.

Lemma get_fails_with (name : string) (s : Scope T) (e : error) :
  get T s name = fail e -> e = InternalAssert \/ e = not_in_scope name.
Proof.
  induction s as [m o | m o p IH] using Scope_chain_ind;
    rewrite get_unfold; simpl;
    destruct (negb (same_end T (m !! name) (o !! name)));
    try (intros [= <-]; auto; fail);
    destruct (o !! name) as [st |]; try (intros [= <-]; auto; fail); try exact IH;
    destruct (SmallStack_empty T st); try discriminate;
    try (intros [= <-]; auto; fail); exact IH.
Qed.

(** X4: [get] and [contains] agree along the whole chain of containing
    scopes.  [contains] answers true exactly when [get] returns a value,
    false exactly when [get] raises (Name not in Scope), and each fails its
    assertion on the tables exactly when the other does; [get] fails in no
    other way. *)
Theorem contains_agrees_with_get (s : Scope T) (name : string) :
  (contains T s name = ok true <-> exists value, get T s name = ok value) /\
  (contains T s name = ok false <-> get T s name = fail (not_in_scope name)) /\
  (contains T s name = fail InternalAssert <-> get T s name = fail InternalAssert) /\
  (forall e, get T s name = fail e -> e = InternalAssert \/ e = not_in_scope name).
Proof.
  pose proof (contains_of_get name s) as Hc.
  pose proof (get_fails_with name s) as Hf.
  unfold ok, fail in *.
  destruct (get T s name) as [e | value] eqn:Hg.
  - destruct (Hf e eq_refl) as [-> | ->]; rewrite Hc; unfold not_in_scope;
      repeat split; try discriminate; try (intros [? ?]; discriminate);
      try (intros ? [= <-]; auto); auto.
  - rewrite Hc. repeat split; try discriminate; eauto.
Qed.

End ScopeLookup.

Section ScopeDiscipline.
Import ScopeH.
Variable T : Type.
Variable T_default : T.

Lemma pop_entry_push (t : gmap string (SmallStack T)) (name : string) (value : T) :
  (forall n st, t !! n = Some st -> SmallStack_empty T st = false) ->
  pop_entry T T_default
    (<[name := SmallStack_push T (index T T_default t name) value]> t) name
    (SmallStack_push T (index T T_default t name) value)
  = t.
Proof.
  intros Hne. unfold pop_entry, index.
  destruct (t !! name) as [st |] eqn:Hl; simpl.
  - rewrite (SmallStack_pop_push T T_default st value (Hne _ _ Hl)).
    rewrite (Hne _ _ Hl). rewrite insert_insert_eq. apply insert_id, Hl.
  - apply delete_insert_id, Hl.
Qed.

(** A binding that is pushed and popped again leaves the scope as it
    was. *)
Lemma pop_push (s : Scope T) (name : string) (value : T) :
  tables_agree T s -> pop T T_default (push T T_default s name value) name = ok s.
Proof.
  intros [Heq Hne]. unfold pop, push. cbn [m_table o_table containing_scope].
  rewrite !lookup_insert_eq. unfold same_end. simpl.
  rewrite !pop_entry_push.
  - destruct s; reflexivity.
  - exact Hne.
  - rewrite Heq. exact Hne.
Qed.

Lemma get_replace_same (s s' : Scope T) (name : string) (value : T) :
  replace T s name value = ok s' -> get T s' name = ok value.
Proof.
  unfold replace.
  destruct (negb (same_end T (m_table s !! name) (o_table s !! name))); [discriminate |].
  destruct (m_table s !! name) as [ms |]; [| discriminate].
  destruct (o_table s !! name) as [os |]; [| discriminate].
  destruct (SmallStack_empty T os) eqn:E; [discriminate |].
  intros [= <-]. rewrite get_unfold. cbn [m_table o_table containing_scope].
  rewrite !lookup_insert_eq. unfold same_end, SmallStack_empty in *. simpl.
  rewrite E. reflexivity.
Qed.

Lemma get_replace_other (s s' : Scope T) (name name' : string) (value : T) :
  replace T s name value = ok s' -> name <> name' -> get T s' name' = get T s name'.
Proof.
  unfold replace.
  destruct (negb (same_end T (m_table s !! name) (o_table s !! name))); [discriminate |].
  destruct (m_table s !! name) as [ms |]; [| discriminate].
  destruct (o_table s !! name) as [os |]; [| discriminate].
  destruct (SmallStack_empty T os) eqn:E; [discriminate |].
  intros [= <-] Hne. rewrite (get_unfold _ s), get_unfold.
  cbn [m_table o_table containing_scope].
  rewrite !lookup_insert_ne by exact Hne. reflexivity.
Qed.

Lemma pop_replace (s s' : Scope T) (name : string) (value : T) :
  replace T s name value = ok s' -> pop T T_default s' name = pop T T_default s name.
Proof.
  unfold replace.
  destruct (negb (same_end T (m_table s !! name) (o_table s !! name))) eqn:Hse;
    [discriminate |].
  destruct (m_table s !! name) as [ms |] eqn:Hm; [| discriminate].
  destruct (o_table s !! name) as [os |] eqn:Ho; [| discriminate].
  destruct (SmallStack_empty T os) eqn:E; [discriminate |].
  intros [= <-]. unfold pop. cbn [m_table o_table containing_scope].
  rewrite !lookup_insert_eq, Hm, Ho. unfold same_end. simpl.
  unfold pop_entry. rewrite !SmallStack_pop_set_top.
  rewrite !delete_insert_eq, !insert_insert_eq. reflexivity.
Qed.

(** X5: push and pop nest.  On a scope whose tables agree, the pushed
    value is what [get] returns for the name until it is popped, whatever
    the name was bound to before, the other names are bound as before, and
    the [pop] of the name restores the scope exactly as it was before the
    [push]. *)
Theorem push_shadows_until_pop (s : Scope T) (name : string) (value : T) :
  tables_agree T s ->
  get T (push T T_default s name value) name = ok value /\
  contains T (push T T_default s name value) name = ok true /\
  (forall name', name <> name' ->
     get T (push T T_default s name value) name' = get T s name') /\
  pop T T_default (push T T_default s name value) name = ok s /\
  tables_agree T (push T T_default s name value).
Proof.
  intros Hs.
  split; [apply get_push_same |].
  split; [rewrite contains_of_get, get_push_same; reflexivity |].
  split; [intros name'; apply get_push_other |].
  split; [apply pop_push, Hs | apply tables_agree_push, Hs].
Qed.

(** X6: [replace] changes the value a name is bound to and nothing else.
    After a [replace] that succeeds, [get] returns the new value for the
    name, the other names are bound as before, and popping the name gives
    the scope that popping it before the [replace] gives: the depth of the
    bindings is unchanged and the values underneath are untouched. *)
Theorem replace_keeps_depth (s s' : Scope T) (name : string) (value : T) :
  replace T s name value = ok s' ->
  get T s' name = ok value /\
  (forall name', name <> name' -> get T s' name' = get T s name') /\
  pop T T_default s' name = pop T T_default s name /\
  containing_scope s' = containing_scope s.
Proof.
  intros H.
  split; [eapply get_replace_same, H |].
  split; [intros name'; eapply get_replace_other, H |].
  split; [eapply pop_replace, H |].
  revert H. unfold replace.
  destruct (negb _); [discriminate |].
  destruct (m_table s !! name); [| discriminate].
  destruct (o_table s !! name) as [os |]; [| discriminate].
  destruct (SmallStack_empty T os); [discriminate |].
  intros [= <-]. reflexivity.
Qed.

(** X7: a name that is not bound in the scope itself.  [pop] fails its
    assertion and [replace] raises (Name not in Scope), both without
    looking at the containing scope, while [get] and [contains] pass the
    question on to the containing scope and, when there is none, raise
    (Name not in Scope) and answer false. *)
Theorem unbound_name (s : Scope T) (name : string) (value : T) :
  m_table s !! name = None -> o_table s !! name = None ->
  pop T T_default s name = fail InternalAssert /\
  replace T s name value = fail (not_in_scope name) /\
  get T s name =
    match containing_scope s with
    | Some p => get T p name
    | None => fail (not_in_scope name)
    end /\
  contains T s name =
    match containing_scope s with
    | Some p => contains T p name
    | None => ok false
    end.
Proof.
  intros Hm Ho.
  unfold pop, replace. rewrite get_unfold, contains_unfold, Hm, Ho.
  unfold same_end. simpl. repeat split.
Qed.

(** X8: [ScopedBinding] binds a name for its lifetime.  On a scope whose
    tables agree, between the construction and the destruction the name is
    bound to the value, and the destruction gives back the scope as it was
    before the construction; a helper constructed with a condition that
    does not hold touches nothing. *)
Theorem ScopedBinding_restores (s : Scope T) (name : string) (value : T)
    (condition : bool) :
  tables_agree T s ->
  (let '(b, s1) := ScopedBinding_new T T_default s name value in
   get T s1 name = ok value /\ ScopedBinding_destroy T T_default b s1 = ok s) /\
  (let '(b, s1) := ScopedBinding_new_if T T_default condition s name value in
   (condition = true -> get T s1 name = ok value) /\
   (condition = false -> s1 = s) /\
   ScopedBinding_destroy T T_default b s1 = ok s).
Proof.
  intros Hs. unfold ScopedBinding_new, ScopedBinding_new_if, ScopedBinding_destroy.
  simpl. split.
  - split; [apply get_push_same | apply pop_push, Hs].
  - destruct condition; simpl.
    + split; [intros _; apply get_push_same |].
      split; [discriminate | apply pop_push, Hs].
    + split; [discriminate |]. split; reflexivity.
Qed.

End ScopeDiscipline.

Section ScopeWitnesses.
Import ScopeH Examples.

Lemma Scope_example_agrees : tables_agree Z Scope_example.
Proof.
  unfold Scope_example. apply tables_agree_push, tables_agree_new.
Defined.

Lemma push_shadows_until_pop_witness :
  pop Z 0 (push Z 0 Scope_example "x" 9) "x" = ok Scope_example.
Proof.
  exact (proj1 (proj2 (proj2 (proj2
           (push_shadows_until_pop Z 0 Scope_example "x" 9 Scope_example_agrees))))).
Defined.

Lemma replace_keeps_depth_witness :
  get Z (push Z 0 (Scope_new Z) "x" 3) "x" = ok 3.
Proof.
  refine (proj1 (replace_keeps_depth Z 0 Scope_example
                   (push Z 0 (Scope_new Z) "x" 3) "x" 3 _)).
  vm_compute. reflexivity.
Defined.

Lemma unbound_name_witness :
  pop Z 0 Scope_example "y" = fail InternalAssert.
Proof.
  refine (proj1 (unbound_name Z 0 Scope_example "y" 0 _ _)); vm_compute; reflexivity.
Defined.

Lemma ScopedBinding_restores_witness :
  let '(b, s1) := ScopedBinding_new Z 0 Scope_example "y" 5 in
  get Z s1 "y" = ok 5 /\ ScopedBinding_destroy Z 0 b s1 = ok Scope_example.
Proof.
  exact (proj1 (ScopedBinding_restores Z 0 Scope_example "y" 5 true
                  Scope_example_agrees)).
Defined.

End ScopeWitnesses.

Section ArithmeticAdjoints.
Import IR Derivative Statements.
Context `{Ext : Externals}.

Lemma eval_neg (env : Env) (e : Expr) : (eval env (neg e) == - eval env e)%Q.
Proof.
  unfold neg, make_zero. cbn [eval eval_binary]. rewrite eval_make_zero. ring.
Qed.

Lemma eval_make_one (env : Env) (t : Type_) : eval env (make_const t 1%Q) = 1%Q.
Proof. destruct t; reflexivity. Qed.

Lemma eval_make_minus_one (env : Env) (t : Type_) :
  (eval env (make_const t (-1)%Q) == -1)%Q.
Proof. destruct t; reflexivity. Qed.

(** X9: the handlers of [Add], [Sub], [Mul] and [Div] push the adjoint
    times the partial derivative of the node.  Each pushes one contribution
    to [a] and then one to [b]; at every point the value of the
    contribution is the value of the adjoint times 1 and 1 for a sum, 1 and
    -1 for a difference, [b] and [a] for a product, [1 / b] and
    [- a / (b * b)] for a quotient.  These factors are the derivatives: the
    value of the node moves by the factor times [h] when the operand moves
    by [h], exactly, and for the divisor up to the ratio [b / (b + h)]. *)
Theorem arithmetic_adjoints_are_partial_derivatives
    (env : Env) (a b : ExprRef) (adjoint : Expr) (v : visitor) :
  let A := eval env (tree a) in
  let B := eval env (tree b) in
  let D := eval env adjoint in
  (exists ca cb,
     expr_adjoints (visit_Add a b adjoint v)
       = accumulate_all [(a, ca); (b, cb)] (expr_adjoints v) /\
     (eval env ca == D * 1)%Q /\ (eval env cb == D * 1)%Q) /\
  slope (fun t => eval_binary Add t B) A 1 /\
  slope (fun t => eval_binary Add A t) B 1 /\
  (exists ca cb,
     expr_adjoints (visit_Sub a b adjoint v)
       = accumulate_all [(a, ca); (b, cb)] (expr_adjoints v) /\
     (eval env ca == D * 1)%Q /\ (eval env cb == D * -1)%Q) /\
  slope (fun t => eval_binary Sub t B) A 1 /\
  slope (fun t => eval_binary Sub A t) B (-1) /\
  (exists ca cb,
     expr_adjoints (visit_Mul a b adjoint v)
       = accumulate_all [(a, ca); (b, cb)] (expr_adjoints v) /\
     (eval env ca == D * B)%Q /\ (eval env cb == D * A)%Q) /\
  slope (fun t => eval_binary Mul t B) A B /\
  slope (fun t => eval_binary Mul A t) B A /\
  (exists ca cb,
     expr_adjoints (visit_Div a b adjoint v)
       = accumulate_all [(a, ca); (b, cb)] (expr_adjoints v) /\
     (eval env ca == D * (1 / B))%Q /\ (eval env cb == D * (- A / (B * B)))%Q) /\
  slope (fun t => eval_binary Div t B) A (1 / B) /\
  (forall h : Q,
     ~ (B == 0)%Q -> ~ (B + h == 0)%Q ->
     (eval_binary Div A (B + h) - eval_binary Div A B
      == (- A / (B * B)) * h * (B / (B + h)))%Q).
Proof.
  intros A B D.
  repeat match goal with |- _ /\ _ => split end.
  - eexists _, _. split; [reflexivity |]. subst D. split; ring.
  - intros h. simpl. ring.
  - intros h. simpl. ring.
  - exists adjoint, (neg adjoint). split; [reflexivity |]. subst D. split; [ring |].
    rewrite eval_neg. ring.
  - intros h. simpl. ring.
  - intros h. simpl. ring.
  - eexists _, _. split; [reflexivity |]. subst A B D. split; simpl; ring.
  - intros h. simpl. ring.
  - intros h. simpl. ring.
  - exists (Binary Div adjoint (tree b)),
      (Binary Div (Binary Mul (neg adjoint) (tree a)) (Binary Mul (tree b) (tree b))).
    split; [reflexivity |]. subst A B D. split.
    + cbn [eval eval_binary]. unfold Qdiv. ring.
    + cbn [eval eval_binary]. rewrite eval_neg. unfold Qdiv. ring.
  - intros h. simpl. unfold Qdiv. ring.
  - intros h HB HBh. simpl. field. split; assumption.
Qed.

(** X10: [Select] routes the adjoint to the branch that is taken, and a
    cast to a type that is not floating point lets nothing through.  The
    handler of [Select] pushes one contribution to each branch and none to
    the condition; at every point the branch the condition selects
    receives the adjoint and the other one 0, so the two always add up to
    the adjoint.  The handler of [Cast] pushes the adjoint, cast to the type
    of the operand, when the node is a cast to a floating point type, and a
    zero of the type of the operand otherwise. *)
Theorem Select_and_Cast_routing
    (env : Env) (c t f : ExprRef) (type : Type_) (value : ExprRef)
    (adjoint : Expr) (v : visitor) :
  let D := eval env adjoint in
  let taken := to_bool (eval env (tree c)) in
  (exists ct cf,
     expr_adjoints (visit_Select c t f adjoint v)
       = accumulate_all [(t, ct); (f, cf)] (expr_adjoints v) /\
     eval env ct = (if taken then D else 0%Q) /\
     eval env cf = (if taken then 0%Q else D) /\
     (eval env ct + eval env cf == D)%Q) /\
  (exists cv,
     expr_adjoints (visit_Cast type value adjoint v)
       = accumulate_all [(value, cv)] (expr_adjoints v) /\
     cv = (if is_float type then Cast (type_of (tree value)) adjoint
           else make_const (type_of (tree value)) 0%Q) /\
     (is_float type = false -> eval env cv = 0%Q)).
Proof.
  intros D taken. split.
  - eexists _, _. split; [reflexivity |].
    rewrite !eval_select, eval_make_zero. fold taken D.
    destruct taken; repeat split; ring.
  - unfold visit_Cast. destruct (is_float type).
    + eexists. split; [reflexivity |]. split; [reflexivity | discriminate].
    + eexists. split; [reflexivity |]. split; [reflexivity |].
      intros _. apply eval_make_zero.
Qed.

End ArithmeticAdjoints.

Section CallAdjoints.
Import IR Derivative Statements.
Context `{Ext : Externals}.

Lemma eval_make_const_float (env : Env) (type : Type_) (q : Q) :
  is_float type = true -> eval env (make_const type q) = q.
Proof. destruct type; try discriminate. reflexivity. Qed.

Lemma fold_accumulate_zero (zero : Expr) (args : list ExprRef) :
  forall v : visitor,
    expr_adjoints (fold_left (fun v a => accumulate a zero v) args v)
    = accumulate_all (List.map (fun a => (a, zero)) args) (expr_adjoints v).
Proof.
  induction args as [| a rest IH]; intros v; simpl; [reflexivity |].
  rewrite IH. reflexivity.
Qed.

Lemma contributions_to_zero (zero : Expr) (args : list ExprRef) (p : ptr) (c : Expr) :
  In c (contributions_to p (List.map (fun a => (a, zero)) args)) -> c = zero.
Proof.
  unfold contributions_to. intros H. apply in_map_iff in H.
  destruct H as ([a z] & <- & H). apply filter_In in H. destruct H as [H _].
  apply in_map_iff in H. destruct H as (a' & [= _ <-] & _). reflexivity.
Qed.

Lemma sum_values_zeros (env : Env) (entry : option Expr) (cs : list Expr) :
  (forall c, In c cs -> eval env c = 0%Q) ->
  (sum_values env entry cs == sum_values env entry [])%Q.
Proof.
  unfold sum_values. simpl.
  generalize (match entry with Some e => eval env e | None => 0%Q end).
  induction cs as [| c cs IH]; intros q Hz; simpl; [reflexivity |].
  rewrite IH by (intros c' Hc'; apply Hz; right; exact Hc').
  rewrite (Hz c) by (left; reflexivity). ring.
Qed.

(** X11: the intrinsics.  For a call of a floating point type, [abs]
    pushes the adjoint to its argument when the argument is positive and
    the negated adjoint otherwise, also at 0; [lerp] pushes to its three
    arguments the adjoint times the derivatives of [x * (1 - w) + y * w];
    [likely] passes the adjoint on, [return_second] passes it to the
    second argument and a zero to the first, [undef] pushes nothing, and
    for any other intrinsic every argument gets a zero, so that the value
    of no entry of the adjoint map changes. *)
Theorem intrinsic_adjoints (env : Env) (type : Type_) (a0 a1 a2 : ExprRef)
    (rest : list ExprRef) (adjoint : Expr) (v : visitor) :
  let D := eval env adjoint in
  let X := eval env (tree a0) in
  let Y := eval env (tree a1) in
  let W := eval env (tree a2) in
  (is_float type = true ->
   exists c,
     visit_Call_intrinsic type Call_abs (a0 :: rest) adjoint v = ok (accumulate a0 c v) /\
     ((0 < X)%Q -> (eval env c == D)%Q) /\
     ((X <= 0)%Q -> (eval env c == - D)%Q) /\
     (eval env c * X == D * Qabs X)%Q) /\
  (is_float type = true ->
   exists c0 c1 c2,
     visit_Call_intrinsic type Call_lerp (a0 :: a1 :: a2 :: rest) adjoint v
       = ok (accumulate a2 c2 (accumulate a1 c1 (accumulate a0 c0 v))) /\
     (eval env c0 == D * (1 - W))%Q /\
     (eval env c1 == D * W)%Q /\
     (eval env c2 == D * (Y - X))%Q /\
     slope (fun t => lerp_value t Y W) X (1 - W) /\
     slope (fun t => lerp_value X t W) Y W /\
     slope (fun t => lerp_value X Y t) W (Y - X)) /\
  visit_Call_intrinsic type Call_likely (a0 :: rest) adjoint v
    = ok (accumulate a0 adjoint v) /\
  (exists zero,
     visit_Call_intrinsic type Call_return_second (a0 :: a1 :: rest) adjoint v
       = ok (accumulate a1 adjoint (accumulate a0 zero v)) /\
     eval env zero = 0%Q) /\
  (forall args, visit_Call_intrinsic type Call_undef args adjoint v = ok v) /\
  (forall name args,
     ~ In name known_intrinsics ->
     exists v',
       visit_Call_intrinsic type name args adjoint v = ok v' /\
       forall p e',
         expr_adjoints v' !! p = Some e' ->
         (eval env e' == sum_values env (expr_adjoints v !! p) [])%Q).
Proof.
  intros D X Y W.
  split; [| split; [| split; [| split; [| split]]]].
  - intros Hf. eexists. split; [reflexivity |].
    cbn [eval eval_binary]. rewrite eval_select.
    rewrite !(eval_make_const_float _ _ _ Hf).
    cbn [eval eval_binary]. rewrite eval_make_zero, to_bool_of_bool.
    fold X D.
    destruct (Qle_bool X 0) eqn:E; simpl.
    + apply Qle_bool_iff in E. split; [| split].
      * intros H. exfalso. exact (Qlt_not_le _ _ H E).
      * intros _. ring.
      * rewrite (Qabs_neg X E). ring.
    + assert (Hpos : (0 < X)%Q).
      { apply Qnot_le_lt. intros H. apply Qle_bool_iff in H. congruence. }
      split; [| split].
      * intros _. ring.
      * intros H. exfalso. exact (Qlt_not_le _ _ Hpos H).
      * rewrite (Qabs_pos X) by (apply Qlt_le_weak, Hpos). ring.
  - intros Hf. eexists _, _, _. split; [reflexivity |].
    cbn [eval eval_binary]. rewrite !(eval_make_const_float _ _ _ Hf).
    fold X Y W D. unfold slope, lerp_value.
    repeat split; try (intros h); ring.
  - reflexivity.
  - eexists. split; [reflexivity | apply eval_make_zero].
  - intros args. reflexivity.
  - intros name args Hname.
    assert (Hne : forall k, In k known_intrinsics -> String.eqb name k = false).
    { intros k Hk. apply String.eqb_neq. intros ->. apply Hname, Hk. }
    eexists. split.
    + unfold visit_Call_intrinsic.
      rewrite (Hne Call_abs) by (simpl; tauto).
      rewrite (Hne Call_lerp) by (simpl; tauto).
      rewrite (Hne Call_likely) by (simpl; tauto).
      rewrite (Hne Call_return_second) by (simpl; tauto).
      rewrite (Hne Call_undef) by (simpl; tauto).
      reflexivity.
    + intros p e' He'. rewrite fold_accumulate_zero in He'.
      rewrite accumulate_all_lookup in He'.
      rewrite (eval_sum_onto _ _ _ _ He').
      apply sum_values_zeros. intros c Hc.
      apply contributions_to_zero in Hc. subst c. apply eval_make_zero.
Qed.

End CallAdjoints.

Section ExternCatalog.
Import IR Derivative Statements.
Context `{Ext : Externals}.

Lemma not_in_catalog (name : string) :
  ~ In name extern_catalog ->
  forallb (fun c => negb (String.eqb name c)) extern_catalog = true.
Proof.
  intros H. apply forallb_forall. intros c Hc.
  apply negb_true_iff, String.eqb_neq. intros ->. exact (H Hc).
Qed.

(** X12: the catalog of extern calls is exact.  A call to an extern
    function whose name is not one of the listed math functions with a
    suffix [_f16], [_f32] or [_f64], nor [halide_print], raises (The
    derivative of ... is not implemented) and pushes nothing; a call whose
    name is in the catalog and that has two arguments is differentiated;
    and for [ceil], [floor], [round], [trunc] and [halide_print] what is
    pushed to the argument is a zero. *)
Theorem extern_catalog_is_exact (type : Type_) (name : string)
    (a0 a1 : ExprRef) (rest : list ExprRef) (adjoint : Expr) (v : visitor) :
  (forall args,
     ~ In name extern_catalog ->
     visit_Call_extern type name args adjoint v = fail (not_implemented name)) /\
  (In name extern_catalog ->
   exists v', visit_Call_extern type name (a0 :: a1 :: rest) adjoint v = ok v') /\
  (forall f s,
     In f rounding_externs -> In s float_suffixes ->
     visit_Call_extern type (f +:+ s) (a0 :: rest) adjoint v
     = ok (accumulate a0 (make_const type 0%Q) v)) /\
  visit_Call_extern type "halide_print" (a0 :: rest) adjoint v
    = ok (accumulate a0 (make_const type 0%Q) v).
Proof.
  split; [| split; [| split]].
  - intros args Hname. apply not_in_catalog in Hname.
    cbn in Hname.
    repeat match type of Hname with
           | (_ && _)%bool = true =>
               let H1 := fresh "H" in
               apply andb_prop in Hname; destruct Hname as [H1 Hname];
               apply negb_true_iff in H1
           end.
    unfold visit_Call_extern, is_float_extern. cbn [String.append].
    repeat match goal with
           | H : String.eqb name ?c = false |- _ => rewrite H; clear H
           end.
    reflexivity.
  - intros Hin. unfold extern_catalog in Hin. cbn in Hin.
    repeat (destruct Hin as [<- | Hin]; [eexists; reflexivity |]).
    destruct Hin.
  - intros f s Hf Hs. cbn in Hf, Hs.
    repeat (destruct Hf as [<- | Hf];
            [repeat (destruct Hs as [<- | Hs]; [reflexivity |]); destruct Hs |]).
    destruct Hf.
  - reflexivity.
Qed.

End ExternCatalog.

Section SelfReferences.
Import IR Derivative Statements.
Context `{Ext : Externals}.

Lemma records_refl (v : visitor) : records v v [].
Proof. repeat split. symmetry. apply app_nil_r. Qed.

Lemma records_accumulate (v v1 : visitor) (stub : ExprRef) (adjoint : Expr)
    (recorded : list (list Expr)) :
  records v v1 recorded -> records v (accumulate stub adjoint v1) recorded.
Proof. intros H. exact H. Qed.

Lemma records_fold_zero (zero : Expr) (args : list ExprRef) :
  forall (v v1 : visitor) (recorded : list (list Expr)),
    records v v1 recorded ->
    records v (fold_left (fun v a => accumulate a zero v) args v1) recorded.
Proof.
  induction args as [| a rest IH]; intros v v1 recorded H; simpl; [exact H |].
  apply IH, records_accumulate, H.
Qed.

Ltac step_arg_ :=
  match goal with
  | |- context [arg ?args ?i] =>
      destruct (arg args i) as [? | ?]; simpl; [discriminate |]
  end.

Ltac close_records :=
  intros [= <-]; repeat apply records_accumulate; apply records_refl.

Lemma visit_Call_extern_records (type : Type_) (name : string)
    (args : list ExprRef) (adjoint : Expr) (v v' : visitor) :
  visit_Call_extern type name args adjoint v = ok v' -> records v v' [].
Proof.
  unfold visit_Call_extern.
  repeat match goal with
         | |- context [if ?b then _ else _] => destruct b
         end;
    try discriminate; repeat step_arg_; close_records.
Qed.

Lemma visit_Call_intrinsic_records (type : Type_) (name : string)
    (args : list ExprRef) (adjoint : Expr) (v v' : visitor) :
  visit_Call_intrinsic type name args adjoint v = ok v' -> records v v' [].
Proof.
  unfold visit_Call_intrinsic.
  repeat match goal with
         | |- context [if ?b then _ else _] => destruct b
         end;
    try (repeat step_arg_; close_records).
  intros [= <-]. apply records_fold_zero, records_refl.
Qed.

Lemma visit_Call_detect_records (args : list ExprRef) (fn : option ptr) (vi : nat)
    (adjoint : Expr) (v v' : visitor) :
  visit_Call_detect args fn vi adjoint v = ok v' ->
  records v v'
    (if bool_decide (fn = Some (current_func v))
     then [List.map (fun a => add_let_expression (tree a) (let_var_mapping v)
                                (let_variables v)) args]
     else []).
Proof.
  unfold visit_Call_detect.
  destruct (bool_decide (fn = Some (current_func v))).
  - destruct (tuple_get (self_reference_adjoint v) vi) as [e | old]; simpl;
      [discriminate |].
    unfold tuple_set. case_decide; simpl; [| discriminate].
    intros [= <-]. repeat split. simpl. apply length_insert.
  - intros [= <-]. apply records_refl.
Qed.

(** What one node records in the detection phase. *)
Lemma visit_records (n : Node) (v v' : visitor) :
  is_forward_overwrite_detection_phase v = true ->
  own_handler v n = true -> visit n v = ok v' ->
  records v v' (if self_call (current_func v) n then [call_args_with_lets v n] else []).
Proof.
  intros Hphase. unfold own_handler, visit, self_call, call_args_with_lets.
  destruct (n_node n) as
    [e | type value | type name rd | op a b | a | c t f | name value body
     | type name args ct fn vi]; intros Hown.
  - intros [= <-]. apply records_refl.
  - destruct (adjoint_of (n_addr n) v) as [? | adjoint]; simpl; [discriminate |].
    unfold visit_Cast. destruct (is_float type); close_records.
  - destruct (adjoint_of (n_addr n) v) as [? | adjoint]; simpl; [discriminate |].
    unfold visit_Variable. destruct (let_var_mapping v !! name); close_records.
  - destruct op; try discriminate;
      (destruct (adjoint_of (n_addr n) v) as [? | adjoint]; simpl; [discriminate |]);
      unfold visit_Add, visit_Sub, visit_Mul, visit_Div, visit_Min, visit_Max;
      close_records.
  - discriminate.
  - destruct (adjoint_of (n_addr n) v) as [? | adjoint]; simpl; [discriminate |].
    unfold visit_Select. close_records.
  - destruct (adjoint_of (n_addr n) v) as [? | adjoint]; simpl; [discriminate |].
    unfold visit_Let. close_records.
  - destruct (adjoint_of (n_addr n) v) as [? | adjoint]; simpl; [discriminate |].
    unfold visit_Call. rewrite Hphase.
    destruct ct; simpl;
      try apply visit_Call_extern_records;
      try apply visit_Call_intrinsic_records;
      apply visit_Call_detect_records.
Qed.

Lemma records_trans (v v1 v2 : visitor) (r1 r2 : list (list Expr)) :
  records v v1 r1 -> records v1 v2 r2 -> records v v2 (r1 ++ r2).
Proof.
  intros ((H1 & H2 & H3 & H4) & H5 & H6) ((G1 & G2 & G3 & G4) & G5 & G6).
  repeat split; try congruence.
  rewrite G5, H5, app_assoc. reflexivity.
Qed.

Lemma accept_all_records (l : list Node) :
  forall v v' : visitor,
    is_forward_overwrite_detection_phase v = true ->
    Forall (fun m => own_handler v m = true) l ->
    accept_all l v = ok v' ->
    records v v'
      (List.map (call_args_with_lets v) (List.filter (self_call (current_func v)) l)).
Proof.
  induction l as [| n rest IH]; intros v v' Hphase Hown; simpl accept_all.
  - intros [= <-]. apply records_refl.
  - inversion Hown as [| ? ? Hn Hrest]; subst.
    destruct (visit n v) as [e | v1] eqn:Hvisit; cbn [bind]; [discriminate |].
    intros Hacc.
    pose proof (visit_records n v v1 Hphase Hn Hvisit) as H1.
    destruct H1 as ((L1 & L2 & L3 & L4) & R1 & R2) eqn:E1. clear E1.
    assert (H2 : records v1 v'
              (List.map (call_args_with_lets v1)
                 (List.filter (self_call (current_func v1)) rest))).
    { apply IH; [congruence | | exact Hacc].
      eapply Forall_impl; [exact Hrest |]. intros m Hm. simpl in Hm.
      rewrite (own_handler_phase v v1 m L4). exact Hm. }
    assert (Hsame : forall m, call_args_with_lets v1 m = call_args_with_lets v m).
    { intros m. unfold call_args_with_lets. rewrite L1, L2. reflexivity. }
    rewrite L3 in H2. rewrite (map_ext _ _ Hsame) in H2.
    pose proof (records_trans v v1 v' _ _
                  (conj (conj L1 (conj L2 (conj L3 L4))) (conj R1 R2)) H2) as H.
    simpl List.filter. destruct (self_call (current_func v) n); exact H.
Qed.

(** X13: what the detection phase records along a traversal.  When the
    nodes are handled by the visitor's own handlers, the traversal leaves
    the let bindings, the current function and the phase as they were,
    keeps one self-reference adjoint per value of the function, and appends
    to the recorded self-references the arguments, with their let bindings
    added, of exactly the calls of the current function to itself, one
    entry per call in the order in which the calls are visited. *)
Theorem detection_records_the_self_calls (expr_list : list Node) (v v' : visitor) :
  is_forward_overwrite_detection_phase v = true ->
  Forall (fun m => own_handler v m = true) expr_list ->
  traverse expr_list v = ok v' ->
  self_reference_args v'
    = self_reference_args v
      ++ List.map (call_args_with_lets v)
           (List.filter (self_call (current_func v)) (rev expr_list)) /\
  length (self_reference_adjoint v') = length (self_reference_adjoint v) /\
  let_var_mapping v' = let_var_mapping v /\
  let_variables v' = let_variables v /\
  current_func v' = current_func v /\
  is_forward_overwrite_detection_phase v' = true.
Proof.
  intros Hphase Hown Htr. unfold traverse in Htr.
  destruct (accept_all_records (rev expr_list) v v' Hphase) as
    ((L1 & L2 & L3 & L4) & R1 & R2).
  - apply Forall_rev. exact Hown.
  - exact Htr.
  - repeat split; try assumption. congruence.
Qed.

End SelfReferences.

Section DetectionSetup.
Import IR Derivative Statements.
Context `{Ext : Externals}.

Lemma gather_lets_ok (l : list Node) :
  forall (m : gmap string ExprRef) (names : list string),
    NoDup (let_bindings l).*1 ->
    (forall x, x ∈ (let_bindings l).*1 -> m !! x = None) ->
    gather_lets l m names
    = ok (fold_left insert_binding (let_bindings l) m, names ++ (let_bindings l).*1).
Proof.
  induction l as [| n rest IH]; intros m names Hnd Hfresh.
  - simpl. rewrite app_nil_r. reflexivity.
  - unfold let_bindings, let_binding in *. simpl gather_lets. simpl omap in *.
    destruct (n_node n) as
      [e | type value | type name rd | op a b | a | c t f | name value body
       | type name args ct fn vi]; simpl in *; try (apply IH; assumption).
    rewrite (Hfresh name) by left.
    apply NoDup_cons in Hnd. destruct Hnd as [Hnotin Hnd].
    rewrite IH.
    + rewrite <- app_assoc. reflexivity.
    + exact Hnd.
    + intros x Hx. rewrite lookup_insert_ne.
      * apply Hfresh. right. exact Hx.
      * intros ->. contradiction.
Qed.

Lemma gather_lets_fails (l : list Node) :
  forall (m : gmap string ExprRef) (names : list string),
    ~ (NoDup (let_bindings l).*1 /\
       forall x, x ∈ (let_bindings l).*1 -> m !! x = None) ->
    gather_lets l m names = fail AssertFailed.
Proof.
  induction l as [| n rest IH]; intros m names Hbad.
  - exfalso. apply Hbad. split; [constructor | intros x Hx; inversion Hx].
  - unfold let_bindings, let_binding in *. simpl gather_lets. simpl omap in *.
    destruct (n_node n) as
      [e | type value | type name rd | op a b | a | c t f | name value body
       | type name args ct fn vi]; simpl in *; try (apply IH; assumption).
    destruct (m !! name) as [old |] eqn:Hl; [reflexivity |].
    apply IH. intros [Hnd Hfresh]. apply Hbad. split.
    + apply NoDup_cons. split; [| exact Hnd].
      intros Hin. specialize (Hfresh name Hin).
      rewrite lookup_insert_eq in Hfresh. discriminate.
    + intros x Hx. apply elem_of_cons in Hx. destruct Hx as [-> | Hx]; [exact Hl |].
      specialize (Hfresh x Hx).
      destruct (decide (name = x)) as [-> | Hne].
      * rewrite lookup_insert_eq in Hfresh. discriminate.
      * rewrite lookup_insert_ne in Hfresh by exact Hne. exact Hfresh.
Qed.

Lemma fold_insert_binding_lookup (bs : list (string * ExprRef)) :
  forall (m : gmap string ExprRef) (name : string) (value : ExprRef),
    NoDup bs.*1 ->
    (forall x, x ∈ bs.*1 -> m !! x = None) ->
    (fold_left insert_binding bs m !! name = Some value <->
     m !! name = Some value \/ (name, value) ∈ bs).
Proof.
  induction bs as [| [n0 v0] rest IH]; intros m name value Hnd Hfresh; simpl.
  - split; [auto | intros [H | H]; [exact H | inversion H]].
  - simpl in Hnd. apply NoDup_cons in Hnd. destruct Hnd as [Hnotin Hnd].
    rewrite IH.
    + unfold insert_binding. simpl. rewrite lookup_insert.
      split.
      * intros [H | H]; [| right; right; exact H].
        case_decide as Hn; [| left; exact H].
        subst n0. injection H as <-. right. left.
      * intros [H | H].
        -- left. case_decide as Hn; [| exact H].
           subst n0. rewrite (Hfresh name) in H by left. discriminate.
        -- apply elem_of_cons in H. destruct H as [[= -> ->] | H].
           ++ left. rewrite decide_True by reflexivity. reflexivity.
           ++ right. exact H.
    + exact Hnd.
    + intros x Hx. unfold insert_binding. simpl. rewrite lookup_insert_ne.
      * apply Hfresh. right. exact Hx.
      * intros ->. contradiction.
Qed.

(** X14: the let variables of an update are gathered when their names are
    unique, and only then.  On the expression list of an update, gathering
    from empty tables succeeds exactly when no two [Let] nodes of the list
    bind the same name, and fails its assertion otherwise; when it
    succeeds, [let_variables] holds the names in the order of the list and
    [let_var_mapping] binds each name to the value of its [Let] and no
    other name. *)
Theorem gather_lets_needs_unique_names (expr_list : list Node) :
  let names := (let_bindings expr_list).*1 in
  (NoDup names <-> exists m l, gather_lets expr_list ∅ [] = ok (m, l)) /\
  (~ NoDup names <-> gather_lets expr_list ∅ [] = fail AssertFailed) /\
  (forall m l,
     gather_lets expr_list ∅ [] = ok (m, l) ->
     l = names /\
     forall name value,
       m !! name = Some value <-> (name, value) ∈ let_bindings expr_list).
Proof.
  intros names.
  assert (Hok : NoDup names ->
            gather_lets expr_list ∅ []
            = ok (fold_left insert_binding (let_bindings expr_list) ∅, names)).
  { intros Hnd. rewrite gather_lets_ok; [reflexivity | exact Hnd |].
    intros x _. apply lookup_empty. }
  assert (Hfail : ~ NoDup names -> gather_lets expr_list ∅ [] = fail AssertFailed).
  { intros Hnd. apply gather_lets_fails. intros [H _]. exact (Hnd H). }
  split; [| split].
  - split.
    + intros Hnd. eexists _, _. apply Hok, Hnd.
    + intros (m & l & H). destruct (decide (NoDup names)) as [Hnd | Hnd]; [exact Hnd |].
      rewrite (Hfail Hnd) in H. discriminate.
  - split; [exact Hfail |].
    intros H Hnd. rewrite (Hok Hnd) in H. discriminate.
  - intros m l H.
    destruct (decide (NoDup names)) as [Hnd | Hnd];
      [| rewrite (Hfail Hnd) in H; discriminate].
    rewrite (Hok Hnd) in H. injection H as <- <-. split; [reflexivity |].
    intros name value. rewrite fold_insert_binding_lookup.
    + rewrite lookup_empty. split; [intros [H | H]; [discriminate | exact H] | auto].
    + exact Hnd.
    + intros x _. apply lookup_empty.
Qed.

Lemma gather_expr_list_spec (values : list ExprRef) :
  sorted_ends_with_root ->
  forall (expr_list : list Node) (output_exprs : list ptr),
    gather_expr_list values expr_list output_exprs
    = ok (expr_list ++ flat_map sort_expressions values,
          output_exprs ++ List.map addr values).
Proof.
  intros Hsort. induction values as [| e rest IH]; intros expr_list output_exprs.
  - simpl. rewrite !app_nil_r. reflexivity.
  - simpl gather_expr_list. destruct (Hsort e) as (below & root & Hs & Hroot).
    rewrite Hs, app_assoc, map_app. simpl List.map.
    rewrite last_last, IH. simpl flat_map. rewrite Hs, Hroot.
    rewrite <- !app_assoc. reflexivity.
Qed.

Lemma seed_outputs_lookup (output_exprs : list ptr) :
  forall (ea : gmap ptr Expr) (p : ptr),
    seed_outputs output_exprs ea !! p
    = if bool_decide (p ∈ output_exprs) then Some (FloatImm (Float 32) 1%Q)
      else ea !! p.
Proof.
  unfold seed_outputs.
  induction output_exprs as [| q rest IH]; intros ea p; simpl.
  - reflexivity.
  - rewrite IH. destruct (decide (p ∈ rest)) as [Hin | Hnot].
    + rewrite !bool_decide_eq_true_2; [reflexivity | right; exact Hin | exact Hin].
    + rewrite (bool_decide_eq_false_2 _ Hnot).
      destruct (decide (p = q)) as [-> | Hne].
      * rewrite lookup_insert_eq, bool_decide_eq_true_2 by left. reflexivity.
      * rewrite lookup_insert_ne by congruence.
        rewrite bool_decide_eq_false_2; [reflexivity |].
        intros H. apply elem_of_cons in H. destruct H; contradiction.
Qed.

(** X15: the expression list of an update and the seeding of its outputs.
    When [sort_expressions] lists an expression last among the nodes below
    it, the expression list of an update is the sorted lists of its values
    one after the other, the output expressions are the values themselves,
    and the seeding sets the adjoint of every value of the tuple to the
    constant [1.f] and leaves every other entry of the adjoint map as it
    was. *)
Theorem outputs_are_seeded_with_one (values : list ExprRef) (ea : gmap ptr Expr) :
  sorted_ends_with_root ->
  gather_expr_list values [] []
    = ok (flat_map sort_expressions values, List.map addr values) /\
  (forall value, In value values ->
     seed_outputs (List.map addr values) ea !! addr value
     = Some (FloatImm (Float 32) 1%Q)) /\
  (forall p, ~ In p (List.map addr values) ->
     seed_outputs (List.map addr values) ea !! p = ea !! p).
Proof.
  intros Hsort. split; [| split].
  - rewrite gather_expr_list_spec by exact Hsort. reflexivity.
  - intros value Hin. rewrite seed_outputs_lookup, bool_decide_eq_true_2; [reflexivity |].
    apply list_elem_of_In, in_map, Hin.
  - intros p Hnot. rewrite seed_outputs_lookup, bool_decide_eq_false_2; [reflexivity |].
    intros H. apply Hnot, list_elem_of_In, H.
Qed.

End DetectionSetup.

Section ScanKeys.
Import IR Derivative Statements.
Context `{Ext : Externals}.

Lemma check_self_reference_scan (func : Func) (upd : UpdateDefinition)
    (used : bool) (v : visitor) :
  check_self_reference func upd used v = ok true -> has_reduction_var upd = true.
Proof.
  unfold check_self_reference.
  destruct (all_zero_or_one_self_adjoint v), (has_reduction_var upd);
    simpl; try discriminate. reflexivity.
Qed.

Lemma detect_update_scan (func : Func) (boxes : list Box) (update_id : nat)
    (upd : UpdateDefinition) (v v' : visitor) :
  detect_update func boxes update_id upd v = ok (v', true) ->
  has_reduction_var upd = true.
Proof.
  unfold detect_update.
  destruct (differentiate_update func upd v) as [e | v1]; simpl; [discriminate |].
  destruct (check_uses_of_overwritten func boxes update_id v1) as [e | used]; simpl;
    [discriminate |].
  destruct (check_self_reference func upd used (set_expr_adjoints v1 ∅))
    as [e | scan] eqn:Hc; simpl; [discriminate |].
  intros [= _ ->]. eapply check_self_reference_scan, Hc.
Qed.

Lemma detect_updates_keys (funcs : list Func) (func : Func) (boxes : list Box)
    (upds : list UpdateDefinition) :
  In func funcs ->
  forall (update_id : nat) (v v' : visitor) (scans scans' : gset FuncKey),
    (forall i upd, upds !! i = Some upd ->
                   f_updates func !! (update_id + i)%nat = Some upd) ->
    (forall key, key ∈ scans -> names_scan_update funcs key) ->
    detect_updates func boxes update_id upds v scans = ok (v', scans') ->
    forall key, key ∈ scans' -> names_scan_update funcs key.
Proof.
  intros Hin. induction upds as [| upd rest IH];
    intros update_id v v' scans scans' Hupds Hscans; simpl.
  - intros [= <- <-]. exact Hscans.
  - destruct (detect_update func boxes update_id upd v) as [e | [v1 scan]] eqn:Hd;
      cbn [bind]; [discriminate |].
    apply IH.
    + intros i u Hi. replace (S update_id + i)%nat with (update_id + S i)%nat by lia.
      apply Hupds. exact Hi.
    + intros key. unfold insert_scan. destruct scan; [| apply Hscans].
      rewrite elem_of_union, elem_of_singleton. intros [-> | Hk]; [| apply Hscans, Hk].
      exists func, update_id, upd. split; [exact Hin |]. split; [reflexivity |].
      split.
      * rewrite <- (Nat.add_0_r update_id). apply Hupds. reflexivity.
      * eapply detect_update_scan, Hd.
Qed.

Lemma detect_funcs_keys (all : list Func) (funcs : list Func) :
  (forall func, In func funcs -> In func all) ->
  forall (v v' : visitor) (scans scans' : gset FuncKey),
    (forall key, key ∈ scans -> names_scan_update all key) ->
    detect_funcs funcs v scans = ok (v', scans') ->
    forall key, key ∈ scans' -> names_scan_update all key.
Proof.
  induction funcs as [| func rest IH]; intros Hsub v v' scans scans' Hscans; simpl.
  - intros [= <- <-]. exact Hscans.
  - destruct (detect_func func v scans) as [e | [v1 scans1]] eqn:Hd; cbn [bind];
      [discriminate |].
    apply IH.
    + intros f Hf. apply Hsub. right. exact Hf.
    + unfold detect_func in Hd.
      eapply detect_updates_keys; [| | exact Hscans | exact Hd].
      * apply Hsub. left. reflexivity.
      * intros i upd Hi. exact Hi.
Qed.

(** X16: what the detection phase hands on.  It fails its assertion on an
    empty list of functions.  When it succeeds, the visitor has left the
    detection phase, and every key recorded in [non_overwriting_scans]
    names an update of a function of the list that has reduction
    variables: its index is 0 or more, never the [-1] of a pure
    definition, and less than the number of updates of the function. *)
Theorem recorded_scans_are_updates (funcs : list Func) (v : visitor) :
  (funcs = [] -> forward_overwrite_detection funcs v = fail InternalAssert) /\
  (forall v' scans,
     forward_overwrite_detection funcs v = ok (v', scans) ->
     is_forward_overwrite_detection_phase v' = false /\
     forall name update_id,
       (name, update_id) ∈ scans ->
       names_scan_update funcs (name, update_id) /\
       exists func,
         In func funcs /\ f_name func = name /\
         0 <= update_id < Z.of_nat (num_update_definitions func)).
Proof.
  split.
  - intros ->. reflexivity.
  - intros v' scans. unfold forward_overwrite_detection.
    destruct (Nat.eqb (length funcs) 0); [discriminate |].
    destruct (detect_funcs funcs (set_detection_phase v true) ∅)
      as [e | [v1 scans1]] eqn:Hd; cbn [bind]; [discriminate |].
    intros [= <- <-]. split; [reflexivity |].
    intros name update_id Hkey.
    assert (H : names_scan_update funcs (name, update_id)).
    { eapply (detect_funcs_keys funcs funcs); [auto | | exact Hd | exact Hkey].
      intros key Hk. apply elem_of_empty in Hk. destruct Hk. }
    split; [exact H |].
    destruct H as (func & i & upd & Hin & [= -> ->] & Hupd & _).
    exists func. split; [exact Hin |]. split; [reflexivity |].
    apply lookup_lt_Some in Hupd. unfold num_update_definitions. lia.
Qed.

End ScanKeys.

Section NotOverwritingCondition.
Import IR Derivative Statements.
Context `{Ext : Externals}.

Lemma to_bool_NE (env : Env) (c s u : Expr) :
  to_bool (eval env (Binary Or c (Binary NE s u)))
  = to_bool (eval env c) || negb (Qeq_bool (eval env s) (eval env u)).
Proof. cbn [eval eval_binary]. rewrite !to_bool_of_bool. reflexivity. Qed.

Lemma not_overwriting_cond_truth (env : Env) :
  simplify_keeps_truth ->
  forall (self_ref_args update_args : list Expr) (cond : Expr),
    to_bool (eval env (not_overwriting_cond self_ref_args update_args cond))
    = to_bool (eval env cond)
      || existsb (fun su => negb (Qeq_bool (eval env su.1) (eval env su.2)))
           (combine self_ref_args update_args).
Proof.
  intros Hs. induction self_ref_args as [| s ss IH]; intros update_args cond.
  - simpl. rewrite orb_false_r. reflexivity.
  - destruct update_args as [| u us]; simpl.
    + rewrite orb_false_r. reflexivity.
    + rewrite IH, Hs, to_bool_NE, orb_assoc. reflexivity.
Qed.

(** X17: what the condition of checking 2 says.  When the simplifier keeps
    the truth value of conditions, the condition built for one recorded
    self-reference holds at a point exactly when the read location and the
    write location differ there in some coordinate; for a self-reference
    with the very arguments of the update it holds nowhere. *)
Theorem not_overwriting_cond_means_locations_differ
    (env : Env) (self_ref_args update_args : list Expr) :
  simplify_keeps_truth ->
  (to_bool (eval env (not_overwriting_cond self_ref_args update_args const_false))
     = true <->
   some_coordinate_differs env self_ref_args update_args) /\
  to_bool (eval env (not_overwriting_cond update_args update_args const_false)) = false.
Proof.
  intros Hs. split.
  - rewrite (not_overwriting_cond_truth env Hs). simpl.
    rewrite existsb_exists. unfold some_coordinate_differs. split.
    + intros ([s u] & Hin & Hne). simpl in Hne.
      apply list_elem_of_In, list_elem_of_lookup in Hin. destruct Hin as [i Hi].
      apply lookup_zip_with_Some in Hi.
      destruct Hi as (s' & u' & [= -> ->] & Hs' & Hu').
      exists i, s', u'. split; [exact Hs' |]. split; [exact Hu' |].
      intros Heq. apply Qeq_bool_iff in Heq. rewrite Heq in Hne. discriminate.
    + intros (i & s & u & Hs' & Hu' & Hne). exists (s, u). split.
      * apply list_elem_of_In. eapply list_elem_of_lookup_2 with (i := i).
        apply lookup_zip_with_Some. exists s, u. auto.
      * simpl. apply negb_true_iff. destruct (Qeq_bool (eval env s) (eval env u)) eqn:E;
          [| reflexivity].
        apply Qeq_bool_iff in E. contradiction.
  - rewrite (not_overwriting_cond_truth env Hs). simpl.
    induction update_args as [| u us IH]; simpl; [reflexivity |].
    rewrite IH, orb_false_r. apply negb_false_iff, Qeq_bool_iff. reflexivity.
Qed.

End NotOverwritingCondition.

Section BoundsInferenceBox.
Import IR Derivative Statements.

Lemma fold_push_back (bounds : list (Expr * Expr)) :
  forall box : Box,
    fold_left (fun box p => box ++ [ {| i_min := p.1; i_max := p.2 |} ]) bounds box
    = box ++ List.map (fun p => {| i_min := p.1; i_max := p.2 |}) bounds.
Proof.
  induction bounds as [| p rest IH]; intros box; simpl.
  - rewrite app_nil_r. reflexivity.
  - rewrite IH, <- app_assoc. reflexivity.
Qed.

(** X18: the box handed to the bounds inference is twice as long as
    [output_bounds].  It starts with one default interval, from minus
    infinity to plus infinity, for every pair of [output_bounds], and the
    intervals of the pairs come after them: the interval of the i-th pair
    sits at index [n + i], where [n] is the number of pairs. *)
Theorem output_box_is_doubled (output_bounds : list (Expr * Expr)) :
  let n := length output_bounds in
  length (output_box output_bounds) = (2 * n)%nat /\
  (forall i, (i < n)%nat -> output_box output_bounds !! i = Some Interval_everything) /\
  (forall i p,
     output_bounds !! i = Some p ->
     output_box output_bounds !! (n + i)%nat = Some {| i_min := p.1; i_max := p.2 |}).
Proof.
  intros n. unfold output_box. rewrite fold_push_back. fold n. unfold Box.
  split; [| split].
  - rewrite length_app, length_replicate, length_map. lia.
  - intros i Hi. rewrite lookup_app_l by (rewrite length_replicate; exact Hi).
    apply lookup_replicate. split; [reflexivity | exact Hi].
  - intros i p Hp. rewrite lookup_app_r by (rewrite length_replicate; lia).
    rewrite length_replicate. replace (n + i - n)%nat with i by lia.
    change (List.map ?f output_bounds) with (f <$> output_bounds).
    rewrite list_lookup_fmap, Hp. reflexivity.
Qed.

End BoundsInferenceBox.

Section Allocation.
Import IR Derivative Statements.
Variable is_implicit : string -> bool.
Variable unique_name : nat -> string.
Variable find_buffer_calls : Func -> gmap string BufferInfo.
Variable adjoint : Func.

Abbreviation alloc_stub := (allocate_stub is_implicit unique_name adjoint).
Abbreviation alloc_updates := (allocate_updates is_implicit unique_name adjoint).
Abbreviation alloc_funcs := (allocate_funcs is_implicit unique_name adjoint).

Lemma replace_implicit_length (args : list string) :
  forall next : nat,
    length (replace_implicit is_implicit unique_name args next).1 = length args.
Proof.
  induction args as [| a rest IH]; intros next; simpl; [reflexivity |].
  destruct (is_implicit a).
  - specialize (IH (S next)).
    destruct (replace_implicit is_implicit unique_name rest (S next)). simpl in *.
    rewrite IH. reflexivity.
  - specialize (IH next).
    destruct (replace_implicit is_implicit unique_name rest next). simpl in *.
    rewrite IH. reflexivity.
Qed.

Lemma fresh_vars_length (n : nat) :
  forall next : nat, length (fresh_vars unique_name n next).1 = n.
Proof.
  induction n as [| n IH]; intros next; simpl; [reflexivity |].
  specialize (IH (S next)). destruct (fresh_vars unique_name n (S next)).
  simpl in *. rewrite IH. reflexivity.
Qed.

Lemma in_update_ids (func : Func) (update_id : Z) :
  In update_id (update_ids func) <-> is_update_id func update_id.
Proof.
  unfold update_ids, is_update_id, last_update_id. rewrite in_map_iff. split.
  - intros (i & <- & Hi). apply in_seq in Hi. lia.
  - intros H. exists (Z.to_nat (update_id + 1)). split; [lia |].
    apply in_seq. lia.
Qed.

Lemma update_ids_head (func : Func) :
  exists rest, update_ids func = -1 :: rest.
Proof. unfold update_ids. simpl. eexists. reflexivity. Qed.

(** One stub. *)
Lemma allocate_stub_cases (is_last_func : bool) (func : Func) (st : allocation)
    (update_id : Z) :
  match adjoint_funcs st !! (f_name func, update_id) with
  | Some _ => alloc_stub is_last_func func st update_id = fail AssertFailed
  | None =>
      exists acc next,
        alloc_stub is_last_func func st update_id
        = ok {| adjoint_funcs := <[(f_name func, update_id) := acc]> (adjoint_funcs st);
                next_var := next |} /\
        stub_of adjoint (is_last_func && Z.eqb update_id (last_update_id func))
          func update_id acc
  end.
Proof.
  unfold allocate_stub.
  pose proof (replace_implicit_length (f_args func) (next_var st)) as Hlen.
  destruct (replace_implicit is_implicit unique_name (f_args func) (next_var st))
    as [args next].
  destruct (adjoint_funcs st !! (f_name func, update_id)); [reflexivity |].
  eexists _, _. split; [reflexivity |].
  split; [reflexivity |]. split; [exact Hlen | reflexivity].
Qed.

(** The stubs of one function: what a run that succeeds has done. *)
Lemma allocate_updates_inv (is_last_func : bool) (func : Func) (ids : list Z) :
  forall st st' : allocation,
    alloc_updates is_last_func func ids st = ok st' ->
    (forall id, In id ids -> adjoint_funcs st !! (f_name func, id) = None) /\
    (forall id, In id ids -> is_Some (adjoint_funcs st' !! (f_name func, id))) /\
    (forall key acc, adjoint_funcs st !! key = Some acc ->
                     adjoint_funcs st' !! key = Some acc) /\
    (forall key acc,
       adjoint_funcs st' !! key = Some acc ->
       adjoint_funcs st !! key = Some acc \/
       exists id, In id ids /\ key = (f_name func, id) /\
         stub_of adjoint (is_last_func && Z.eqb id (last_update_id func)) func id acc).
Proof.
  induction ids as [| id rest IH]; intros st st'; simpl.
  - intros [= <-]. repeat split; try (intros ? []); auto.
  - pose proof (allocate_stub_cases is_last_func func st id) as Hc.
    destruct (adjoint_funcs st !! (f_name func, id)) as [old |] eqn:Hl.
    + rewrite Hc. discriminate.
    + destruct Hc as (acc & next & -> & Hacc). cbn [bind]. intros Hrest.
      destruct (IH _ _ Hrest) as (H1 & H2 & H3 & H4). simpl in *.
      split; [| split; [| split]].
      * intros id' [<- | Hin]; [exact Hl |].
        specialize (H1 id' Hin).
        destruct (decide (id = id')) as [-> | Hne].
        -- rewrite lookup_insert_eq in H1. discriminate.
        -- rewrite lookup_insert_ne in H1 by congruence. exact H1.
      * intros id' [<- | Hin]; [| apply H2, Hin].
        exists acc. apply H3, lookup_insert_eq.
      * intros key a Ha. apply H3.
        rewrite lookup_insert_ne; [exact Ha |]. intros Heq. subst key. unfold FuncKey in *. congruence.
      * intros key a Ha. destruct (H4 key a Ha) as [Hold | (id' & Hin & Hk & Hs)].
        -- destruct (decide ((f_name func, id) = key)) as [<- | Hne].
           ++ rewrite lookup_insert_eq in Hold. injection Hold as <-.
              right. exists id. auto.
           ++ rewrite lookup_insert_ne in Hold by exact Hne. left. exact Hold.
        -- right. exists id'. auto.
Qed.

Lemma allocate_updates_ok (is_last_func : bool) (func : Func) (ids : list Z) :
  forall st : allocation,
    List.NoDup ids ->
    (forall id, In id ids -> adjoint_funcs st !! (f_name func, id) = None) ->
    exists st', alloc_updates is_last_func func ids st = ok st'.
Proof.
  induction ids as [| id rest IH]; intros st Hnd Hfresh; simpl.
  - eexists. reflexivity.
  - pose proof (allocate_stub_cases is_last_func func st id) as Hc.
    rewrite (Hfresh id) in Hc by (left; reflexivity).
    destruct Hc as (acc & next & -> & _). cbn [bind].
    inversion Hnd as [| ? ? Hnotin Hnd']; subst.
    apply IH; [exact Hnd' |].
    intros id' Hin. simpl. rewrite lookup_insert_ne.
    + apply Hfresh. right. exact Hin.
    + intros [= <-]. contradiction.
Qed.

Lemma allocate_updates_error (is_last_func : bool) (func : Func) (ids : list Z) :
  forall (st : allocation) (e : error),
    alloc_updates is_last_func func ids st = fail e -> e = AssertFailed.
Proof.
  induction ids as [| id rest IH]; intros st e; simpl; [discriminate |].
  pose proof (allocate_stub_cases is_last_func func st id) as Hc.
  destruct (adjoint_funcs st !! (f_name func, id)).
  - rewrite Hc. intros [= <-]. reflexivity.
  - destruct Hc as (acc & next & -> & _). cbn [bind]. apply IH.
Qed.

Lemma update_ids_NoDup (func : Func) : List.NoDup (update_ids func).
Proof.
  unfold update_ids. induction (seq_NoDup (S (num_update_definitions func)) 0)
    as [| i l Hnotin _ IH]; simpl; constructor; [| exact IH].
  intros Hin. apply in_map_iff in Hin. destruct Hin as (j & Hj & Hin).
  assert (j = i) by lia. subst j. contradiction.
Qed.

Lemma allocate_funcs_cons (count func_id : nat) (func : Func) (rest : list Func)
    (st : allocation) :
  alloc_funcs count func_id (func :: rest) st
  = (let* st' := alloc_updates (Z.of_nat func_id =? Z.of_nat count - 1) func
                   (update_ids func) st in
     alloc_funcs count (S func_id) rest st').
Proof. reflexivity. Qed.

(** The stubs of the functions from position [func_id] on. *)
Lemma allocate_funcs_inv (count : nat) (funcs : list Func) :
  forall (func_id : nat) (st st' : allocation),
    (func_id + length funcs = count)%nat ->
    alloc_funcs count func_id funcs st = ok st' ->
    List.NoDup (List.map f_name funcs) /\
    (forall func id, In func funcs -> is_update_id func id ->
                     adjoint_funcs st !! (f_name func, id) = None) /\
    (forall func id, In func funcs -> is_update_id func id ->
                     is_Some (adjoint_funcs st' !! (f_name func, id))) /\
    (forall key acc, adjoint_funcs st !! key = Some acc ->
                     adjoint_funcs st' !! key = Some acc) /\
    (forall key acc,
       adjoint_funcs st' !! key = Some acc ->
       adjoint_funcs st !! key = Some acc \/
       exists (i : nat) (func : Func),
         funcs !! i = Some func /\ key.1 = f_name func /\ is_update_id func key.2 /\
         stub_of adjoint
           (Nat.eqb (S i) (length funcs) && Z.eqb key.2 (last_update_id func))
           func key.2 acc).
Proof.
  induction funcs as [| func rest IH]; intros func_id st st' Hcount;
    [simpl | rewrite allocate_funcs_cons].
  - intros [= <-]. split; [constructor |].
    split; [intros ? ? [] |]. split; [intros ? ? [] |]. split; auto.
  - destruct (alloc_updates (Z.of_nat func_id =? Z.of_nat count - 1) func
                (update_ids func) st) as [e | st1] eqn:Hu; cbn [bind]; [discriminate |].
    intros Hrest. simpl length in Hcount.
    destruct (allocate_updates_inv _ _ _ _ _ Hu) as (U1 & U2 & U3 & U4).
    destruct (IH (S func_id) st1 st' ltac:(lia) Hrest) as (R0 & R1 & R2 & R3 & R4).
    assert (Hlast : (Z.of_nat func_id =? Z.of_nat count - 1)
                    = Nat.eqb 1 (length (func :: rest))).
    { simpl length. destruct rest as [| f2 rest2]; simpl in *.
      - apply Z.eqb_eq. lia.
      - apply Z.eqb_neq. lia. }
    assert (Hpure : forall g : Func, is_update_id g (-1)).
    { intros g. unfold is_update_id, last_update_id. lia. }
    split; [| split; [| split; [| split]]].
    + simpl. constructor; [| exact R0].
      intros Hin. apply in_map_iff in Hin. destruct Hin as (g & Hname & Hg).
      specialize (R1 g (-1) Hg (Hpure g)). rewrite Hname in R1.
      destruct (U2 (-1)) as [acc Hacc]; [apply in_update_ids, Hpure |].
      unfold FuncKey in *. congruence.
    + intros g id [<- | Hg] Hid.
      * apply U1, in_update_ids, Hid.
      * specialize (R1 g id Hg Hid).
        destruct (adjoint_funcs st !! (f_name g, id)) as [acc |] eqn:Hl; [| reflexivity].
        pose proof (U3 _ _ Hl) as Hl1. unfold FuncKey in *. congruence.
    + intros g id [<- | Hg] Hid.
      * destruct (U2 id) as [acc Hacc]; [apply in_update_ids, Hid |].
        exists acc. apply R3, Hacc.
      * apply R2; assumption.
    + intros key acc Hacc. apply R3, U3, Hacc.
    + intros key acc Hacc.
      destruct (R4 key acc Hacc) as [H1 | (i & g & Hi & Hk & Hid & Hs)].
      * destruct (U4 key acc H1) as [H0 | (id & Hin & -> & Hs)]; [left; exact H0 |].
        right. exists 0%nat, func. split; [reflexivity |]. split; [reflexivity |].
        split; [apply in_update_ids, Hin |].
        rewrite Hlast in Hs. exact Hs.
      * right. exists (S i), g. split; [exact Hi |]. split; [exact Hk |].
        split; [exact Hid | exact Hs].
Qed.

Lemma allocate_funcs_ok (count : nat) (funcs : list Func) :
  forall (func_id : nat) (st : allocation),
    List.NoDup (List.map f_name funcs) ->
    (forall func id, In func funcs -> is_update_id func id ->
                     adjoint_funcs st !! (f_name func, id) = None) ->
    exists st', alloc_funcs count func_id funcs st = ok st'.
Proof.
  induction funcs as [| func rest IH]; intros func_id st Hnd Hfresh;
    [simpl | rewrite allocate_funcs_cons].
  - eexists. reflexivity.
  - simpl in Hnd. inversion Hnd as [| ? ? Hnotin Hnd']; subst.
    destruct (allocate_updates_ok (Z.of_nat func_id =? Z.of_nat count - 1) func
                (update_ids func) st (update_ids_NoDup func)) as [st1 Hu].
    { intros id Hin. apply Hfresh; [left; reflexivity | apply in_update_ids, Hin]. }
    rewrite Hu. cbn [bind]. apply IH; [exact Hnd' |].
    intros g id Hg Hid.
    destruct (adjoint_funcs st1 !! (f_name g, id)) as [acc |] eqn:Hl; [| reflexivity].
    destruct (allocate_updates_inv _ _ _ _ _ Hu) as (_ & _ & _ & U4).
    destruct (U4 _ _ Hl) as [H0 | (id' & _ & [= Hname _] & _)].
    + pose proof (Hfresh g id (or_intror Hg) Hid) as Hf.
      unfold FuncKey in *. congruence.
    + exfalso. apply Hnotin. rewrite <- Hname. apply in_map, Hg.
Qed.

Lemma allocate_funcs_error (count : nat) (funcs : list Func) :
  forall (func_id : nat) (st : allocation) (e : error),
    alloc_funcs count func_id funcs st = fail e -> e = AssertFailed.
Proof.
  induction funcs as [| func rest IH]; intros func_id st e;
    [discriminate | rewrite allocate_funcs_cons].
  destruct (alloc_updates (Z.of_nat func_id =? Z.of_nat count - 1) func
              (update_ids func) st) as [e1 | st1] eqn:Hu; cbn [bind].
  - intros [= <-]. eapply allocate_updates_error, Hu.
  - apply IH.
Qed.

(** The keys a successful allocation of the function stubs holds. *)
Lemma function_stub_keys (funcs : list Func) (st : allocation) :
  allocate_function_stubs is_implicit unique_name adjoint funcs = ok st ->
  forall name id,
    is_Some (adjoint_funcs st !! (name, id)) <->
    exists func, In func funcs /\ f_name func = name /\ is_update_id func id.
Proof.
  unfold allocate_function_stubs. intros H name id.
  destruct (allocate_funcs_inv (length funcs) funcs 0 _ st eq_refl H)
    as (_ & _ & H2 & _ & H4).
  split.
  - intros [acc Hacc]. destruct (H4 _ _ Hacc) as [H0 | (i & func & Hi & Hk & Hid & _)].
    + simpl in H0. rewrite lookup_empty in H0. discriminate.
    + simpl in Hk, Hid. exists func. split; [| split; [symmetry; exact Hk | exact Hid]].
      apply list_elem_of_In. eapply list_elem_of_lookup_2, Hi.
  - intros (func & Hin & <- & Hid). apply H2; assumption.
Qed.

(** X19: the stubs of the functions.  The allocation succeeds exactly when
    no two functions of the list have the same name, and fails its
    assertion otherwise.  When it succeeds, [adjoint_funcs] holds one stub
    under every key made of the name of a function of the list and one of
    its update indices, from the [-1] of the pure definition to its last
    update, and under no other key; the stub is named after the function
    and the index plus one, has as many arguments as the function, and its
    values are zeros of the types of the function, except under the last
    key of the last function, where they are the seed adjoint called at
    the arguments. *)
Theorem function_stubs_are_allocated (funcs : list Func) :
  let allocated := allocate_function_stubs is_implicit unique_name adjoint funcs in
  (List.NoDup (List.map f_name funcs) <-> exists st, allocated = ok st) /\
  (~ List.NoDup (List.map f_name funcs) <-> allocated = fail AssertFailed) /\
  (forall st,
     allocated = ok st ->
     (forall name id,
        is_Some (adjoint_funcs st !! (name, id)) <->
        exists func, In func funcs /\ f_name func = name /\ is_update_id func id) /\
     (forall name id acc,
        adjoint_funcs st !! (name, id) = Some acc ->
        exists (i : nat) (func : Func),
          funcs !! i = Some func /\ f_name func = name /\
          acc_name acc = name +:+ "_" +:+ to_string (id + 1) +:+ "_d_def__" /\
          length (acc_args acc) = length (f_args func) /\
          acc_values acc =
            if Nat.eqb (S i) (length funcs) && Z.eqb id (last_update_id func)
            then call_values adjoint (List.map Var_expr (acc_args acc))
            else zero_values func)).
Proof.
  intros allocated. subst allocated. unfold allocate_function_stubs.
  set (st0 := {| adjoint_funcs := ∅; next_var := 0 |}).
  assert (Hok : List.NoDup (List.map f_name funcs) ->
                exists st, alloc_funcs (length funcs) 0 funcs st0 = ok st).
  { intros Hnd. apply allocate_funcs_ok; [exact Hnd |].
    intros func id _ _. apply lookup_empty. }
  assert (Hinv : forall st, alloc_funcs (length funcs) 0 funcs st0 = ok st ->
                 List.NoDup (List.map f_name funcs)).
  { intros st H.
    exact (proj1 (allocate_funcs_inv (length funcs) funcs 0 st0 st eq_refl H)). }
  split; [| split].
  - split; [exact Hok | intros [st H]; exact (Hinv st H)].
  - split.
    + intros Hnd.
      destruct (alloc_funcs (length funcs) 0 funcs st0) as [e | st] eqn:H.
      * rewrite (allocate_funcs_error _ _ _ _ _ H). reflexivity.
      * exfalso. exact (Hnd (Hinv st eq_refl)).
    + intros H Hnd. destruct (Hok Hnd) as [st Hst]. rewrite Hst in H. discriminate.
  - intros st H. split; [apply function_stub_keys, H |].
    intros name id acc Hacc.
    destruct (allocate_funcs_inv (length funcs) funcs 0 _ st eq_refl H)
      as (_ & _ & _ & _ & H4).
    destruct (H4 _ _ Hacc) as [H0 | (i & func & Hi & Hk & Hid & Hn & Hl & Hv)].
    + simpl in H0. rewrite lookup_empty in H0. discriminate.
    + simpl in Hk, Hid, Hn, Hl, Hv. exists i, func.
      split; [exact Hi |]. split; [symmetry; exact Hk |].
      split; [rewrite Hn, Hk; reflexivity |]. split; [exact Hl | exact Hv].
Qed.

(** One buffer stub. *)
Lemma allocate_buffer_stub_cases (st : allocation) (it : string * BufferInfo) :
  match adjoint_funcs st !! (it.1, -1) with
  | Some _ => allocate_buffer_stub unique_name st it = fail (naming_conflict it.1)
  | None =>
      exists acc next,
        allocate_buffer_stub unique_name st it
        = ok {| adjoint_funcs := <[(it.1, -1) := acc]> (adjoint_funcs st);
                next_var := next |} /\
        buffer_stub_of it.1 it.2 acc
  end.
Proof.
  unfold allocate_buffer_stub, FuncKey.
  pose proof (fresh_vars_length (Z.to_nat (dimension it.2)) (next_var st)) as Hlen.
  destruct (fresh_vars unique_name (Z.to_nat (dimension it.2)) (next_var st))
    as [args next].
  match goal with
  | |- context [@lookup ?K ?A ?M ?I ?k (adjoint_funcs st)] =>
      destruct (@lookup K A M I k (adjoint_funcs st))
  end; [reflexivity |].
  eexists _, _. split; [reflexivity |].
  split; [reflexivity |]. split; [exact Hlen | reflexivity].
Qed.

Lemma allocate_buffers_inv (l : list (string * BufferInfo)) :
  forall st st' : allocation,
    allocate_buffers unique_name l st = ok st' ->
    (forall it, In it l -> adjoint_funcs st !! (it.1, -1) = None) /\
    (forall key acc, adjoint_funcs st !! key = Some acc ->
                     adjoint_funcs st' !! key = Some acc) /\
    (forall it, In it l ->
       exists acc, adjoint_funcs st' !! (it.1, -1) = Some acc /\
                   buffer_stub_of it.1 it.2 acc) /\
    (forall key acc,
       adjoint_funcs st' !! key = Some acc ->
       adjoint_funcs st !! key = Some acc \/
       exists it, In it l /\ key = (it.1, -1) /\ buffer_stub_of it.1 it.2 acc).
Proof.
  induction l as [| it rest IH]; intros st st'; simpl.
  - intros [= <-]. split; [intros ? [] |]. split; [auto |].
    split; [intros ? [] | auto].
  - pose proof (allocate_buffer_stub_cases st it) as Hc.
    destruct (adjoint_funcs st !! (it.1, -1)) as [old |] eqn:Hl.
    + rewrite Hc. discriminate.
    + destruct Hc as (acc & next & -> & Hacc). cbn [bind]. intros Hrest.
      destruct (IH _ _ Hrest) as (H1 & H2 & H3 & H4). simpl in *.
      assert (Hmono : forall key a, adjoint_funcs st !! key = Some a ->
                                    adjoint_funcs st' !! key = Some a).
      { intros key a Ha. apply H2. rewrite lookup_insert_ne; [exact Ha |].
        intros Heq. subst key. unfold FuncKey in *. congruence. }
      split; [| split; [exact Hmono | split]].
      * intros it' [<- | Hin]; [exact Hl |].
        specialize (H1 it' Hin).
        destruct (adjoint_funcs st !! (it'.1, -1)) as [a |] eqn:Ha; [| reflexivity].
        destruct (decide ((it.1, -1) = (it'.1, -1))) as [Heq | Hne].
        -- rewrite Heq, lookup_insert_eq in H1. discriminate.
        -- rewrite lookup_insert_ne in H1 by exact Hne.
           unfold FuncKey in *. congruence.
      * intros it' [<- | Hin]; [| apply H3, Hin].
        exists acc. split; [apply H2, lookup_insert_eq | exact Hacc].
      * intros key a Ha. destruct (H4 key a Ha) as [Hold | (it' & Hin & Hk & Hs)].
        -- destruct (decide ((it.1, -1) = key)) as [<- | Hne].
           ++ rewrite lookup_insert_eq in Hold. injection Hold as <-.
              right. exists it. auto.
           ++ rewrite lookup_insert_ne in Hold by exact Hne. left. exact Hold.
        -- right. exists it'. auto.
Qed.

Lemma allocate_buffers_ok (l : list (string * BufferInfo)) :
  forall st : allocation,
    List.NoDup (List.map fst l) ->
    (forall it, In it l -> adjoint_funcs st !! (it.1, -1) = None) ->
    exists st', allocate_buffers unique_name l st = ok st'.
Proof.
  induction l as [| it rest IH]; intros st Hnd Hfresh; simpl.
  - eexists. reflexivity.
  - pose proof (allocate_buffer_stub_cases st it) as Hc.
    rewrite (Hfresh it) in Hc by (left; reflexivity).
    destruct Hc as (acc & next & -> & _). cbn [bind].
    simpl in Hnd. inversion Hnd as [| ? ? Hnotin Hnd']; subst.
    apply IH; [exact Hnd' |].
    intros it' Hin. simpl. rewrite lookup_insert_ne.
    + apply Hfresh. right. exact Hin.
    + intros [= Heq]. apply Hnotin. rewrite Heq. apply in_map, Hin.
Qed.

Lemma allocate_buffers_conflict (l : list (string * BufferInfo)) :
  forall (st : allocation) (e : error),
    List.NoDup (List.map fst l) ->
    allocate_buffers unique_name l st = fail e ->
    exists it, In it l /\ e = naming_conflict it.1 /\
               is_Some (adjoint_funcs st !! (it.1, -1)).
Proof.
  induction l as [| it rest IH]; intros st e Hnd; simpl; [discriminate |].
  pose proof (allocate_buffer_stub_cases st it) as Hc.
  destruct (adjoint_funcs st !! (it.1, -1)) as [old |] eqn:Hl.
  - rewrite Hc. intros [= <-]. exists it. split; [left; reflexivity |].
    split; [reflexivity |]. rewrite Hl. eauto.
  - destruct Hc as (acc & next & -> & _). cbn [bind]. intros Hrest.
    simpl in Hnd. inversion Hnd as [| ? ? Hnotin Hnd']; subst.
    destruct (IH _ _ Hnd' Hrest) as (it' & Hin & He & Hsome).
    exists it'. split; [right; exact Hin |]. split; [exact He |].
    simpl in Hsome. rewrite lookup_insert_ne in Hsome; [exact Hsome |].
    intros [= Heq]. apply Hnotin. rewrite Heq. apply in_map, Hin.
Qed.

Lemma buffers_in_order_elem (m : gmap string BufferInfo) (it : string * BufferInfo) :
  In it (buffers_in_order m) <-> m !! it.1 = Some it.2.
Proof.
  unfold buffers_in_order. rewrite <- list_elem_of_In, merge_sort_Permutation.
  destruct it as [name info]. apply elem_of_map_to_list.
Qed.

Lemma buffers_in_order_NoDup (m : gmap string BufferInfo) :
  List.NoDup (List.map fst (buffers_in_order m)).
Proof.
  apply NoDup_ListNoDup. unfold buffers_in_order.
  change (List.map fst ?l) with (l.*1).
  rewrite merge_sort_Permutation. apply NoDup_fst_map_to_list.
Qed.

Lemma allocate_buffer_stubs_fail (funcs : list Func) (st : allocation) (e : error) :
  allocate_buffer_stubs unique_name find_buffer_calls funcs st = fail e ->
  exists name,
    is_Some (called_buffers find_buffer_calls funcs !! name) /\
    is_Some (adjoint_funcs st !! (name, -1)) /\
    e = naming_conflict name.
Proof.
  unfold allocate_buffer_stubs. intros He.
  destruct (allocate_buffers_conflict _ _ _ (buffers_in_order_NoDup _) He)
    as ([name info] & Hin & -> & Hs).
  exists name. split; [| split; [exact Hs | reflexivity]].
  apply buffers_in_order_elem in Hin. simpl in Hin. rewrite Hin. eauto.
Qed.

Lemma allocate_buffer_stubs_entries (funcs : list Func) (st st' : allocation) :
  allocate_buffer_stubs unique_name find_buffer_calls funcs st = ok st' ->
  (forall name, is_Some (called_buffers find_buffer_calls funcs !! name) ->
                adjoint_funcs st !! (name, -1) = None) /\
  (forall key acc, adjoint_funcs st !! key = Some acc ->
                   adjoint_funcs st' !! key = Some acc) /\
  (forall name info,
     called_buffers find_buffer_calls funcs !! name = Some info ->
     exists acc, adjoint_funcs st' !! (name, -1) = Some acc /\
                 buffer_stub_of name info acc) /\
  (forall key acc,
     adjoint_funcs st' !! key = Some acc ->
     adjoint_funcs st !! key = Some acc \/
     exists info, called_buffers find_buffer_calls funcs !! key.1 = Some info /\
                  key.2 = -1 /\ buffer_stub_of key.1 info acc).
Proof.
  unfold allocate_buffer_stubs. intros Hst.
  destruct (allocate_buffers_inv _ _ _ Hst) as (H1 & H2 & H3 & H4).
  split; [| split; [exact H2 | split]].
  - intros name [info Hinfo]. apply (H1 (name, info)).
    apply buffers_in_order_elem. exact Hinfo.
  - intros name info Hinfo. apply (H3 (name, info)).
    apply buffers_in_order_elem. exact Hinfo.
  - intros key acc Hacc.
    destruct (H4 key acc Hacc) as [H0 | ([name info] & Hin & -> & Hs)];
      [left; exact H0 |].
    right. exists info. split; [| split; [reflexivity | exact Hs]].
    apply buffers_in_order_elem in Hin. exact Hin.
Qed.

Lemma allocate_buffer_stubs_succeeds (funcs : list Func) (st : allocation) :
  (forall name, is_Some (called_buffers find_buffer_calls funcs !! name) ->
                adjoint_funcs st !! (name, -1) = None) ->
  exists st', allocate_buffer_stubs unique_name find_buffer_calls funcs st = ok st'.
Proof.
  unfold allocate_buffer_stubs. intros Hfree.
  apply allocate_buffers_ok; [apply buffers_in_order_NoDup |].
  intros [name info] Hin. simpl. apply Hfree.
  apply buffers_in_order_elem in Hin. simpl in Hin. rewrite Hin. eauto.
Qed.

(** X20: the stubs of the buffers and the naming conflict.  A buffer
    conflicts when [adjoint_funcs] already holds an entry under its name
    and the index [-1].  The allocation of the buffer stubs raises (Naming
    conflict between buffer and function), naming a conflicting buffer,
    exactly when some called buffer conflicts; otherwise it succeeds, keeps
    every entry that was there, and adds under the name of every called
    buffer and the index [-1] a stub named after the buffer, with as many
    arguments as the buffer has dimensions and a zero of its type as
    value, and nothing else.  After the stubs of the functions are
    allocated, the conflicting buffers are the called buffers that have the
    name of a function of the list. *)
Theorem buffer_stubs_and_naming_conflict (funcs : list Func) (st : allocation) :
  let buffers := called_buffers find_buffer_calls funcs in
  let conflict (name : string) :=
    is_Some (buffers !! name) /\ is_Some (adjoint_funcs st !! (name, -1)) in
  let allocated := allocate_buffer_stubs unique_name find_buffer_calls funcs st in
  ((exists name, conflict name) <->
   exists name, conflict name /\ allocated = fail (naming_conflict name)) /\
  (~ (exists name, conflict name) <-> exists st', allocated = ok st') /\
  (forall st',
     allocated = ok st' ->
     (forall key acc, adjoint_funcs st !! key = Some acc ->
                      adjoint_funcs st' !! key = Some acc) /\
     (forall name info,
        buffers !! name = Some info ->
        exists acc, adjoint_funcs st' !! (name, -1) = Some acc /\
                    buffer_stub_of name info acc) /\
     (forall key acc,
        adjoint_funcs st' !! key = Some acc ->
        adjoint_funcs st !! key = Some acc \/
        exists info, buffers !! key.1 = Some info /\ key.2 = -1 /\
                     buffer_stub_of key.1 info acc)) /\
  (allocate_function_stubs is_implicit unique_name adjoint funcs = ok st ->
   forall name,
     conflict name <->
     is_Some (buffers !! name) /\ exists func, In func funcs /\ f_name func = name).
Proof.
  intros buffers conflict allocated. subst allocated. subst buffers.
  assert (Hok : forall st',
            allocate_buffer_stubs unique_name find_buffer_calls funcs st = ok st' ->
            ~ exists name, conflict name).
  { intros st' Hst (name & Hb & [acc Hacc]).
    destruct (allocate_buffer_stubs_entries _ _ _ Hst) as (H1 & _).
    rewrite (H1 name Hb) in Hacc. discriminate. }
  split; [| split; [| split]].
  - split.
    + intros Hc.
      destruct (allocate_buffer_stubs unique_name find_buffer_calls funcs st)
        as [e | st'] eqn:Hr.
      * destruct (allocate_buffer_stubs_fail _ _ _ Hr) as (name & Hb & Hs & ->).
        exists name. split; [split; assumption | reflexivity].
      * exfalso. exact (Hok st' eq_refl Hc).
    + intros (name & Hname & _). exists name. exact Hname.
  - split.
    + intros Hno. apply allocate_buffer_stubs_succeeds. intros name Hb.
      destruct (adjoint_funcs st !! (name, -1)) as [acc |] eqn:Hl; [| reflexivity].
      exfalso. apply Hno. exists name. split; [exact Hb | rewrite Hl; eauto].
    + intros [st' Hst]. exact (Hok st' Hst).
  - intros st' Hst.
    destruct (allocate_buffer_stubs_entries _ _ _ Hst) as (_ & H2 & H3 & H4).
    split; [exact H2 |]. split; [exact H3 | exact H4].
  - intros Hst name. unfold conflict.
    rewrite (function_stub_keys funcs st Hst name (-1)).
    split.
    + intros [Hb (func & Hin & Hname & _)]. split; [exact Hb |].
      exists func. split; assumption.
    + intros [Hb (func & Hin & Hname)]. split; [exact Hb |].
      exists func. split; [exact Hin |]. split; [exact Hname |].
      unfold is_update_id, last_update_id. lia.
Qed.

(** X21: the outcome of the whole stub allocation.  It fails its assertion
    when two functions of the list have the same name.  When the names of
    the functions are distinct, it raises (Naming conflict between buffer
    and function), naming such a buffer, exactly when some called buffer
    has the name of a function of the list, and succeeds otherwise.  When it
    succeeds, [adjoint_funcs] holds an entry under exactly the keys of the
    updates of the functions and the keys of the called buffers with the
    index [-1]. *)
Theorem stub_allocation_outcome (funcs : list Func) :
  let buffers := called_buffers find_buffer_calls funcs in
  let allocated :=
    allocate_all_stubs is_implicit unique_name find_buffer_calls adjoint funcs in
  let clash (name : string) :=
    is_Some (buffers !! name) /\ exists func, In func funcs /\ f_name func = name in
  (~ List.NoDup (List.map f_name funcs) <-> allocated = fail AssertFailed) /\
  ((List.NoDup (List.map f_name funcs) /\ exists name, clash name) <->
   exists name, clash name /\ allocated = fail (naming_conflict name)) /\
  ((List.NoDup (List.map f_name funcs) /\ ~ exists name, clash name) <->
   exists st, allocated = ok st) /\
  (forall st,
     allocated = ok st ->
     forall name id,
       is_Some (adjoint_funcs st !! (name, id)) <->
       (exists func, In func funcs /\ f_name func = name /\ is_update_id func id) \/
       (is_Some (buffers !! name) /\ id = -1)).
Proof.
  intros buffers allocated clash. subst allocated buffers.
  unfold allocate_all_stubs.
  assert (Hminus : forall func : Func, is_update_id func (-1))
    by (intros func; unfold is_update_id, last_update_id; lia).
  destruct (allocate_function_stubs is_implicit unique_name adjoint funcs)
    as [e | st1] eqn:Hf; cbn [bind].
  - (* two functions of the same name *)
    assert (He : e = AssertFailed)
      by (unfold allocate_function_stubs in Hf; eapply allocate_funcs_error, Hf).
    subst e.
    assert (Hdup : ~ List.NoDup (List.map f_name funcs)).
    { intros Hnd.
      destruct (allocate_funcs_ok (length funcs) funcs 0
                  {| adjoint_funcs := ∅; next_var := 0 |} Hnd) as [st Hst].
      - intros func id _ _. apply lookup_empty.
      - unfold allocate_function_stubs in Hf. rewrite Hst in Hf. discriminate. }
    split; [| split; [| split]].
    + split; [reflexivity | intros _; exact Hdup].
    + split; [intros [Hnd _]; contradiction |].
      intros (name & _ & H). discriminate H.
    + split; [intros [Hnd _]; contradiction | intros [st H]; discriminate H].
    + intros st H. discriminate H.
  - assert (Hnd : List.NoDup (List.map f_name funcs)).
    { unfold allocate_function_stubs in Hf.
      exact (proj1 (allocate_funcs_inv (length funcs) funcs 0 _ st1 eq_refl Hf)). }
    pose proof (function_stub_keys funcs st1 Hf) as Hkeys.
    assert (Hclash : forall name,
              clash name <->
              is_Some (called_buffers find_buffer_calls funcs !! name) /\
              is_Some (adjoint_funcs st1 !! (name, -1))).
    { intros name. unfold clash. rewrite (Hkeys name (-1)). split.
      - intros [Hb (func & Hin & Hname)]. split; [exact Hb |].
        exists func. split; [exact Hin |]. split; [exact Hname | apply Hminus].
      - intros [Hb (func & Hin & Hname & _)]. split; [exact Hb |].
        exists func. split; assumption. }
    assert (Hok : forall st,
              allocate_buffer_stubs unique_name find_buffer_calls funcs st1 = ok st ->
              ~ exists name, clash name).
    { intros st Hst (name & Hc). apply Hclash in Hc. destruct Hc as [Hb [acc Hacc]].
      destruct (allocate_buffer_stubs_entries _ _ _ Hst) as (H1 & _).
      rewrite (H1 name Hb) in Hacc. discriminate. }
    split; [| split; [| split]].
    + split; [intros Hdup; contradiction |].
      intros H.
      destruct (allocate_buffer_stubs_fail _ _ _ H) as (name & _ & _ & Hne).
      discriminate Hne.
    + split.
      * intros [_ Hc].
        destruct (allocate_buffer_stubs unique_name find_buffer_calls funcs st1)
          as [e | st] eqn:Hr.
        -- destruct (allocate_buffer_stubs_fail _ _ _ Hr) as (name & Hb & Hs & ->).
           exists name. split; [apply Hclash; split; assumption | reflexivity].
        -- exfalso. exact (Hok st eq_refl Hc).
      * intros (name & Hc & _). split; [exact Hnd | exists name; exact Hc].
    + split.
      * intros [_ Hno]. apply allocate_buffer_stubs_succeeds. intros name Hb.
        destruct (adjoint_funcs st1 !! (name, -1)) as [acc |] eqn:Hl; [| reflexivity].
        exfalso. apply Hno. exists name. apply Hclash.
        split; [exact Hb | rewrite Hl; eauto].
      * intros [st Hst]. split; [exact Hnd | exact (Hok st Hst)].
    + intros st Hst name id.
      destruct (allocate_buffer_stubs_entries _ _ _ Hst) as (_ & H2 & H3 & H4).
      split.
      * intros [acc Hacc].
        destruct (H4 _ _ Hacc) as [H0 | (info & Hb & Hid & _)].
        -- left. apply Hkeys. rewrite H0. eauto.
        -- right. simpl in Hb, Hid. split; [rewrite Hb; eauto | exact Hid].
      * intros [Hfun | [[info Hb] ->]].
        -- apply Hkeys in Hfun. destruct Hfun as [acc Hacc].
           exists acc. apply H2. exact Hacc.
        -- destruct (H3 name info Hb) as (acc & Hacc & _). exists acc. exact Hacc.
Qed.

End Allocation.

Section BoundaryCondition.
Import IR Derivative Statements.
Context `{Ext : Externals}.

Lemma flat_map_only_at {A B : Type} (g : A -> list B) (a : A) (l : list A) :
  List.NoDup l -> In a l -> (forall x, x <> a -> g x = []) ->
  flat_map g l = g a.
Proof.
  intros Hnd Hin Hg. induction l as [| x rest IH]; [destruct Hin |].
  inversion Hnd as [| ? ? Hnotin Hnd']; subst. simpl.
  destruct Hin as [-> | Hin].
  - assert (Hrest : flat_map g rest = []).
    { clear IH Hnd Hnd'. induction rest as [| y rest IH]; [reflexivity |].
      simpl. rewrite Hg, IH; [reflexivity | | ].
      - intros H. apply Hnotin. right. exact H.
      - intros ->. apply Hnotin. left. reflexivity. }
    rewrite Hrest, app_nil_r. reflexivity.
  - rewrite Hg by (intros ->; contradiction). apply IH; assumption.
Qed.

Lemma update_ids_NoDup_rev (func : Func) : List.NoDup (rev (update_ids func)).
Proof.
  apply List.NoDup_rev.
  unfold update_ids. induction (seq_NoDup (S (num_update_definitions func)) 0)
    as [| i l Hnotin _ IH]; simpl; constructor; [| exact IH].
  intros Hin. apply in_map_iff in Hin. destruct Hin as (j & Hj & Hin).
  assert (j = i) by lia. subst j. contradiction.
Qed.

Lemma last_update_id_in (func : Func) : In (last_update_id func) (rev (update_ids func)).
Proof.
  apply in_rev. rewrite rev_involutive. unfold update_ids, last_update_id.
  apply in_map_iff. exists (num_update_definitions func). split; [lia |].
  apply in_seq. lia.
Qed.

Lemma boundary_condition_calls_once (scans : gset FuncKey) (func : Func) :
  (forall name id, (name, id) ∈ scans -> 0 <= id) ->
  boundary_condition_calls scans func = [(f_name func, last_update_id func)].
Proof.
  intros Hids. unfold boundary_condition_calls.
  rewrite (flat_map_only_at _ (last_update_id func)).
  - unfold is_current_non_overwriting_scan. rewrite Z.eqb_refl, andb_true_r.
    destruct (decide ((f_name func, last_update_id func) ∈ scans)) as [E | E].
    + specialize (Hids _ _ E). apply Z.leb_le in Hids. rewrite Hids.
      repeat (rewrite bool_decide_eq_true_2 by exact E). reflexivity.
    + repeat (rewrite bool_decide_eq_false_2 by exact E).
      rewrite andb_false_r. reflexivity.
  - apply update_ids_NoDup_rev.
  - apply last_update_id_in.
  - intros id Hne. apply Z.eqb_neq in Hne. rewrite Hne, andb_false_r. reflexivity.
Qed.

(** X22: the boundary condition of a function is set up exactly once.
    With the scans the detection phase recorded, the reverse pass over a
    function calls [add_boundary_condition] once, for the key of the last
    update of the function (the pure definition when there is no update):
    before the loop over the updates when that key is no non overwriting
    scan, and otherwise inside the loop, at the last update.  This rests on
    the recorded keys having an index of 0 or more. *)
Theorem boundary_condition_is_set_up_once (funcs : list Func) (v v' : visitor)
    (scans : gset FuncKey) (func : Func) :
  forward_overwrite_detection funcs v = ok (v', scans) ->
  boundary_condition_calls scans func = [(f_name func, last_update_id func)].
Proof.
  intros Hdet.
  assert (Hkeys : forall name id, (name, id) ∈ scans -> names_scan_update funcs (name, id)).
  { revert Hdet. unfold forward_overwrite_detection.
    destruct (Nat.eqb (length funcs) 0); [discriminate |].
    destruct (detect_funcs funcs (set_detection_phase v true) ∅)
      as [e | [v1 scans1]] eqn:Hd; cbn [bind]; [discriminate |].
    intros [= <- <-] name id Hkey.
    eapply (detect_funcs_keys funcs funcs); [auto | | exact Hd | exact Hkey].
    intros key Hk. apply elem_of_empty in Hk. destruct Hk. }
  apply boundary_condition_calls_once. intros name id Hkey.
  destruct (Hkeys name id Hkey) as (g & i & upd & _ & [= _ ->] & _). lia.
Qed.
End BoundaryCondition.

Section Routing.
Import IR Derivative Statements.
Variable function_at : ptr -> Func.

(** X23: which accumulator a call scatters to.  Every call goes on in
    exactly one of the two sub-phases: the calls of the current function to
    itself in the self-referencing phase, all others in the other phase.
    Where the function names tell the functions apart, a self-reference
    scatters to the current update when that is a non overwriting scan and
    to the previous update otherwise; a call of another function scatters
    to its last update (its pure definition, index -1, when it has none);
    a call of a buffer scatters to the index -1 of the buffer. *)
Theorem calls_scatter_by_phase (current : Func) (current_update_id : Z)
    (is_scan : bool) (op_name : string) (op_func : option ptr) :
  propagates_in_phase true op_func current
  = negb (propagates_in_phase false op_func current) /\
  (op_func = None ->
   propagates_in_phase false op_func current = true /\
   forall phase,
     scatter_key function_at current current_update_id is_scan phase op_name op_func
     = (op_name, -1)) /\
  ((forall p, f_name (function_at p) = f_name current <-> p = f_contents current) ->
   (propagates_in_phase true op_func current = true ->
    scatter_key function_at current current_update_id is_scan true op_name op_func
    = (f_name current,
       if is_scan then current_update_id else current_update_id - 1)) /\
   (forall p,
      op_func = Some p ->
      propagates_in_phase false op_func current = true ->
      Z.of_nat (length (f_updates (function_at p))) <= 2 ^ 31 ->
      scatter_key function_at current current_update_id is_scan false op_name op_func
      = (f_name (function_at p),
         Z.of_nat (length (f_updates (function_at p))) - 1))).
Proof.
  unfold propagates_in_phase. split; [| split].
  - rewrite negb_involutive. reflexivity.
  - intros ->. split.
    + rewrite bool_decide_eq_false_2 by discriminate. reflexivity.
    + intros phase. reflexivity.
  - intros Hnames. split.
    + intros Hsame. apply bool_decide_eq_true in Hsame. subst op_func.
      unfold scatter_key.
      assert (Hn : f_name (function_at (f_contents current)) = f_name current)
        by (apply Hnames; reflexivity).
      rewrite Hn, String.eqb_refl, andb_true_r. simpl. destruct is_scan; reflexivity.
    + intros p -> Hother Hsize.
      apply negb_true_iff, bool_decide_eq_false in Hother.
      assert (Hne : f_name (function_at p) <> f_name current).
      { intros Hn. apply Hnames in Hn. subst p. apply Hother. reflexivity. }
      apply String.eqb_neq in Hne. unfold scatter_key.
      rewrite Hne, andb_false_r. simpl. f_equal.
      unfold ScopeH.wrap_int.
      change (2 ^ 31) with 2147483648 in *. change (2 ^ 32) with 4294967296.
      rewrite Z.mod_small by lia. lia.
Qed.

End Routing.

Section Overloads.
Import IR Derivative Statements.
Context `{Ext : Externals}.
Variable Func_value : Func -> result Expr.
Variable new_contents : ptr.

(** X24: the entry point that takes only the output never raises the two
    dimension errors.  It seeds with the constant one of the type of the
    output's value over the arguments of the output, bounds every dimension
    by [0, 0], and fails only where reading the value or the run of the
    visitor fails. *)
Theorem output_only_entry_point_passes_the_checks (output : Func) :
  match Func_value output with
  | inl e => propagate_adjoints_of_output Func_value new_contents output = fail e
  | inr value =>
      exists (adjoint : Func) (output_bounds : list (Expr * Expr)),
        f_args adjoint = f_args output /\
        f_values adjoint = [make_const (type_of value) 1%Q] /\
        f_updates adjoint = [] /\
        length output_bounds = dimensions output /\
        (forall bound, In bound output_bounds ->
           bound = (IntImm (Int 32) 0, IntImm (Int 32) 0)) /\
        check_dimensions output adjoint output_bounds = ok tt /\
        propagate_adjoints_of_output Func_value new_contents output
        = (let* adjoint_funcs :=
             ReverseAccumulationVisitor_propagate_adjoints output adjoint
               output_bounds in
           ok {| adjoints := adjoint_funcs |})
  end.
Proof.
  unfold propagate_adjoints_of_output.
  destruct (Func_value output) as [e | value]; cbn [bind]; [reflexivity |].
  match goal with
  | |- context [propagate_adjoints output ?a ?b] => exists a, b
  end.
  split; [reflexivity |]. split; [reflexivity |]. split; [reflexivity |].
  repeat split.
  - rewrite length_map, length_seq. reflexivity.
  - intros bound Hin. apply in_map_iff in Hin. destruct Hin as (i & <- & _).
    reflexivity.
  - unfold check_dimensions, dimensions. simpl.
    rewrite length_map, length_seq, !Nat.eqb_refl. reflexivity.
  - unfold propagate_adjoints, check_dimensions, dimensions. simpl.
    rewrite length_map, length_seq, !Nat.eqb_refl. reflexivity.
Qed.

(** X25: the entry point that takes a buffer rejects a buffer whose number
    of dimensions differs from the output's, with a user error that has no
    message; otherwise the two dimension checks pass, and dimension [dim]
    is bounded by [min, min + extent - 1] of the buffer. *)
Theorem buffer_entry_point_checks_the_dimensions (output : Func) (adjoint : Buffer) :
  (dimensions output <> length (buffer_dims adjoint) ->
   propagate_adjoints_of_buffer new_contents output adjoint = fail (UserError "")) /\
  (dimensions output = length (buffer_dims adjoint) ->
   exists (adjoint_func : Func) (bounds : list (Expr * Expr)),
     f_name adjoint_func = "adjoint_func" /\
     length bounds = dimensions output /\
     (forall (dim : nat) (min extent : Z),
        buffer_dims adjoint !! dim = Some (min, extent) ->
        - 2 ^ 31 <= min < 2 ^ 31 ->
        - 2 ^ 31 < min + extent < 2 ^ 31 ->
        bounds !! dim
        = Some (IntImm (Int 32) min, IntImm (Int 32) (min + extent - 1))) /\
     check_dimensions output adjoint_func bounds = ok tt /\
     propagate_adjoints_of_buffer new_contents output adjoint
     = (let* adjoint_funcs :=
          ReverseAccumulationVisitor_propagate_adjoints output adjoint_func bounds in
        ok {| adjoints := adjoint_funcs |})).
Proof.
  unfold propagate_adjoints_of_buffer. split.
  - intros Hne. apply Nat.eqb_neq in Hne. rewrite Hne. reflexivity.
  - intros Heq.
    assert (Hb : Nat.eqb (dimensions output) (length (buffer_dims adjoint)) = true)
      by (apply Nat.eqb_eq; exact Heq).
    rewrite Hb. cbn [negb].
    match goal with
    | |- context [propagate_adjoints output ?a ?b] => exists a, b
    end.
    split; [reflexivity |]. repeat split.
    + rewrite length_map. symmetry. exact Heq.
    + intros dim min extent Hdim Hmin Hsum.
      rewrite list_lookup_fmap, Hdim. simpl. do 3 f_equal.
      unfold ScopeH.wrap_int.
      change (2 ^ 31) with 2147483648 in *. change (2 ^ 32) with 4294967296.
      rewrite (Z.mod_small (min + extent + 2147483648)) by lia.
      rewrite Z.mod_small by lia. lia.
    + unfold check_dimensions, dimensions in *. simpl.
      rewrite !length_map, length_seq, Heq, !Nat.eqb_refl. reflexivity.
    + unfold propagate_adjoints, check_dimensions, dimensions in *. simpl.
      rewrite !length_map, length_seq, Heq, !Nat.eqb_refl. reflexivity.
Qed.

End Overloads.

Section DerivativeWitnesses.
Import IR Derivative Statements Examples.

Lemma bad_update_traversed :
  exists v', traverse (sorted_below (handle_of bad_root)) entry_state_seeded = ok v'.
Proof. eexists. vm_compute. reflexivity. Qed.

Lemma detection_records_the_self_calls_witness :
  exists v',
    traverse (sorted_below (handle_of bad_root)) entry_state_seeded = ok v' /\
    self_reference_args v' = [[x]].
Proof.
  destruct bad_update_traversed as [v' Hv']. exists v'. split; [exact Hv' |].
  refine (proj1 (detection_records_the_self_calls
                   (sorted_below (handle_of bad_root)) entry_state_seeded v'
                   eq_refl _ Hv')).
  repeat constructor.
Defined.

Lemma sorted_below_ends_with_root : sorted_ends_with_root.
Proof.
  intros e. unfold sort_expressions, collaborators, sorted_below.
  destruct (Pos.eqb (addr e) 14) eqn:E1;
    [apply Pos.eqb_eq in E1; exists [good_f; good_g], good_root; rewrite E1; split; reflexivity |].
  destruct (Pos.eqb (addr e) 24) eqn:E2;
    [apply Pos.eqb_eq in E2; exists [bad_two; bad_f; bad_mul; bad_g], bad_root;
     rewrite E2; split; reflexivity |].
  destruct (Pos.eqb (addr e) 34) eqn:E3;
    [apply Pos.eqb_eq in E3; exists [scan_two; scan_f; scan_mul; scan_g], scan_root;
     rewrite E3; split; reflexivity |].
  destruct (Pos.eqb (addr e) 42) eqn:E4;
    [apply Pos.eqb_eq in E4; exists [square_a; square_b], square_root;
     rewrite E4; split; reflexivity |].
  eexists [], _. split; reflexivity.
Qed.

Lemma outputs_are_seeded_with_one_witness :
  gather_expr_list [handle_of bad_root] [] []
    = ok ([bad_two; bad_f; bad_mul; bad_g; bad_root], [24%positive]) /\
  seed_outputs [24%positive] ∅ !! 24%positive = Some (FloatImm (Float 32) 1%Q).
Proof.
  split.
  - exact (proj1 (outputs_are_seeded_with_one [handle_of bad_root] ∅
                    sorted_below_ends_with_root)).
  - refine (proj1 (proj2 (outputs_are_seeded_with_one [handle_of bad_root] ∅
                            sorted_below_ends_with_root)) (handle_of bad_root) _).
    left. reflexivity.
Defined.

Lemma unsimplified_keeps_truth : @simplify_keeps_truth unsimplified.
Proof. intros env e. reflexivity. Qed.

Lemma scan_coordinates_differ :
  some_coordinate_differs tie_env [x; r_x] [x; Binary Add r_x (IntImm i32 1)].
Proof.
  exists 1%nat, r_x, (Binary Add r_x (IntImm i32 1)).
  split; [reflexivity |]. split; [reflexivity |].
  intros E. vm_compute in E. discriminate E.
Qed.

Lemma not_overwriting_cond_means_locations_differ_witness :
  to_bool (eval tie_env
             (@not_overwriting_cond unsimplified [x; r_x]
                [x; Binary Add r_x (IntImm i32 1)] const_false)) = true /\
  to_bool (eval tie_env
             (@not_overwriting_cond unsimplified [x; Binary Add r_x (IntImm i32 1)]
                [x; Binary Add r_x (IntImm i32 1)] const_false)) = false.
Proof.
  split.
  - exact (proj2 (proj1 (@not_overwriting_cond_means_locations_differ unsimplified
                           tie_env [x; r_x] [x; Binary Add r_x (IntImm i32 1)]
                           unsimplified_keeps_truth))
                 scan_coordinates_differ).
  - exact (proj2 (@not_overwriting_cond_means_locations_differ unsimplified
                    tie_env [x; r_x] [x; Binary Add r_x (IntImm i32 1)]
                    unsimplified_keeps_truth)).
Defined.

Lemma scan_detected :
  exists v, forward_overwrite_detection [g; f_scan] visitor_new
            = ok (v, {[ ("f", 0%Z) ]}).
Proof. eexists. vm_compute. reflexivity. Qed.

Lemma boundary_condition_is_set_up_once_witness :
  boundary_condition_calls {[ ("f", 0%Z) ]} f_scan = [("f", 0%Z)] /\
  boundary_condition_calls {[ ("f", 0%Z) ]} g = [("g", -1)].
Proof.
  destruct scan_detected as [v Hv]. split.
  - exact (boundary_condition_is_set_up_once [g; f_scan] visitor_new v _ f_scan Hv).
  - exact (boundary_condition_is_set_up_once [g; f_scan] visitor_new v _ g Hv).
Defined.

End DerivativeWitnesses.
